(** * Minesweeper knowledge base: Sentence and MinesweeperAI

    A shallow embedding of [minesweeper.py].  Cells are pairs of Python
    integers, cell sets are finite sets with extensional equality, the
    knowledge base is a Python list walked by index, and the recursion
    between [mark_mine], [mark_safe] and [conclude_infer_integrate] is
    bounded by a fuel argument that stands for the interpreter's call
    stack. *)

From stdpp Require Import base option list gmap sets strings sorting.
From Stdlib Require Import ZArith Lia Ascii.

Local Open Scope Z_scope.

(** A board cell [(i, j)]. *)
Abbreviation cell := (Z * Z)%type.

(** ** Iteration order of a Python set

    The program walks over a set in the [for cell in ...] loops of
    [is_conclusive] and of [make_safe_move].  Python leaves that order
    unspecified, so the development is parametric in it: any enumeration of
    the members without repetition will do. *)
Class SetOrder := {
  set_iter : gset cell → list cell;
  set_iter_perm : ∀ X, set_iter X ≡ₚ elements X
}.

(** The enumeration used when a concrete run is evaluated. *)
Definition elements_order : SetOrder :=
  {| set_iter := elements; set_iter_perm := λ X, reflexivity (elements X) |}.

(** ** class Sentence *)
Module Sentence.

Record t := mk { cells : gset cell; count : Z }.

(** [__eq__]: same cell set and same count.  With extensional sets
    this is equality of records, and it is decidable. *)
#[global] Instance eq_dec : EqDecision t.
Proof. solve_decision. Defined.

(** [len(self.cells)] *)
Definition len (s : t) : Z := Z.of_nat (size (cells s)).

Definition is_empty (s : t) : bool := bool_decide (len s = 0).

(** [None] is Python's [None]; [Some X] is the set object itself. *)
Definition known_mines (s : t) : option (gset cell) :=
  if bool_decide (count s = len s) then Some (cells s) else None.

Definition known_safes (s : t) : option (gset cell) :=
  if bool_decide (count s = 0) then Some (cells s) else None.

(** The sentence after the call, and the returned flag. *)
Definition mark_mine (s : t) (c : cell) : t * bool :=
  if bool_decide (c ∈ cells s)
  then (mk (cells s ∖ {[c]}) (count s - 1), true)
  else (s, false).

Definition mark_safe (s : t) (c : cell) : t * bool :=
  if bool_decide (c ∈ cells s)
  then (mk (cells s ∖ {[c]}) (count s), true)
  else (s, false).

End Sentence.

(** Truth value of a Python object that is [None] or a set. *)
Definition truthy (o : option (gset cell)) : bool :=
  match o with
  | Some X => negb (bool_decide (X = ∅))
  | None => false
  end.

(** [list.remove(x)]: drop the first element equal to [x].  (Python raises
    [ValueError] when there is none; the callers below have just stored [x]
    in the list.) *)
Fixpoint list_remove {A} `{EqDecision A} (x : A) (l : list A) : list A :=
  match l with
  | [] => []
  | y :: l' => if decide (y = x) then l' else y :: list_remove x l'
  end.

(** A loop whose body may run out of fuel. *)
Fixpoint for_each {A S} (body : A → S → option S) (l : list A) (s : S) : option S :=
  match l with
  | [] => Some s
  | a :: l' => match body a s with
               | Some s' => for_each body l' s'
               | None => None
               end
  end.

(** ** class MinesweeperAI *)
Module MinesweeperAI.

Record t := mk {
  height : Z;
  width : Z;
  moves_made : gset cell;
  mines : gset cell;
  safes : gset cell;
  knowledge : list Sentence.t
}.

(** [__init__] *)
Definition init (h w : Z) : t := mk h w ∅ ∅ ∅ [].

Definition set_knowledge (ai : t) (k : list Sentence.t) : t :=
  mk (height ai) (width ai) (moves_made ai) (mines ai) (safes ai) k.
Definition add_mine (ai : t) (c : cell) : t :=
  mk (height ai) (width ai) (moves_made ai) (mines ai ∪ {[c]}) (safes ai) (knowledge ai).
Definition add_safe (ai : t) (c : cell) : t :=
  mk (height ai) (width ai) (moves_made ai) (mines ai) (safes ai ∪ {[c]}) (knowledge ai).
Definition add_move (ai : t) (c : cell) : t :=
  mk (height ai) (width ai) (moves_made ai ∪ {[c]}) (mines ai) (safes ai) (knowledge ai).

(** The inference drawn from one [other_sentence], lines 260-272:
    [None] is the [continue]. *)
Definition inference (sentence other : Sentence.t) : option Sentence.t :=
  if bool_decide (Sentence.cells sentence ⊆ Sentence.cells other) then
    Some (Sentence.mk (Sentence.cells other ∖ Sentence.cells sentence)
                      (Sentence.count other - Sentence.count sentence))
  else if bool_decide (Sentence.cells other ⊆ Sentence.cells sentence) then
    Some (Sentence.mk (Sentence.cells sentence ∖ Sentence.cells other)
                      (Sentence.count sentence - Sentence.count other))
  else None.

(** The loop of lines 258-275 over the sentences [others] still to be
    compared, with the list [inferences] built so far; [kn] is
    [self.knowledge], which the loop does not change. *)
Fixpoint infer (sentence : Sentence.t) (kn others inferences : list Sentence.t)
  : list Sentence.t :=
  match others with
  | [] => inferences
  | other :: others' =>
      match inference sentence other with
      | Some inf =>
          if negb (bool_decide (inf ∈ inferences)) && negb (bool_decide (inf ∈ kn))
          then infer sentence kn others' (inferences ++ [inf])
          else infer sentence kn others' inferences
      | None => infer sentence kn others' inferences
      end
  end.

(** The body of [is_conclusive], given the two marking methods it calls.
    The [deepcopy] makes the loops walk over a private copy of the cell
    set; the flag is the returned boolean. *)
Definition is_conclusive_with `{SetOrder} (mark_safe mark_mine : cell → t → option t)
    (sentence : Sentence.t) (ai : t) : option (bool * t) :=
  let safes := Sentence.known_safes sentence in
  if truthy safes then
    match for_each mark_safe (set_iter (default ∅ safes)) ai with
    | Some ai' => Some (true, ai')
    | None => None
    end
  else
    let mines := Sentence.known_mines sentence in
    if truthy mines then
      match for_each mark_mine (set_iter (default ∅ mines)) ai with
      | Some ai' => Some (true, ai')
      | None => None
      end
    else Some (false, ai).

(** The window of lines 218-221: rows [i - 1 .. i + 1] that are on the
    board, and in each the columns [j - 1 .. j + 1] that are, in the order
    the two [range] loops visit them. *)
Definition window (ai : t) (c : cell) : list cell :=
  i ← filter (λ i, 0 ≤ i < height ai) [c.1 - 1; c.1; c.1 + 1];
  j ← filter (λ j, 0 ≤ j < width ai) [c.2 - 1; c.2; c.2 + 1];
  [(i, j)].

(** One visit of the innermost body, lines 223-228, on the pair
    [(surrounding_unknowns, count)]. *)
Definition visit (ai : t) (acc : gset cell * Z) (c : cell) : gset cell * Z :=
  if bool_decide (c ∉ safes ai) then
    if bool_decide (c ∈ mines ai) then (acc.1, acc.2 - 1)
    else (acc.1 ∪ {[c]}, acc.2)
  else acc.

(** The sentence built by lines 217-230. *)
Definition new_sentence (ai : t) (c : cell) (count : Z) : Sentence.t :=
  let r := foldl (visit ai) (∅, count) (window ai c) in
  Sentence.mk r.1 r.2.

Section Propagation.
Context {order : SetOrder}.

(** [mark_loop prune fuel cell i ai] is the [for sentence in
    self.knowledge] loop of [mark_mine] / [mark_safe] from the
    iterator position [i] on; [prune] is [Sentence.mark_mine] or
    [Sentence.mark_safe].  The sentence at position [i] is changed in
    place, [list.remove] then drops the first sentence equal to it, and
    the iterator moves on to position [i + 1] of whatever the list has
    become.

    [conclude_infer_integrate fuel sentence ai] is the method of that
    name.  [None] means that the fuel ran out: every call and every
    turn of the loop takes one unit. *)
Fixpoint mark_loop (prune : Sentence.t → cell → Sentence.t * bool)
    (fuel : nat) (c : cell) (i : nat) (ai : t) {struct fuel} : option t :=
  match fuel with
  | O => None
  | S fuel' =>
      match knowledge ai !! i with
      | None => Some ai
      | Some sentence =>
          match prune sentence c with
          | (sentence', true) =>
              let kn := list_remove sentence' (<[i := sentence']> (knowledge ai)) in
              match conclude_infer_integrate fuel' sentence' (set_knowledge ai kn) with
              | Some ai' => mark_loop prune fuel' c (S i) ai'
              | None => None
              end
          | (_, false) => mark_loop prune fuel' c (S i) ai
          end
      end
  end
with conclude_infer_integrate (fuel : nat) (sentence : Sentence.t) (ai : t)
    {struct fuel} : option t :=
  match fuel with
  | O => None
  | S fuel' =>
      if bool_decide (sentence ∈ knowledge ai) || Sentence.is_empty sentence
      then Some ai
      else
        match is_conclusive_with
                (λ c a, mark_loop Sentence.mark_safe fuel' c 0 (add_safe a c))
                (λ c a, mark_loop Sentence.mark_mine fuel' c 0 (add_mine a c))
                sentence ai with
        | None => None
        | Some (true, ai') => Some ai'
        | Some (false, ai') =>
            let inferences := infer sentence (knowledge ai') (knowledge ai') [] in
            for_each (conclude_infer_integrate fuel') inferences
                     (set_knowledge ai' (knowledge ai' ++ [sentence]))
        end
  end.

Definition mark_mine (fuel : nat) (c : cell) (ai : t) : option t :=
  mark_loop Sentence.mark_mine fuel c 0 (add_mine ai c).

Definition mark_safe (fuel : nat) (c : cell) (ai : t) : option t :=
  mark_loop Sentence.mark_safe fuel c 0 (add_safe ai c).

Definition is_conclusive (fuel : nat) (sentence : Sentence.t) (ai : t)
  : option (bool * t) :=
  is_conclusive_with (mark_safe fuel) (mark_mine fuel) sentence ai.

Definition add_knowledge (fuel : nat) (c : cell) (count : Z) (ai : t) : option t :=
  match mark_safe fuel c (add_move ai c) with
  | Some ai' => conclude_infer_integrate fuel (new_sentence ai' c count) ai'
  | None => None
  end.

End Propagation.

End MinesweeperAI.

Arguments MinesweeperAI.mark_loop : simpl never.
Arguments MinesweeperAI.conclude_infer_integrate : simpl never.
Arguments MinesweeperAI.mark_mine : simpl never.
Arguments MinesweeperAI.mark_safe : simpl never.

(** ** class Minesweeper: the board the counts come from *)
Module Minesweeper.

(** [board[i][j]] is true exactly for the cells of [mines]. *)
Record t := mk { height : Z; width : Z; mines : gset cell }.

Definition is_mine (g : t) (c : cell) : bool := bool_decide (c ∈ mines g).

Definition in_bounds (g : t) (c : cell) : bool :=
  bool_decide (0 ≤ c.1 < height g) && bool_decide (0 ≤ c.2 < width g).

Definition square (c : cell) : list cell :=
  i ← [c.1 - 1; c.1; c.1 + 1]; j ← [c.2 - 1; c.2; c.2 + 1]; [(i, j)].

Definition nearby_mines (g : t) (c : cell) : Z :=
  foldl (λ count d,
           if bool_decide (d = c) then count
           else if in_bounds g d && is_mine g d then count + 1 else count)
        0 (square c).

End Minesweeper.

(** [d] is a neighbour of [c] on the board of [ai]: one of the up to
    eight cells around [c] that lie on the board. *)
Definition neighbour (ai : MinesweeperAI.t) (c d : cell) : Prop :=
  d ≠ c ∧ c.1 - 1 ≤ d.1 ≤ c.1 + 1 ∧ c.2 - 1 ≤ d.2 ≤ c.2 + 1 ∧
  0 ≤ d.1 < MinesweeperAI.height ai ∧ 0 ≤ d.2 < MinesweeperAI.width ai.

Definition neighbours (ai : MinesweeperAI.t) (c : cell) : gset cell :=
  list_to_set (filter (λ d, d ≠ c) (MinesweeperAI.window ai c)).

(** [grows ai0 X Y ai]: from [ai0] to [ai] the board and the moves are
    the same, [safes] and [mines] have only grown, and they contain [X]
    and [Y]. *)
Record grows (ai0 : MinesweeperAI.t) (X Y : gset cell) (ai : MinesweeperAI.t) : Prop := {
  grows_height : MinesweeperAI.height ai = MinesweeperAI.height ai0;
  grows_width : MinesweeperAI.width ai = MinesweeperAI.width ai0;
  grows_moves : MinesweeperAI.moves_made ai = MinesweeperAI.moves_made ai0;
  grows_safes : MinesweeperAI.safes ai0 ∪ X ⊆ MinesweeperAI.safes ai;
  grows_mines : MinesweeperAI.mines ai0 ∪ Y ⊆ MinesweeperAI.mines ai
}.

(** The resolvability check of [is_conclusive] on a sentence: one of its
    two branches fires. *)
Definition resolvable (s : Sentence.t) : bool :=
  truthy (Sentence.known_safes s) || truthy (Sentence.known_mines s).

(** A sentence that [conclude_infer_integrate] would keep: it has cells and
    it is not resolvable. *)
Definition unresolved (s : Sentence.t) : Prop :=
  Sentence.is_empty s = false ∧ resolvable s = false.

(** ** A game played by the contract

    The caller reveals cells of a board [g] that are not mines and reports
    the number [nearby_mines] of each. *)

(** [holds M s]: exactly [count] of the cells of [s] are mines of the
    layout [M]. *)
Definition holds (M : gset cell) (s : Sentence.t) : Prop :=
  Sentence.count s = Z.of_nat (size (Sentence.cells s ∩ M)).

Section Game.
Import MinesweeperAI.
Context {order : SetOrder}.
Variable g : Minesweeper.t.

(** Everything the AI believes is true of [g]. *)
Record sound (ai : t) : Prop := {
  sound_height : height ai = Minesweeper.height g;
  sound_width : width ai = Minesweeper.width g;
  sound_mines : mines ai ⊆ Minesweeper.mines g;
  sound_safes : safes ai ## Minesweeper.mines g;
  sound_knowledge : Forall (holds (Minesweeper.mines g)) (knowledge ai)
}.

(** The states of a game: the fresh AI, the state after every
    [add_knowledge] that keeps the contract, and, to cover the moments in
    between, the state after every call of [mark_safe], [mark_mine] and
    [conclude_infer_integrate] with a true argument and after every
    pruning of a sentence in place. *)
Inductive reachable : t → Prop :=
| reachable_init :
    reachable (init (Minesweeper.height g) (Minesweeper.width g))
| reachable_add_knowledge fuel c ai ai' :
    reachable ai →
    Minesweeper.in_bounds g c = true → Minesweeper.is_mine g c = false →
    add_knowledge fuel c (Minesweeper.nearby_mines g c) ai = Some ai' →
    reachable ai'
| reachable_mark_safe fuel c ai ai' :
    reachable ai → Minesweeper.is_mine g c = false →
    mark_safe fuel c ai = Some ai' → reachable ai'
| reachable_mark_mine fuel c ai ai' :
    reachable ai → Minesweeper.is_mine g c = true →
    mark_mine fuel c ai = Some ai' → reachable ai'
| reachable_integrate fuel s ai ai' :
    reachable ai → holds (Minesweeper.mines g) s →
    conclude_infer_integrate fuel s ai = Some ai' → reachable ai'
| reachable_prune_safe i c s ai :
    reachable ai → Minesweeper.is_mine g c = false →
    knowledge ai !! i = Some s → c ∈ Sentence.cells s →
    reachable (set_knowledge ai (<[i := (Sentence.mark_safe s c).1]> (knowledge ai)))
| reachable_prune_mine i c s ai :
    reachable ai → Minesweeper.is_mine g c = true →
    knowledge ai !! i = Some s → c ∈ Sentence.cells s →
    reachable (set_knowledge ai (<[i := (Sentence.mark_mine s c).1]> (knowledge ai))).

End Game.

(** A run of the game loop: the cells [cs] are revealed in turn and the
    board reports the count of each. *)
Definition play `{SetOrder} (g : Minesweeper.t) (fuel : nat) (cs : list cell)
    (ai : MinesweeperAI.t) : option MinesweeperAI.t :=
  for_each (λ c ai, MinesweeperAI.add_knowledge fuel c (Minesweeper.nearby_mines g c) ai)
           cs ai.

(** ** A running example

    A board of 3 rows and 4 columns with one mine at (1, 1); the cells
    (0, 0), (0, 2) and (0, 1) are revealed in this order.  Concrete runs
    walk over sets in the order of [elements]. *)
Definition demo_game : Minesweeper.t := Minesweeper.mk 3 4 {[ (1, 1) ]}.

Definition demo_start : MinesweeperAI.t := MinesweeperAI.init 3 4.

Definition demo_state (n : nat) : MinesweeperAI.t :=
  default demo_start
    (@play elements_order demo_game 50 (take n [(0, 0); (0, 2); (0, 1)]) demo_start).

(** The state in the middle of the third [add_knowledge]: (0, 1) has been
    recorded as a move and marked safe, and its neighbours are about to be
    enumerated. *)
Definition demo_marked : MinesweeperAI.t :=
  default demo_start
    (@MinesweeperAI.mark_safe elements_order 50 (0, 1)
       (MinesweeperAI.add_move (demo_state 2) (0, 1))).

(** ** The sentences of a run that never ends

    Two sentences over the same two cells [A] and [B] with the counts 1 and
    3 are held.  Integrating [{A} = a] draws [{B} = 1 - a] from the first,
    integrating that draws [{A} = a + 2] from the second, and so on.
    [rung_A a] and [rung_B b] describe the one-cell sentences held when
    [{A} = a], respectively [{B} = b], is integrated. *)
Definition rung_A (A B : cell) (a : Z) (s : Sentence.t) : Prop :=
  (Sentence.cells s = {[A]} ∧ 5 ≤ Sentence.count s < a) ∨
  (Sentence.cells s = {[B]} ∧ 1 - a < Sentence.count s ≤ -4).

Definition rung_B (A B : cell) (b : Z) (s : Sentence.t) : Prop :=
  (Sentence.cells s = {[A]} ∧ 5 ≤ Sentence.count s ≤ 1 - b) ∨
  (Sentence.cells s = {[B]} ∧ b < Sentence.count s ≤ -4).

Definition ladder (A B : cell) (rung : Sentence.t → Prop) (kn : list Sentence.t) : Prop :=
  ∃ rest, kn = Sentence.mk {[A; B]} 1 :: Sentence.mk {[A; B]} 3 :: rest
          ∧ Forall rung rest.

(** A board of one row and four columns on which (0, 1) was reported
    twice, with the counts 1 and 3. *)
Definition ladder_state : MinesweeperAI.t :=
  MinesweeperAI.mk 1 4 {[ (0, 1) ]} ∅ {[ (0, 1) ]}
    [Sentence.mk {[ (0, 2); (0, 0) ]} 1; Sentence.mk {[ (0, 2); (0, 0) ]} 3].

(** ** Every game on a small board *)

Definition board_cells (h w : Z) : list cell :=
  i ← seqZ 0 h; j ← seqZ 0 w; [(i, j)].

Fixpoint sublists {A} (l : list A) : list (list A) :=
  match l with
  | [] => [[]]
  | x :: l' => sublists l' ++ map (cons x) (sublists l')
  end.

(** Whatever cells of [rest] are revealed next, in whatever order, no call
    of [add_knowledge] runs out of fuel; [depth] bounds the number of
    reveals. *)
Fixpoint all_orders_end `{SetOrder} (depth fuel : nat) (g : Minesweeper.t)
    (rest : list cell) (ai : MinesweeperAI.t) : bool :=
  match depth with
  | O => true
  | S depth' =>
      forallb (λ c,
        match MinesweeperAI.add_knowledge fuel c (Minesweeper.nearby_mines g c) ai with
        | None => false
        | Some ai' => all_orders_end depth' fuel g (filter (λ d, d ≠ c) rest) ai'
        end) rest
  end.

(** The same for every layout of mines on a board of [h] rows and [w]
    columns. *)
Definition all_games_end `{SetOrder} (h w : Z) (fuel : nat) : bool :=
  forallb (λ ms,
    let safe := filter (λ c, c ∉ ms) (board_cells h w) in
    all_orders_end (length safe) fuel (Minesweeper.mk h w (list_to_set ms)) safe
      (MinesweeperAI.init h w))
    (sublists (board_cells h w)).

(** The boards of at most six cells. *)
Definition small_boards : list (Z * Z) :=
  [(1, 1); (1, 2); (1, 3); (1, 4); (1, 5); (1, 6); (2, 1); (2, 2); (2, 3);
   (3, 1); (3, 2); (4, 1); (5, 1); (6, 1)].

(** ** The moves the AI proposes *)

(** [make_safe_move]: the loop walks over the set [safes] and returns the
    first cell met that is not in [moves_made]; [None] is Python's [None]. *)
Definition make_safe_move `{SetOrder} (ai : MinesweeperAI.t) : option cell :=
  find (λ c, bool_decide (c ∉ MinesweeperAI.moves_made ai))
       (set_iter (MinesweeperAI.safes ai)).

(** [make_random_move]: the two [range] loops visit the board row by row
    and return the first cell that is neither in [moves_made] nor in
    [mines]. *)
Definition make_random_move (ai : MinesweeperAI.t) : option cell :=
  find (λ c, bool_decide (c ∉ MinesweeperAI.moves_made ai)
             && bool_decide (c ∉ MinesweeperAI.mines ai))
       (board_cells (MinesweeperAI.height ai) (MinesweeperAI.width ai)).

(** [d] is visited before [c] by the loops of [make_random_move]. *)
Definition before (d c : cell) : Prop := d.1 < c.1 ∨ (d.1 = c.1 ∧ d.2 < c.2).

(** A series of calls [add_knowledge(cell, count)], one for each report. *)
Definition add_all `{SetOrder} (fuel : nat) (reports : list (cell * Z))
    (ai : MinesweeperAI.t) : option MinesweeperAI.t :=
  for_each (λ r ai, MinesweeperAI.add_knowledge fuel r.1 r.2 ai) reports ai.

(** ** Python lists indexed by integers *)

(** The position that the index [i] denotes in a list of [len] items: a
    negative index counts from the end, and [None] is the [IndexError]. *)
Definition py_position (len : nat) (i : Z) : option nat :=
  if bool_decide (0 ≤ i < Z.of_nat len) then Some (Z.to_nat i)
  else if bool_decide (- Z.of_nat len ≤ i < 0) then Some (Z.to_nat (Z.of_nat len + i))
  else None.

(** [l[i]] *)
Definition py_get {A} (l : list A) (i : Z) : option A :=
  n ← py_position (length l) i; l !! n.

(** [l[i] = x] *)
Definition py_set {A} (l : list A) (i : Z) (x : A) : option (list A) :=
  n ← py_position (length l) i; Some (<[n := x]> l).

(** ** class Minesweeper with its board matrix *)
Module Board.

Record t := mk {
  height : Z;
  width : Z;
  mines : gset cell;
  board : list (list bool);
  mines_found : gset cell
}.

(** How a call ends: it returns, it raises, or, for the loop of [__init__]
    that draws random numbers, it is still running when the numbers given
    to it are used up. *)
Inductive result (A : Type) : Type :=
| Returns (a : A)
| ValueError
| IndexError
| Running.
Arguments Returns {A} a.
Arguments ValueError {A}.
Arguments IndexError {A}.
Arguments Running {A}.

(** Lines 19-24: [height] rows of [width] times [False]. *)
Definition empty_board (height width : Z) : list (list bool) :=
  foldl (λ board _, board ++ [foldl (λ row _, row ++ [false]) [] (seqZ 0 width)])
        [] (seqZ 0 height).

(** [board[i][j]] *)
Definition get (board : list (list bool)) (i j : Z) : option bool :=
  row ← py_get board i; py_get row j.

(** [board[i][j] = True]: the row object is changed in place. *)
Definition set_true (board : list (list bool)) (i j : Z) : option (list (list bool)) :=
  row ← py_get board i; row' ← py_set row j true; py_set board i row'.

(** [random.randrange(n)] on the random number [r]: some member of
    [range(n)], and a [ValueError] when that range is empty. *)
Definition randrange (n r : Z) : option Z :=
  if bool_decide (0 < n) then Some (r mod n) else None.

(** The loop of lines 27-32 on the pair [(self.mines, self.board)]; each
    turn takes the two random numbers of one element of [draws]. *)
Fixpoint place (height width mines : Z) (draws : list (Z * Z))
    (st : gset cell * list (list bool)) : result (gset cell * list (list bool)) :=
  if bool_decide (Z.of_nat (size st.1) = mines) then Returns st
  else
    match draws with
    | [] => Running
    | r :: draws' =>
        match randrange height r.1 with
        | None => ValueError
        | Some i =>
            match randrange width r.2 with
            | None => ValueError
            | Some j =>
                match get st.2 i j with
                | None => IndexError
                | Some true => place height width mines draws' st
                | Some false =>
                    match set_true st.2 i j with
                    | None => IndexError
                    | Some board' =>
                        place height width mines draws' (st.1 ∪ {[ (i, j) ]}, board')
                    end
                end
            end
        end
    end.

(** [Minesweeper(height, width, mines)] *)
Definition init (height width mines : Z) (draws : list (Z * Z)) : result t :=
  match place height width mines draws (∅, empty_board height width) with
  | Returns st => Returns (mk height width st.1 st.2 ∅)
  | ValueError => ValueError
  | IndexError => IndexError
  | Running => Running
  end.

(** [is_mine(cell)]; [None] is the [IndexError]. *)
Definition is_mine (g : t) (c : cell) : option bool := get (board g) c.1 c.2.

(** [nearby_mines(cell)]; the loops visit the square around [cell]. *)
Definition nearby_mines (g : t) (c : cell) : option Z :=
  foldl (λ count d,
           n ← count;
           if bool_decide (d = c) then Some n
           else if bool_decide (0 ≤ d.1 < height g) && bool_decide (0 ≤ d.2 < width g)
                then b ← get (board g) d.1 d.2; Some (if b : bool then n + 1 else n)
                else Some n)
        (Some 0) (Minesweeper.square c).

Definition won (g : t) : bool := bool_decide (mines_found g = mines g).

(** ["--" * width + "-"] *)
Definition rule (width : Z) : string :=
  String.concat "" (replicate (Z.to_nat width) "--") +:+ "-".

(** The text of row [i], lines 44-49. *)
Definition print_row (g : t) (i : Z) : option string :=
  line ← foldl (λ line j, s ← line; b ← get (board g) i j;
                          Some (s +:+ (if b : bool then "|X" else "| ")))
               (Some "") (seqZ 0 (width g));
  Some (line +:+ "|").

(** [print()]: the lines written, in order. *)
Definition print (g : t) : option (list string) :=
  lines ← foldl (λ lines i, ls ← lines; row ← print_row g i;
                            Some (ls ++ [rule (width g); row]))
                (Some []) (seqZ 0 (height g));
  Some (lines ++ [rule (width g)]).

(** The layout of the mines, as the game above sees the board. *)
Definition layout (g : t) : Minesweeper.t :=
  Minesweeper.mk (height g) (width g) (mines g).

End Board.


(** ** Cells on the board *)
Definition on_board (h w : Z) (c : cell) : Prop := 0 ≤ c.1 < h ∧ 0 ≤ c.2 < w.

(** Every cell that the AI has recorded lies on the board of [h] rows and
    [w] columns. *)
Record within (h w : Z) (ai : MinesweeperAI.t) : Prop := {
  within_height : MinesweeperAI.height ai = h;
  within_width : MinesweeperAI.width ai = w;
  within_moves : ∀ c, c ∈ MinesweeperAI.moves_made ai → on_board h w c;
  within_safes : ∀ c, c ∈ MinesweeperAI.safes ai → on_board h w c;
  within_mines : ∀ c, c ∈ MinesweeperAI.mines ai → on_board h w c;
  within_knowledge :
    Forall (λ s, ∀ c, c ∈ Sentence.cells s → on_board h w c) (MinesweeperAI.knowledge ai)
}.

(** ** Calls of the methods

    [call ai ai']: one call of a method of the AI that changes its state,
    with any arguments, takes [ai] to [ai']. *)
Inductive call `{SetOrder} (ai ai' : MinesweeperAI.t) : Prop :=
| call_mark_mine fuel c :
    MinesweeperAI.mark_mine fuel c ai = Some ai' → call ai ai'
| call_mark_safe fuel c :
    MinesweeperAI.mark_safe fuel c ai = Some ai' → call ai ai'
| call_is_conclusive fuel s b :
    MinesweeperAI.is_conclusive fuel s ai = Some (b, ai') → call ai ai'
| call_conclude_infer_integrate fuel s :
    MinesweeperAI.conclude_infer_integrate fuel s ai = Some ai' → call ai ai'
| call_add_knowledge fuel c count :
    MinesweeperAI.add_knowledge fuel c count ai = Some ai' → call ai ai'.

(** The cells that the random numbers [draws] select on a board of [h]
    rows and [w] columns. *)
Definition drawn (h w : Z) (draws : list (Z * Z)) : list cell :=
  (λ r, (r.1 `mod` h, r.2 `mod` w)) <$> draws.

(** The matrix has [h] rows of [w] entries and is true exactly at the
    cells of the set, which are cells of the board. *)
Record synced (h w : Z) (st : gset cell * list (list bool)) : Prop := {
  synced_rows : length st.2 = Z.to_nat h;
  synced_cols : Forall (λ row, length row = Z.to_nat w) st.2;
  synced_get : ∀ c, on_board h w c →
                    Board.get st.2 c.1 c.2 = Some (bool_decide (c ∈ st.1));
  synced_on : ∀ c, c ∈ st.1 → on_board h w c
}.

(** * Properties *)

(** ** Loops and lists *)

Lemma for_each_inv {A S} (body : A → S → option S) (J : S → Prop) (R : A → Prop) l :
  (∀ a s s', R a → J s → body a s = Some s' → J s') →
  ∀ s s', Forall R l → J s → for_each body l s = Some s' → J s'.
Proof.
  intros Hbody. induction l as [|a l IH]; intros s s' HR HJ Hrun; simpl in Hrun.
  - by simplify_eq.
  - apply Forall_cons in HR as [Ha Hl].
    destruct (body a s) as [s1|] eqn:E; [|done]. eauto.
Qed.

(** After [sentence] has been changed in place at position [i] and
    [list.remove] has dropped the first sentence equal to it, every sentence
    left was in the list before, up to equality. *)
Lemma list_remove_insert_elem_of {A} `{EqDecision A} (x y : A) l i :
  x ∈ list_remove y (<[i := y]> l) → x ∈ l.
Proof.
  revert i. induction l as [|z l IH]; intros i; [by destruct i|].
  destruct i as [|i]; simpl.
  - rewrite decide_True by done. set_solver.
  - case_decide as Hz.
    + subst z. intros Hx. destruct (decide (x = y)) as [->|Hne]; [set_solver|].
      apply list_elem_of_lookup in Hx as [j Hj].
      destruct (decide (i = j)) as [->|Hij].
      * apply list_lookup_insert_Some in Hj. naive_solver.
      * rewrite list_lookup_insert_ne in Hj by done.
        apply list_elem_of_further, list_elem_of_lookup. eauto.
    + rewrite !elem_of_cons. naive_solver.
Qed.

Lemma elem_of_set_iter `{SetOrder} (X : gset cell) c : c ∈ set_iter X ↔ c ∈ X.
Proof. by rewrite set_iter_perm, elem_of_elements. Qed.

(** ** Unfolding the methods *)
Section Unfold.
Import MinesweeperAI.
Context {order : SetOrder}.

Lemma mark_loop_S prune fuel c i ai :
  mark_loop prune (S fuel) c i ai =
  match knowledge ai !! i with
  | None => Some ai
  | Some sentence =>
      match prune sentence c with
      | (sentence', true) =>
          match conclude_infer_integrate fuel sentence'
                  (set_knowledge ai
                     (list_remove sentence' (<[i := sentence']> (knowledge ai)))) with
          | Some ai' => mark_loop prune fuel c (S i) ai'
          | None => None
          end
      | (_, false) => mark_loop prune fuel c (S i) ai
      end
  end.
Proof. reflexivity. Qed.

Lemma conclude_infer_integrate_S fuel sentence ai :
  conclude_infer_integrate (S fuel) sentence ai =
  if bool_decide (sentence ∈ knowledge ai) || Sentence.is_empty sentence
  then Some ai
  else match is_conclusive fuel sentence ai with
       | None => None
       | Some (true, ai') => Some ai'
       | Some (false, ai') =>
           for_each (conclude_infer_integrate fuel)
                    (infer sentence (knowledge ai') (knowledge ai') [])
                    (set_knowledge ai' (knowledge ai' ++ [sentence]))
       end.
Proof. reflexivity. Qed.

(** What [is_conclusive] did when it answers [True] or [False]. *)
Lemma is_conclusive_true fuel s ai ai' :
  is_conclusive fuel s ai = Some (true, ai') →
  (Sentence.count s = 0 ∧
   for_each (mark_safe fuel) (set_iter (Sentence.cells s)) ai = Some ai') ∨
  (Sentence.count s = Sentence.len s ∧
   for_each (mark_mine fuel) (set_iter (Sentence.cells s)) ai = Some ai').
Proof.
  unfold is_conclusive, is_conclusive_with, Sentence.known_safes, Sentence.known_mines.
  intros Hc. repeat (case_bool_decide || case_match || simplify_eq /=); eauto.
Qed.

Lemma is_conclusive_false fuel s ai ai' :
  is_conclusive fuel s ai = Some (false, ai') →
  ai' = ai ∧ truthy (Sentence.known_safes s) = false
           ∧ truthy (Sentence.known_mines s) = false.
Proof.
  unfold is_conclusive, is_conclusive_with. intros Hc.
  repeat (case_match || simplify_eq /=); eauto.
Qed.

End Unfold.

(** Reduce record projections and the list loops, and nothing inside the
    cell sets. *)
Ltac fields :=
  cbn [Sentence.cells Sentence.count
       MinesweeperAI.height MinesweeperAI.width MinesweeperAI.moves_made
       MinesweeperAI.mines MinesweeperAI.safes MinesweeperAI.knowledge
       MinesweeperAI.set_knowledge MinesweeperAI.add_mine MinesweeperAI.add_safe
       MinesweeperAI.add_move MinesweeperAI.infer for_each list_remove
       fst snd negb andb orb app
       lookup list_lookup insert list_insert].

(** ** Evaluating the methods case by case *)
Section Eval.
Import MinesweeperAI.
Context {order : SetOrder}.

Lemma is_empty_false s : Sentence.cells s ≠ ∅ → Sentence.is_empty s = false.
Proof.
  intros Hne. apply bool_decide_eq_false. unfold Sentence.len.
  intros Hz. apply Hne. apply leibniz_equiv, size_empty_iff. lia.
Qed.

Lemma is_empty_false_inv s : Sentence.is_empty s = false → Sentence.cells s ≠ ∅.
Proof.
  intros He%bool_decide_eq_false Heq. apply He. unfold Sentence.len.
  by rewrite Heq, size_empty.
Qed.

(** Two sentences differ when a cell is in one and not in the other. *)
Lemma different_cells c s1 s2 :
  c ∉ Sentence.cells s1 → c ∈ Sentence.cells s2 → s1 ≠ s2.
Proof. intros H1 H2 ->. done. Qed.

Lemma set_iter_singleton c : set_iter {[c]} = [c].
Proof. apply Permutation_singleton_r. by rewrite set_iter_perm, elements_singleton. Qed.

Lemma conclude_infer_integrate_skip fuel s ai :
  s ∈ knowledge ai ∨ Sentence.is_empty s = true →
  conclude_infer_integrate (S fuel) s ai = Some ai.
Proof.
  intros Hs. rewrite conclude_infer_integrate_S.
  destruct Hs as [Hs| ->]; [by rewrite bool_decide_true|by rewrite orb_true_r].
Qed.

Lemma conclude_infer_integrate_safes fuel s ai :
  s ∉ knowledge ai → Sentence.is_empty s = false → Sentence.count s = 0 →
  conclude_infer_integrate (S fuel) s ai =
  for_each (mark_safe fuel) (set_iter (Sentence.cells s)) ai.
Proof.
  intros Hs He Hz. rewrite conclude_infer_integrate_S.
  rewrite bool_decide_false, He by done. simpl.
  unfold is_conclusive, is_conclusive_with, Sentence.known_safes.
  rewrite bool_decide_true by done. simpl.
  rewrite bool_decide_false by by apply is_empty_false_inv. simpl.
  by destruct (for_each _ _ _).
Qed.

Lemma conclude_infer_integrate_mines fuel s ai :
  s ∉ knowledge ai → Sentence.is_empty s = false →
  Sentence.count s ≠ 0 → Sentence.count s = Sentence.len s →
  conclude_infer_integrate (S fuel) s ai =
  for_each (mark_mine fuel) (set_iter (Sentence.cells s)) ai.
Proof.
  intros Hs He Hz Hlen. rewrite conclude_infer_integrate_S.
  rewrite bool_decide_false, He by done. simpl.
  unfold is_conclusive, is_conclusive_with, Sentence.known_safes, Sentence.known_mines.
  rewrite (bool_decide_false (_ = 0)) by done. simpl.
  rewrite bool_decide_true by done. simpl.
  rewrite bool_decide_false by by apply is_empty_false_inv. simpl.
  by destruct (for_each _ _ _).
Qed.

Lemma resolvable_false s :
  Sentence.is_empty s = false →
  resolvable s = false ↔ Sentence.count s ≠ 0 ∧ Sentence.count s ≠ Sentence.len s.
Proof.
  intros He%is_empty_false_inv.
  unfold resolvable, Sentence.known_safes, Sentence.known_mines.
  rewrite orb_false_iff.
  repeat case_bool_decide; simpl; rewrite ?bool_decide_false by done; naive_solver.
Qed.

Lemma conclude_infer_integrate_unresolved fuel s ai :
  s ∉ knowledge ai → unresolved s →
  conclude_infer_integrate (S fuel) s ai =
  for_each (conclude_infer_integrate fuel)
           (infer s (knowledge ai) (knowledge ai) [])
           (set_knowledge ai (knowledge ai ++ [s])).
Proof.
  intros Hs [He [Hsafes Hmines]%orb_false_iff]. rewrite conclude_infer_integrate_S.
  rewrite bool_decide_false, He by done. simpl.
  unfold is_conclusive, is_conclusive_with. by rewrite Hsafes, Hmines.
Qed.

Lemma mark_loop_end prune fuel c i ai :
  knowledge ai !! i = None → mark_loop prune (S fuel) c i ai = Some ai.
Proof. intros Hi. by rewrite mark_loop_S, Hi. Qed.

Lemma mark_loop_next prune fuel c i ai s :
  knowledge ai !! i = Some s → (prune s c).2 = false →
  mark_loop prune (S fuel) c i ai = mark_loop prune fuel c (S i) ai.
Proof.
  intros Hi Hp. rewrite mark_loop_S, Hi.
  destruct (prune s c) as [s' b]. simpl in Hp. by subst b.
Qed.

Lemma mark_loop_prune prune fuel c i ai s s' :
  knowledge ai !! i = Some s → prune s c = (s', true) →
  mark_loop prune (S fuel) c i ai =
  match conclude_infer_integrate fuel s'
          (set_knowledge ai (list_remove s' (<[i := s']> (knowledge ai)))) with
  | Some ai' => mark_loop prune fuel c (S i) ai'
  | None => None
  end.
Proof. intros Hi Hp. by rewrite mark_loop_S, Hi, Hp. Qed.

End Eval.

(** ** One induction for every invariant of the knowledge base

    [I] is a property of the whole state, [P] of the sentences held in
    [knowledge], [Q] of the sentences handed to [conclude_infer_integrate],
    [Rs] and [Rm] of the cells handed to [mark_safe] and [mark_mine]. *)
Section Invariant.
Import MinesweeperAI.
Context {order : SetOrder}.
Variable I : t → Prop.
Variables P Q : Sentence.t → Prop.
Variables Rs Rm : cell → Prop.

Hypothesis I_add_mine : ∀ ai c, I ai → Rm c → I (add_mine ai c).
Hypothesis I_add_safe : ∀ ai c, I ai → Rs c → I (add_safe ai c).
Hypothesis I_drop : ∀ ai kn,
  I ai → (∀ x, x ∈ kn → x ∈ knowledge ai) → I (set_knowledge ai kn).
Hypothesis I_append : ∀ ai s,
  I ai → P s → s ∉ knowledge ai → I (set_knowledge ai (knowledge ai ++ [s])).
Hypothesis I_held : ∀ ai s, I ai → s ∈ knowledge ai → P s.
Hypothesis Q_safes : ∀ s c, Q s → Sentence.count s = 0 → c ∈ Sentence.cells s → Rs c.
Hypothesis Q_mines : ∀ s c,
  Q s → Sentence.count s = Sentence.len s → c ∈ Sentence.cells s → Rm c.
Hypothesis Q_inference : ∀ s o inf, Q s → P o → inference s o = Some inf → Q inf.
Hypothesis Q_append : ∀ s,
  Q s → Sentence.is_empty s = false →
  truthy (Sentence.known_safes s) = false →
  truthy (Sentence.known_mines s) = false → P s.
Hypothesis Q_mark_mine : ∀ s c,
  P s → Rm c → c ∈ Sentence.cells s → Q (Sentence.mark_mine s c).1.
Hypothesis Q_mark_safe : ∀ s c,
  P s → Rs c → c ∈ Sentence.cells s → Q (Sentence.mark_safe s c).1.

Lemma infer_Forall s kn others inferences :
  Q s → Forall P others → Forall Q inferences →
  Forall Q (infer s kn others inferences).
Proof.
  intros Hs Ho. revert inferences.
  induction Ho as [|o others Hp Ho IH]; intros inferences Hi; simpl; [done|].
  destruct (inference s o) as [inf|] eqn:E; [|by apply IH].
  case_match; apply IH; [|done].
  apply Forall_app; split; [done|]. apply Forall_singleton. eauto.
Qed.

Lemma prune_mine_ok c s s' :
  Rm c → P s → Sentence.mark_mine s c = (s', true) → Q s'.
Proof.
  intros Hc Hs Hp. pose proof (Q_mark_mine s c Hs Hc) as HQ.
  unfold Sentence.mark_mine in *. case_bool_decide; simplify_eq /=. by apply HQ.
Qed.

Lemma prune_safe_ok c s s' :
  Rs c → P s → Sentence.mark_safe s c = (s', true) → Q s'.
Proof.
  intros Hc Hs Hp. pose proof (Q_mark_safe s c Hs Hc) as HQ.
  unfold Sentence.mark_safe in *. case_bool_decide; simplify_eq /=. by apply HQ.
Qed.

Lemma propagation_inv fuel :
  (∀ prune c i ai ai',
      (∀ s s', P s → prune s c = (s', true) → Q s') →
      I ai → mark_loop prune fuel c i ai = Some ai' → I ai') ∧
  (∀ s ai ai', Q s → I ai → conclude_infer_integrate fuel s ai = Some ai' → I ai').
Proof.
  induction fuel as [|fuel [IHm IHc]]; [by split|]. split.
  - intros prune c i ai ai' Hprune Hai. rewrite mark_loop_S.
    destruct (knowledge ai !! i) as [s|] eqn:Hi; [|by intros [= <-]].
    destruct (prune s c) as [s' [|]] eqn:Hp; [|by eauto].
    destruct (conclude_infer_integrate fuel s' _) as [ai1|] eqn:Hc; [|done].
    apply IHm; [done|]. eapply IHc; [| |exact Hc].
    + eapply Hprune; [|done]. eapply I_held; [done|].
      apply list_elem_of_lookup; eauto.
    + apply I_drop; [done|]. intros x. apply list_remove_insert_elem_of.
  - intros s ai ai' Hs Hai. rewrite conclude_infer_integrate_S.
    destruct (bool_decide (s ∈ knowledge ai)) eqn:Hin; simpl; [by intros [= <-]|].
    destruct (Sentence.is_empty s) eqn:He; [by intros [= <-]|].
    apply bool_decide_eq_false in Hin.
    destruct (is_conclusive fuel s ai) as [[[|] ai1]|] eqn:Hconc; [| |done].
    + intros [= <-]. apply is_conclusive_true in Hconc as [[H0 Hrun]|[H0 Hrun]].
      * eapply (for_each_inv _ I Rs); [| |done|exact Hrun].
        -- intros c a a' Hc Ha. apply IHm; [|by apply I_add_safe].
           intros; by eapply prune_safe_ok.
        -- apply Forall_forall. intros c Hc%elem_of_set_iter. eauto.
      * eapply (for_each_inv _ I Rm); [| |done|exact Hrun].
        -- intros c a a' Hc Ha. apply IHm; [|by apply I_add_mine].
           intros; by eapply prune_mine_ok.
        -- apply Forall_forall. intros c Hc%elem_of_set_iter. eauto.
    + apply is_conclusive_false in Hconc as (-> & Hsafes & Hmines).
      apply (for_each_inv _ I Q); [by eauto| |by eauto].
      apply infer_Forall; [done| |done].
      apply Forall_forall. eauto.
Qed.

Lemma mark_mine_inv fuel c ai ai' :
  Rm c → I ai → mark_mine fuel c ai = Some ai' → I ai'.
Proof.
  intros Hc Hai. apply (proj1 (propagation_inv fuel)); [|by apply I_add_mine].
  intros; by eapply prune_mine_ok.
Qed.

Lemma mark_safe_inv fuel c ai ai' :
  Rs c → I ai → mark_safe fuel c ai = Some ai' → I ai'.
Proof.
  intros Hc Hai. apply (proj1 (propagation_inv fuel)); [|by apply I_add_safe].
  intros; by eapply prune_safe_ok.
Qed.

Lemma conclude_infer_integrate_inv fuel s ai ai' :
  Q s → I ai → conclude_infer_integrate fuel s ai = Some ai' → I ai'.
Proof. apply (proj2 (propagation_inv fuel)). Qed.

End Invariant.

(** ** Truth of the knowledge base against the real board *)

Section Holds.
Variable M : gset cell.
Implicit Types (s : Sentence.t) (c : cell).

Lemma holds_bounds s : holds M s → 0 ≤ Sentence.count s ≤ Sentence.len s.
Proof.
  unfold holds, Sentence.len. intros ->.
  assert (size (Sentence.cells s ∩ M) ≤ size (Sentence.cells s))%nat
    by (apply subseteq_size; set_solver).
  lia.
Qed.

Lemma holds_known_safes s c :
  holds M s → Sentence.count s = 0 → c ∈ Sentence.cells s → c ∉ M.
Proof.
  unfold holds. intros -> Hz Hc Hm.
  assert (size (Sentence.cells s ∩ M) = 0)%nat as Hsz by lia.
  apply size_empty_iff in Hsz. set_solver.
Qed.

Lemma holds_known_mines s c :
  holds M s → Sentence.count s = Sentence.len s → c ∈ Sentence.cells s → c ∈ M.
Proof.
  unfold holds, Sentence.len. intros -> Hz Hc.
  assert (Sentence.cells s ∩ M = Sentence.cells s) as Heq.
  { apply set_subseteq_size_eq; [set_solver|lia]. }
  set_solver.
Qed.

Lemma holds_mark_mine s c :
  holds M s → c ∈ M → c ∈ Sentence.cells s → holds M (Sentence.mark_mine s c).1.
Proof.
  unfold holds, Sentence.mark_mine. intros Hs Hm Hc.
  rewrite bool_decide_true by done. simpl.
  replace ((Sentence.cells s ∖ {[c]}) ∩ M) with ((Sentence.cells s ∩ M) ∖ {[c]})
    by set_solver.
  rewrite size_difference by set_solver. rewrite size_singleton.
  assert (size (Sentence.cells s ∩ M) ≠ 0)%nat.
  { intros Hsz%size_empty_iff. set_solver. }
  lia.
Qed.

Lemma holds_mark_safe s c :
  holds M s → c ∉ M → c ∈ Sentence.cells s → holds M (Sentence.mark_safe s c).1.
Proof.
  unfold holds, Sentence.mark_safe. intros Hs Hm Hc.
  rewrite bool_decide_true by done. simpl.
  replace ((Sentence.cells s ∖ {[c]}) ∩ M) with (Sentence.cells s ∩ M) by set_solver.
  done.
Qed.

Lemma holds_difference (X Y : gset cell) :
  X ⊆ Y →
  Z.of_nat (size ((Y ∖ X) ∩ M)) = Z.of_nat (size (Y ∩ M)) - Z.of_nat (size (X ∩ M)).
Proof.
  intros Hsub.
  replace ((Y ∖ X) ∩ M) with ((Y ∩ M) ∖ (X ∩ M)) by set_solver.
  rewrite size_difference by set_solver.
  assert (size (X ∩ M) ≤ size (Y ∩ M))%nat by (apply subseteq_size; set_solver).
  lia.
Qed.

(** The subset rule is sound. *)
Lemma holds_inference s o inf :
  holds M s → holds M o → MinesweeperAI.inference s o = Some inf → holds M inf.
Proof.
  unfold holds, MinesweeperAI.inference. intros Hs Ho Hinf.
  repeat case_bool_decide; simplify_eq /=; rewrite holds_difference by done; lia.
Qed.

End Holds.

(** ** The sentence built by [add_knowledge] *)
Section NewSentence.
Import MinesweeperAI.

Lemma square_NoDup c : NoDup (Minesweeper.square c).
Proof.
  destruct c as [i j]. unfold Minesweeper.square. simpl.
  repeat (apply NoDup_cons_2;
          [rewrite ?not_elem_of_cons;
           repeat split; try (intros Heq; injection Heq; lia);
           apply not_elem_of_nil|]).
  apply NoDup_nil_2.
Qed.

Lemma filter_grid {A B} (P1 : A → Prop) (P2 : B → Prop) (P : A * B → Prop)
    `{∀ x, Decision (P1 x)} `{∀ y, Decision (P2 y)} `{∀ d, Decision (P d)}
    (rows : list A) (cols : list B) :
  (∀ i j, P (i, j) ↔ P1 i ∧ P2 j) →
  filter P (i ← rows; j ← cols; [(i, j)]) =
  i ← filter P1 rows; j ← filter P2 cols; [(i, j)].
Proof.
  intros HP. induction rows as [|i rows IH]; [done|].
  rewrite bind_cons, filter_app, IH. clear IH.
  assert (filter P (j ← cols; [(i, j)]) =
          if decide (P1 i) then j ← filter P2 cols; [(i, j)] else []) as ->.
  { induction cols as [|j cols IH]; [by case_decide|].
    rewrite bind_cons. simpl. rewrite filter_cons, IH.
    destruct (decide (P1 i)), (decide (P2 j)), (decide (P (i, j))) as [Hp|Hp];
      rewrite ?filter_cons_True, ?filter_cons_False by done; try done;
      rewrite HP in Hp; tauto. }
  rewrite filter_cons. by case_decide.
Qed.

(** Both classes look at the same cells when they agree on the size of
    the board. *)
Lemma window_square ai g c :
  height ai = Minesweeper.height g → width ai = Minesweeper.width g →
  window ai c = filter (λ d, Minesweeper.in_bounds g d = true) (Minesweeper.square c).
Proof.
  intros Hh Hw. unfold window, Minesweeper.square. symmetry.
  apply (filter_grid (λ i, 0 ≤ i < height ai) (λ j, 0 ≤ j < width ai)).
  intros i j. unfold Minesweeper.in_bounds. simpl.
  rewrite andb_true_iff, !bool_decide_eq_true. by rewrite Hh, Hw.
Qed.

Lemma window_NoDup ai c : NoDup (window ai c).
Proof.
  rewrite (window_square ai (Minesweeper.mk (height ai) (width ai) ∅)) by done.
  apply NoDup_filter, square_NoDup.
Qed.

Lemma foldl_visit ai l X n :
  foldl (visit ai) (X, n) l =
  (X ∪ list_to_set (filter (λ d, (d ∉ safes ai) ∧ (d ∉ mines ai)) l),
   n - Z.of_nat (length (filter (λ d, (d ∉ safes ai) ∧ (d ∈ mines ai)) l))).
Proof.
  revert X n. induction l as [|d l IH]; intros X n; simpl.
  - f_equal; [set_solver|lia].
  - unfold visit at 2. rewrite !filter_cons. simpl.
    repeat (case_bool_decide || case_decide); try tauto;
      rewrite IH; simpl; f_equal; try set_solver; lia.
Qed.

(** The cells and the count of the new sentence, in closed form. *)
Lemma new_sentence_cells ai c count :
  Sentence.cells (new_sentence ai c count) =
  list_to_set (filter (λ d, (d ∉ safes ai) ∧ (d ∉ mines ai)) (window ai c)).
Proof. unfold new_sentence. rewrite foldl_visit. simpl. set_solver. Qed.

Lemma new_sentence_count ai c count :
  Sentence.count (new_sentence ai c count) =
  count - Z.of_nat (length (filter (λ d, (d ∉ safes ai) ∧ (d ∈ mines ai)) (window ai c))).
Proof. unfold new_sentence. by rewrite foldl_visit. Qed.

Lemma nearby_mines_count g c :
  Minesweeper.nearby_mines g c =
  Z.of_nat (length (filter (λ d, d ≠ c ∧ d ∈ Minesweeper.mines g)
              (filter (λ d, Minesweeper.in_bounds g d = true) (Minesweeper.square c)))).
Proof.
  unfold Minesweeper.nearby_mines.
  generalize (Minesweeper.square c). intros l.
  change (Z.of_nat ?x) with (0 + Z.of_nat x) at 1.
  assert (∀ n, foldl
    (λ count d, if bool_decide (d = c) then count
                else if Minesweeper.in_bounds g d && Minesweeper.is_mine g d
                     then count + 1 else count) n l =
    n + Z.of_nat (length (filter (λ d, d ≠ c ∧ d ∈ Minesweeper.mines g)
              (filter (λ d, Minesweeper.in_bounds g d = true) l)))) as Hgen.
  { induction l as [|d l IH]; intros n; simpl; [lia|].
    rewrite IH. rewrite (filter_cons _ d).
    unfold Minesweeper.is_mine.
    destruct (Minesweeper.in_bounds g d) eqn:Hb; simpl.
    - rewrite filter_cons.
      repeat (case_bool_decide || case_decide); simpl; try lia; tauto.
    - by case_bool_decide. }
  rewrite Hgen. lia.
Qed.

Lemma length_filter_split {A} (P1 P2 P3 : A → Prop)
    `{∀ x, Decision (P1 x)} `{∀ x, Decision (P2 x)} `{∀ x, Decision (P3 x)} l :
  (∀ x, P1 x ↔ P2 x ∨ P3 x) → (∀ x, P2 x → P3 x → False) →
  length (filter P1 l) = (length (filter P2 l) + length (filter P3 l))%nat.
Proof.
  intros Hor Hdisj. induction l as [|x l IH]; [done|].
  rewrite !filter_cons.
  destruct (decide (P1 x)) as [Hx1|Hx1], (decide (P2 x)) as [Hx2|Hx2],
           (decide (P3 x)) as [Hx3|Hx3]; simpl; rewrite ?IH; try lia;
    rewrite Hor in Hx1; exfalso; naive_solver.
Qed.

Lemma size_filter_mines (M : gset cell) (U : cell → Prop) `{∀ d, Decision (U d)} l :
  NoDup l →
  size (list_to_set (filter U l) ∩ M : gset cell) =
  length (filter (λ d, d ∈ M ∧ U d) l).
Proof.
  intros Hl. rewrite <-list_filter_filter.
  rewrite <-(size_list_to_set (C := gset cell)) by by do 2 apply NoDup_filter.
  f_equal. apply set_eq. intros d.
  rewrite elem_of_intersection, !elem_of_list_to_set, !list_elem_of_filter. tauto.
Qed.

End NewSentence.

(** ** A game played by the contract

    The caller reveals cells of a board [g] that are not mines and reports
    the number [nearby_mines] of each.  [sound g ai] says that everything the
    AI believes is true of [g]. *)
Section Soundness.
Import MinesweeperAI.
Context {order : SetOrder}.
Variable g : Minesweeper.t.

Lemma sound_init :
  sound g (init (Minesweeper.height g) (Minesweeper.width g)).
Proof. by split. Qed.

Lemma sound_add_move ai c : sound g ai → sound g (add_move ai c).
Proof. by intros []. Qed.

Lemma new_sentence_holds ai c :
  sound g ai → c ∉ Minesweeper.mines g →
  holds (Minesweeper.mines g) (new_sentence ai c (Minesweeper.nearby_mines g c)).
Proof.
  intros [Hh Hw Hm Hs _] Hc. unfold holds.
  rewrite new_sentence_cells, new_sentence_count, nearby_mines_count.
  rewrite size_filter_mines by apply window_NoDup.
  rewrite <-(window_square ai g c) by done.
  rewrite (length_filter_split _
             (λ d, (d ∉ safes ai) ∧ (d ∈ mines ai))
             (λ d, d ∈ Minesweeper.mines g ∧ (d ∉ safes ai) ∧ (d ∉ mines ai))).
  - lia.
  - intros d. split.
    + intros [Hdc Hd]. destruct (decide (d ∈ mines ai)); set_solver.
    + intros [[? ?]|(? & ? & ?)]; split; set_solver.
  - intros d [? ?] (? & ? & ?). done.
Qed.

(** The instance of the general induction: cells marked safe are not
    mines of [g], cells marked as mines are, and every sentence held or
    integrated is true of [g]. *)
Lemma sound_propagation fuel :
  (∀ c ai ai', c ∈ Minesweeper.mines g → sound g ai →
               mark_mine fuel c ai = Some ai' → sound g ai') ∧
  (∀ c ai ai', c ∉ Minesweeper.mines g → sound g ai →
               mark_safe fuel c ai = Some ai' → sound g ai') ∧
  (∀ s ai ai', holds (Minesweeper.mines g) s → sound g ai →
               conclude_infer_integrate fuel s ai = Some ai' → sound g ai').
Proof.
  pose (M := Minesweeper.mines g).
  assert (∀ ai c, sound g ai → c ∈ M → sound g (add_mine ai c)) as Hadd_mine.
  { intros ai c [] Hc. split; simpl; try done. set_solver. }
  assert (∀ ai c, sound g ai → c ∉ M → sound g (add_safe ai c)) as Hadd_safe.
  { intros ai c [] Hc. split; simpl; try done. set_solver. }
  assert (∀ ai kn, sound g ai → (∀ x, x ∈ kn → x ∈ knowledge ai) →
                   sound g (set_knowledge ai kn)) as Hdrop.
  { intros ai kn [? ? ? ? Hk] Hsub. split; simpl; try done.
    rewrite Forall_forall in Hk |- *. eauto. }
  assert (∀ ai s, sound g ai → holds M s → s ∉ knowledge ai →
                  sound g (set_knowledge ai (knowledge ai ++ [s]))) as Happend.
  { intros ai s [] Hs _. split; simpl; try done.
    apply Forall_app. split; [done|]. by apply Forall_singleton. }
  assert (∀ ai s, sound g ai → s ∈ knowledge ai → holds M s) as Hheld.
  { intros ai s [? ? ? ? Hk] Hs. rewrite Forall_forall in Hk. eauto. }
  split; [|split]; intros ? ai ai' ? Hai Hrun.
  - eapply (mark_mine_inv (sound g) (holds M) (holds M) (λ c, c ∉ M) (λ c, c ∈ M));
      eauto using holds_known_safes, holds_known_mines, holds_inference,
                  holds_mark_mine, holds_mark_safe.
  - eapply (mark_safe_inv (sound g) (holds M) (holds M) (λ c, c ∉ M) (λ c, c ∈ M));
      eauto using holds_known_safes, holds_known_mines, holds_inference,
                  holds_mark_mine, holds_mark_safe.
  - eapply (conclude_infer_integrate_inv (sound g) (holds M) (holds M)
              (λ c, c ∉ M) (λ c, c ∈ M));
      eauto using holds_known_safes, holds_known_mines, holds_inference,
                  holds_mark_mine, holds_mark_safe.
Qed.

Lemma sound_add_knowledge fuel c ai ai' :
  c ∉ Minesweeper.mines g → sound g ai →
  add_knowledge fuel c (Minesweeper.nearby_mines g c) ai = Some ai' → sound g ai'.
Proof.
  intros Hc Hai. unfold add_knowledge.
  destruct (mark_safe fuel c (add_move ai c)) as [ai1|] eqn:Hmark; [|done].
  assert (sound g ai1) as Hai1.
  { eapply (proj1 (proj2 (sound_propagation fuel))); [done| |done].
    by apply sound_add_move. }
  apply (proj2 (proj2 (sound_propagation fuel))); [|done].
  by apply new_sentence_holds.
Qed.

Lemma reachable_sound ai : reachable g ai → sound g ai.
Proof.
  induction 1 as [|fuel c ai ai' _ IH _ Hc Hrun|fuel c ai ai' _ IH Hc Hrun
                  |fuel c ai ai' _ IH Hc Hrun|fuel s ai ai' _ IH Hs Hrun
                  |i c s ai _ IH Hc Hi Hin|i c s ai _ IH Hc Hi Hin];
    unfold Minesweeper.is_mine in *;
    try (apply bool_decide_eq_false in Hc); try (apply bool_decide_eq_true in Hc).
  - apply sound_init.
  - by eapply sound_add_knowledge.
  - by eapply (proj1 (proj2 (sound_propagation fuel))).
  - by eapply (proj1 (sound_propagation fuel)).
  - by eapply (proj2 (proj2 (sound_propagation fuel))).
  - destruct IH as [? ? ? ? Hk]. split; simpl; try done.
    apply Forall_insert; [done|]. apply holds_mark_safe; [|done..].
    rewrite Forall_forall in Hk. apply Hk, list_elem_of_lookup. eauto.
  - destruct IH as [? ? ? ? Hk]. split; simpl; try done.
    apply Forall_insert; [done|]. apply holds_mark_mine; [|done..].
    rewrite Forall_forall in Hk. apply Hk, list_elem_of_lookup. eauto.
Qed.

End Soundness.


(** ** Only unresolved sentences are held

    Whatever is appended to [knowledge] has passed the two filters, and a
    sentence pruned in place stays only when an equal one was there. *)
Section Unresolved.
Import MinesweeperAI.
Context {order : SetOrder}.

Lemma unresolved_propagation fuel s ai ai' :
  Forall unresolved (knowledge ai) →
  conclude_infer_integrate fuel s ai = Some ai' →
  Forall unresolved (knowledge ai').
Proof.
  apply (conclude_infer_integrate_inv
           (λ ai, Forall unresolved (knowledge ai)) unresolved
           (λ _, True) (λ _, True) (λ _, True)); try done.
  - intros a kn Ha Hsub. simpl. rewrite Forall_forall in Ha |- *. eauto.
  - intros a x Ha Hx _. simpl. apply Forall_app. split; [done|]. by apply Forall_singleton.
  - intros a x Ha Hx. rewrite Forall_forall in Ha. eauto.
  - intros x _ He Hsafes Hmines. split; [done|]. unfold resolvable.
    by rewrite Hsafes, Hmines.
Qed.

(** A resolvable sentence that is not held never gets into [knowledge]. *)
Lemma resolvable_never_held fuel s x ai ai' :
  resolvable x = true → x ∉ knowledge ai →
  conclude_infer_integrate fuel s ai = Some ai' →
  x ∉ knowledge ai'.
Proof.
  intros Hx.
  apply (conclude_infer_integrate_inv
           (λ ai, x ∉ knowledge ai) (λ y, y ≠ x)
           (λ _, True) (λ _, True) (λ _, True)); try done.
  - intros a kn Ha Hsub Hin. by apply Ha, Hsub.
  - intros a y Ha Hy _. simpl. rewrite elem_of_app, list_elem_of_singleton. naive_solver.
  - intros a y Ha Hy ->. done.
  - intros y _ _ Hsafes Hmines ->. unfold resolvable in Hx.
    by rewrite Hsafes, Hmines in Hx.
Qed.

End Unresolved.

(** ** Games *)
Section Games.
Import MinesweeperAI.
Context {order : SetOrder}.

Lemma play_reachable g fuel cs ai ai' :
  Forall (λ c, Minesweeper.in_bounds g c = true ∧ Minesweeper.is_mine g c = false) cs →
  reachable g ai → play g fuel cs ai = Some ai' → reachable g ai'.
Proof.
  intros Hcs Hai. unfold play.
  apply (for_each_inv _ (reachable g)
           (λ c, Minesweeper.in_bounds g c = true ∧ Minesweeper.is_mine g c = false));
    [|done..].
  intros c a a' [Hb Hm] Ha Hrun. by eapply reachable_add_knowledge.
Qed.

End Games.

Lemma demo_play n :
  (n ≤ 3)%nat →
  @play elements_order demo_game 50 (take n [(0, 0); (0, 2); (0, 1)]) demo_start
  = Some (demo_state n).
Proof.
  intros Hn. destruct n as [|[|[|[|n]]]]; [by vm_compute..|lia].
Qed.

Lemma demo_reachable n : @reachable elements_order demo_game (demo_state n).
Proof.
  assert (∀ n, (n ≤ 3)%nat → @reachable elements_order demo_game (demo_state n)) as Hle.
  { intros m Hm. eapply (@play_reachable elements_order);
      [|apply (@reachable_init elements_order)|by apply demo_play].
    apply Forall_take. repeat constructor. }
  destruct (decide (n ≤ 3)%nat) as [|Hgt]; [by apply Hle|].
  replace (demo_state n) with (demo_state 3); [by apply Hle|].
  unfold demo_state. by rewrite !take_ge by (simpl; lia).
Qed.

(** ** The inference loop *)
Section Infer.
Import MinesweeperAI.

Lemma infer_acc s kn others acc x : x ∈ acc → x ∈ infer s kn others acc.
Proof.
  revert acc. induction others as [|o others IH]; intros acc Hx; [done|].
  cbn [infer]. destruct (inference s o); [|by apply IH].
  case_match; apply IH; [|done]. apply elem_of_app. by left.
Qed.

(** Every inference that can be drawn from a sentence of [others] is in the
    result, unless [knowledge] already holds it. *)
Lemma infer_elem s kn others acc o inf :
  o ∈ others → inference s o = Some inf →
  inf ∈ infer s kn others acc ∨ inf ∈ kn.
Proof.
  revert acc. induction others as [|o' others IH]; intros acc Ho Hinf.
  { by apply elem_of_nil in Ho. }
  apply elem_of_cons in Ho as [<-|Ho].
  - cbn [infer]. rewrite Hinf.
    destruct (bool_decide (inf ∈ acc)) eqn:Hacc; cbn [negb andb].
    { left. apply infer_acc. by apply bool_decide_eq_true in Hacc. }
    destruct (bool_decide (inf ∈ kn)) eqn:Hkn; cbn [negb].
    { right. by apply bool_decide_eq_true in Hkn. }
    left. apply infer_acc, elem_of_app. right. apply list_elem_of_here.
  - cbn [infer]. destruct (inference s o'); [|by apply IH].
    case_match; by apply IH.
Qed.

(** A property of every inference that can be drawn holds of the whole
    result. *)
Lemma infer_all (Q : Sentence.t → Prop) s kn others acc :
  (∀ o inf, o ∈ others → inference s o = Some inf → Q inf) →
  Forall Q acc → Forall Q (infer s kn others acc).
Proof.
  revert acc. induction others as [|o others IH]; intros acc HQ Hacc; [done|].
  assert (∀ o' inf, o' ∈ others → inference s o' = Some inf → Q inf) as HQ'.
  { intros o' inf Ho'. apply HQ. by apply list_elem_of_further. }
  cbn [infer]. destruct (inference s o) as [inf|] eqn:Hinf; [|by apply IH].
  case_match; apply IH; try done.
  apply Forall_app. split; [done|]. apply Forall_singleton.
  eapply HQ; [apply list_elem_of_here|done].
Qed.

(** A loop all of whose turns leave the state as it is. *)
Lemma for_each_same {A S} (body : A → S → option S) (l : list A) (s : S) :
  Forall (λ a, body a s = Some s) l → for_each body l s = Some s.
Proof.
  induction 1 as [|a l Ha _ IH]; [done|]. cbn [for_each]. by rewrite Ha.
Qed.

End Infer.

(** ** What the propagation leaves alone *)
Section Frame.
Import MinesweeperAI.
Context {order : SetOrder}.

Lemma grows_refl ai : grows ai ∅ ∅ ai.
Proof. split; try done; set_solver. Qed.

Lemma grows_inv ai0 X Y fuel :
  (∀ prune c i ai ai',
      grows ai0 X Y ai → mark_loop prune fuel c i ai = Some ai' → grows ai0 X Y ai') ∧
  (∀ s ai ai',
      grows ai0 X Y ai → conclude_infer_integrate fuel s ai = Some ai' →
      grows ai0 X Y ai').
Proof.
  destruct (propagation_inv (grows ai0 X Y) (λ _, True) (λ _, True) (λ _, True)
              (λ _, True)) with (fuel := fuel) as [Hm Hc]; try done.
  - intros ai c [] _. split; fields; try done. set_solver.
  - intros ai c [] _. split; fields; try done. set_solver.
  - by intros ai kn [] _.
  - by intros ai s [] _ _.
  - split; [|by eauto]. intros prune c i ai ai'. by apply Hm.
Qed.

Lemma mark_safe_grows fuel c ai ai' :
  mark_safe fuel c ai = Some ai' → grows ai {[c]} ∅ ai'.
Proof.
  apply (proj1 (grows_inv ai {[c]} ∅ fuel)).
  split; fields; try done; set_solver.
Qed.

Lemma mark_mine_grows fuel c ai ai' :
  mark_mine fuel c ai = Some ai' → grows ai ∅ {[c]} ai'.
Proof.
  apply (proj1 (grows_inv ai ∅ {[c]} fuel)).
  split; fields; try done; set_solver.
Qed.

Lemma conclude_infer_integrate_grows fuel s ai ai' :
  conclude_infer_integrate fuel s ai = Some ai' → grows ai ∅ ∅ ai'.
Proof. apply (proj2 (grows_inv ai ∅ ∅ fuel)), grows_refl. Qed.

End Frame.

Section Neighbours.
Import MinesweeperAI.

Lemma elem_of_window ai c d :
  d ∈ window ai c ↔
  c.1 - 1 ≤ d.1 ≤ c.1 + 1 ∧ c.2 - 1 ≤ d.2 ≤ c.2 + 1 ∧
  0 ≤ d.1 < height ai ∧ 0 ≤ d.2 < width ai.
Proof.
  destruct c as [i j], d as [i' j']. unfold window. cbn [fst snd].
  rewrite list_elem_of_bind. setoid_rewrite list_elem_of_bind.
  setoid_rewrite list_elem_of_filter. setoid_rewrite list_elem_of_singleton.
  setoid_rewrite elem_of_cons. setoid_rewrite elem_of_cons.
  setoid_rewrite elem_of_cons. setoid_rewrite elem_of_nil.
  split.
  - intros (x & (y & [= -> ->] & Hy & Hy') & Hx & Hx'). lia.
  - intros (Hi & Hj & Hh & Hw). exists i'. split; [exists j'|]; repeat split; lia.
Qed.

Lemma elem_of_neighbours ai c d : d ∈ neighbours ai c ↔ neighbour ai c d.
Proof.
  unfold neighbours, neighbour.
  rewrite elem_of_list_to_set, list_elem_of_filter, elem_of_window. tauto.
Qed.

End Neighbours.

(** ** A run that never ends

    Every call is still waiting for the first inference of its list. *)
Section Ladder.
Import MinesweeperAI.
Context {order : SetOrder}.
Variables A B : cell.
Hypothesis A_B : A ≠ B.

Lemma infer_app s kn others acc : ∃ more, infer s kn others acc = acc ++ more.
Proof.
  revert acc. induction others as [|o others IH]; intros acc.
  { exists []. by rewrite app_nil_r. }
  cbn [infer]. destruct (inference s o) as [inf|]; [|apply IH].
  case_match; [|apply IH].
  destruct (IH (acc ++ [inf])) as [more ->]. exists (inf :: more). by rewrite <-app_assoc.
Qed.

Lemma infer_cons s kn o others acc :
  infer s kn (o :: others) acc =
  match inference s o with
  | Some inf =>
      if negb (bool_decide (inf ∈ acc)) && negb (bool_decide (inf ∈ kn))
      then infer s kn others (acc ++ [inf])
      else infer s kn others acc
  | None => infer s kn others acc
  end.
Proof. reflexivity. Qed.

Lemma single_unresolved c n : n ≠ 0 → n ≠ 1 → unresolved (Sentence.mk {[c]} n).
Proof.
  intros H0 H1.
  assert (Sentence.is_empty (Sentence.mk {[c]} n) = false) as He.
  { apply is_empty_false. fields. set_solver. }
  split; [done|]. apply resolvable_false; [done|].
  unfold Sentence.len. fields. rewrite size_singleton. lia.
Qed.

Lemma ladder_not_held rung kn c n :
  c ∈ ({[A; B]} : gset cell) →
  ladder A B rung kn →
  (∀ s, rung s → Sentence.cells s = {[c]} → Sentence.count s ≠ n) →
  (∀ s, rung s → Sentence.cells s = {[A]} ∨ Sentence.cells s = {[B]}) →
  Sentence.mk {[c]} n ∉ kn.
Proof.
  intros Hc (rest & -> & Hrest) Hn Hcells.
  assert (∃ d, d ∈ ({[A; B]} : gset cell) ∧ d ∉ ({[c]} : gset cell)) as (d & Hd & Hd').
  { destruct (decide (c = A)) as [->|]; [exists B|exists A]; set_solver. }
  rewrite !not_elem_of_cons. split; [|split].
  - by apply (different_cells d).
  - by apply (different_cells d).
  - intros Hin. rewrite Forall_forall in Hrest.
    by apply (Hn _ (Hrest _ Hin)).
Qed.

Lemma ladder_diverges fuel :
  (∀ a ai, 5 ≤ a → ladder A B (rung_A A B a) (knowledge ai) →
           conclude_infer_integrate fuel (Sentence.mk {[A]} a) ai = None) ∧
  (∀ b ai, b ≤ -4 → Sentence.mk {[A]} (1 - b) ∈ knowledge ai →
           ladder A B (rung_B A B b) (knowledge ai) →
           conclude_infer_integrate fuel (Sentence.mk {[B]} b) ai = None).
Proof.
  induction fuel as [|fuel [IHA IHB]]; [done|]. split.
  - intros a ai Ha Hl.
    rewrite conclude_infer_integrate_unresolved; cycle 1.
    { eapply (ladder_not_held _ _ A); [set_solver|done| |].
      - intros s [[_ ?]|[Hs _]] Hs'; [fields; lia|]. rewrite Hs in Hs'. set_solver.
      - intros s [[? _]|[? _]]; auto. }
    { apply single_unresolved; lia. }
    destruct Hl as (rest & Hk & Hrest). rewrite Hk at 2. rewrite infer_cons.
    assert (inference (Sentence.mk {[A]} a) (Sentence.mk {[A; B]} 1)
            = Some (Sentence.mk {[B]} (1 - a))) as ->.
    { unfold inference. fields. rewrite bool_decide_true by set_solver.
      do 2 f_equal. set_solver. }
    rewrite (bool_decide_false (_ ∈ [])) by apply not_elem_of_nil.
    rewrite bool_decide_false; cycle 1.
    { eapply (ladder_not_held (rung_A A B a) _ B); [set_solver|by exists rest| |].
      - intros s [[Hs _]|[_ ?]] Hs'; [|fields; lia]. rewrite Hs in Hs'. set_solver.
      - intros s [[? _]|[? _]]; auto. }
    cbn [negb andb app]. destruct (infer_app (Sentence.mk {[A]} a) (knowledge ai)
                        (Sentence.mk {[A; B]} 3 :: rest)
                        [Sentence.mk {[B]} (1 - a)]) as [more ->].
    fields. rewrite IHB; [done|lia| |].
    + fields. apply elem_of_app. right. replace (1 - (1 - a)) with a by lia.
      apply list_elem_of_here.
    + fields. rewrite Hk. exists (rest ++ [Sentence.mk {[A]} a]). split; [done|].
      apply Forall_app. split.
      * eapply Forall_impl; [done|]. intros s [[? ?]|[? ?]]; [left|right]; split; auto; lia.
      * apply Forall_singleton. left. fields. split; [done|lia].
  - intros b ai Hb Hheld Hl.
    rewrite conclude_infer_integrate_unresolved; cycle 1.
    { eapply (ladder_not_held _ _ B); [set_solver|done| |].
      - intros s [[Hs _]|[_ ?]] Hs'; [|fields; lia]. rewrite Hs in Hs'. set_solver.
      - intros s [[? _]|[? _]]; auto. }
    { apply single_unresolved; lia. }
    destruct Hl as (rest & Hk & Hrest). rewrite Hk at 2. rewrite infer_cons.
    assert (inference (Sentence.mk {[B]} b) (Sentence.mk {[A; B]} 1)
            = Some (Sentence.mk {[A]} (1 - b))) as ->.
    { unfold inference. fields. rewrite bool_decide_true by set_solver.
      do 2 f_equal. set_solver. }
    rewrite (bool_decide_false (_ ∈ [])) by apply not_elem_of_nil.
    rewrite (bool_decide_true (_ ∈ knowledge ai)) by done. cbn [negb andb app].
    rewrite infer_cons.
    assert (inference (Sentence.mk {[B]} b) (Sentence.mk {[A; B]} 3)
            = Some (Sentence.mk {[A]} (3 - b))) as ->.
    { unfold inference. fields. rewrite bool_decide_true by set_solver.
      do 2 f_equal. set_solver. }
    rewrite (bool_decide_false (_ ∈ [])) by apply not_elem_of_nil.
    rewrite bool_decide_false; cycle 1.
    { eapply (ladder_not_held (rung_B A B b) _ A); [set_solver|by exists rest| |].
      - intros s [[_ ?]|[Hs _]] Hs'; [fields; lia|]. rewrite Hs in Hs'. set_solver.
      - intros s [[? _]|[? _]]; auto. }
    cbn [negb andb app]. destruct (infer_app (Sentence.mk {[B]} b) (knowledge ai) rest
                        [Sentence.mk {[A]} (3 - b)]) as [more ->].
    fields. rewrite IHA; [done|lia|].
    fields. rewrite Hk. exists (rest ++ [Sentence.mk {[B]} b]). split; [done|].
    apply Forall_app. split.
    * eapply Forall_impl; [done|]. intros s [[? ?]|[? ?]]; [left|right]; split; auto; lia.
    * apply Forall_singleton. right. fields. split; [done|lia].
Qed.

End Ladder.

(** ** A sentence that shares no cell with the knowledge base *)
Section Independent.
Import MinesweeperAI.
Context {order : SetOrder}.

Lemma mark_loop_untouched prune fuel c i ai :
  (∀ x, x ∈ knowledge ai → (prune x c).2 = false) →
  (length (knowledge ai) - i < fuel)%nat →
  mark_loop prune fuel c i ai = Some ai.
Proof.
  intros Hprune. revert i. induction fuel as [|fuel IH]; intros i Hi; [lia|].
  destruct (knowledge ai !! i) as [x|] eqn:Hx; [|by apply mark_loop_end].
  pose proof (lookup_lt_Some _ _ _ Hx).
  rewrite (mark_loop_next _ _ _ _ _ x) by eauto using list_elem_of_lookup_2.
  apply IH. lia.
Qed.

Lemma for_each_mark_untouched prune (add : t → cell → t) fuel cs ai :
  (∀ a c, knowledge (add a c) = knowledge a) →
  (∀ c x, c ∈ cs → x ∈ knowledge ai → (prune x c).2 = false) →
  (length (knowledge ai) < fuel)%nat →
  ∃ ai', for_each (λ c a, mark_loop prune fuel c 0 (add a c)) cs ai = Some ai'
         ∧ knowledge ai' = knowledge ai.
Proof.
  intros Hadd. revert ai. induction cs as [|c cs IH]; intros ai Hprune Hlen.
  { by exists ai. }
  cbn [for_each]. rewrite mark_loop_untouched; cycle 1.
  { intros x. rewrite Hadd. apply Hprune, list_elem_of_here. }
  { rewrite Hadd. lia. }
  destruct (IH (add ai c)) as (ai' & -> & Hk).
  - intros c' x Hc'. rewrite Hadd. apply Hprune. by apply list_elem_of_further.
  - by rewrite Hadd.
  - exists ai'. by rewrite Hk, Hadd.
Qed.

Lemma infer_nothing s kn others acc :
  Forall (λ o, inference s o = None) others → infer s kn others acc = acc.
Proof.
  induction 1 as [|o others Ho _ IH]; [done|]. cbn [infer]. by rewrite Ho.
Qed.

Lemma integrate_independent fuel s ai :
  Forall unresolved (knowledge ai) →
  (∀ x, x ∈ knowledge ai → Sentence.cells x ## Sentence.cells s) →
  ∃ ai', conclude_infer_integrate (2 + length (knowledge ai) + fuel) s ai = Some ai'.
Proof.
  intros Hk Hdisj. change (2 + ?n + fuel)%nat with (S (S (n + fuel))).
  destruct (decide (s ∈ knowledge ai)) as [Hin|Hin].
  { exists ai. apply conclude_infer_integrate_skip. by left. }
  destruct (Sentence.is_empty s) eqn:He.
  { exists ai. apply conclude_infer_integrate_skip. by right. }
  assert (∀ c x, c ∈ set_iter (Sentence.cells s) → x ∈ knowledge ai →
                 c ∉ Sentence.cells x) as Hout.
  { intros c x Hc%elem_of_set_iter Hx. specialize (Hdisj x Hx). set_solver. }
  destruct (decide (Sentence.count s = 0)) as [Hz|Hz].
  { rewrite conclude_infer_integrate_safes by done. unfold mark_safe.
    destruct (for_each_mark_untouched Sentence.mark_safe add_safe
                (S (length (knowledge ai) + fuel)) (set_iter (Sentence.cells s)) ai)
      as (ai' & Hrun & _); [done| |lia|by exists ai'].
    intros c x Hc Hx. unfold Sentence.mark_safe.
    by rewrite bool_decide_false by eauto. }
  destruct (decide (Sentence.count s = Sentence.len s)) as [Hl|Hl].
  { rewrite conclude_infer_integrate_mines by done. unfold mark_mine.
    destruct (for_each_mark_untouched Sentence.mark_mine add_mine
                (S (length (knowledge ai) + fuel)) (set_iter (Sentence.cells s)) ai)
      as (ai' & Hrun & _); [done| |lia|by exists ai'].
    intros c x Hc Hx. unfold Sentence.mark_mine.
    by rewrite bool_decide_false by eauto. }
  rewrite conclude_infer_integrate_unresolved; [|done|]; cycle 1.
  { split; [done|]. by apply resolvable_false. }
  rewrite infer_nothing; [by eexists|].
  apply Forall_forall. intros x Hx.
  pose proof (is_empty_false_inv _ He) as Hs.
  rewrite Forall_forall in Hk. destruct (Hk x Hx) as [Hxe%is_empty_false_inv _].
  specialize (Hdisj x Hx).
  apply set_choose_L in Hs as [c Hc]. apply set_choose_L in Hxe as [d Hd].
  unfold inference. rewrite !bool_decide_false; [done|set_solver..].
Qed.

End Independent.

(** ** Every game on a small board *)
Section SmallBoards.
Context {order : SetOrder}.

Lemma elem_of_sublists_filter {A} (P : A → Prop) `{∀ x, Decision (P x)} (l : list A) :
  filter P l ∈ sublists l.
Proof.
  induction l as [|x l IH]; [apply list_elem_of_here|].
  cbn [sublists]. rewrite filter_cons. apply elem_of_app. case_decide.
  - right. apply list_elem_of_fmap. eauto.
  - by left.
Qed.

Lemma elem_of_board_cells h w c :
  c ∈ board_cells h w ↔ 0 ≤ c.1 < h ∧ 0 ≤ c.2 < w.
Proof.
  destruct c as [i j]. unfold board_cells. cbn [fst snd].
  rewrite list_elem_of_bind. setoid_rewrite list_elem_of_bind.
  setoid_rewrite list_elem_of_singleton. setoid_rewrite elem_of_seqZ.
  split.
  - intros (x & (y & [= -> ->] & Hy) & Hx). lia.
  - intros [Hi Hj]. exists i. split; [exists j|]; split; (done || lia).
Qed.

Lemma all_orders_end_play depth fuel g rest ai cs :
  all_orders_end depth fuel g rest ai = true →
  NoDup cs → (∀ c, c ∈ cs → c ∈ rest) → (length cs ≤ depth)%nat →
  ∃ ai', play g fuel cs ai = Some ai'.
Proof.
  revert rest ai cs. induction depth as [|depth IH]; intros rest ai cs Hall Hnd Hsub Hlen.
  { destruct cs; [by exists ai|simpl in Hlen; lia]. }
  destruct cs as [|c cs]; [by exists ai|].
  cbn [all_orders_end] in Hall. rewrite forallb_forall in Hall.
  specialize (Hall c). rewrite <-list_elem_of_In in Hall.
  specialize (Hall (Hsub c (list_elem_of_here _ _))).
  unfold play. cbn [for_each].
  destruct (MinesweeperAI.add_knowledge fuel c _ ai) as [ai1|]; [|done].
  apply NoDup_cons in Hnd as [Hc Hnd].
  apply (IH _ _ cs Hall Hnd); [|simpl in Hlen; lia].
  intros d Hd. apply list_elem_of_filter. split; [by intros ->|].
  by apply Hsub, list_elem_of_further.
Qed.

Lemma all_games_end_play h w fuel g cs :
  all_games_end h w fuel = true →
  Minesweeper.height g = h → Minesweeper.width g = w →
  (∀ c, c ∈ Minesweeper.mines g → Minesweeper.in_bounds g c = true) →
  NoDup cs →
  Forall (λ c, Minesweeper.in_bounds g c = true ∧ Minesweeper.is_mine g c = false) cs →
  ∃ ai', play g fuel cs (MinesweeperAI.init h w) = Some ai'.
Proof.
  intros Hall Hh Hw Hmines Hnd Hcs.
  assert (g = Minesweeper.mk h w (Minesweeper.mines g)) as Hg
    by (destruct g; simpl in *; congruence).
  set (ms := filter (λ c, c ∈ Minesweeper.mines g) (board_cells h w)).
  assert (list_to_set ms = Minesweeper.mines g) as Hms.
  { apply set_eq. intros c. unfold ms.
    rewrite elem_of_list_to_set, list_elem_of_filter, elem_of_board_cells.
    split; [tauto|]. intros Hc. split; [done|].
    specialize (Hmines c Hc). unfold Minesweeper.in_bounds in Hmines.
    apply andb_true_iff in Hmines as [?%bool_decide_eq_true ?%bool_decide_eq_true].
    by rewrite <-Hh, <-Hw. }
  unfold all_games_end in Hall. rewrite forallb_forall in Hall.
  specialize (Hall ms). rewrite <-list_elem_of_In in Hall.
  specialize (Hall (elem_of_sublists_filter _ _)). cbn zeta in Hall.
  rewrite Hms in Hall.
  rewrite <-Hg in Hall.
  eapply all_orders_end_play; [done|done| |].
  - intros c Hc. rewrite Forall_forall in Hcs. destruct (Hcs c Hc) as [Hb Hm].
    apply list_elem_of_filter. split.
    + unfold ms. rewrite list_elem_of_filter.
      apply bool_decide_eq_false in Hm. tauto.
    + apply elem_of_board_cells. unfold Minesweeper.in_bounds in Hb.
      apply andb_true_iff in Hb as [?%bool_decide_eq_true ?%bool_decide_eq_true].
      by rewrite <-Hh, <-Hw.
  - apply submseteq_length, NoDup_submseteq; [done|].
    intros c Hc. rewrite Forall_forall in Hcs. destruct (Hcs c Hc) as [Hb Hm].
    apply list_elem_of_filter. split.
    + unfold ms. rewrite list_elem_of_filter.
      apply bool_decide_eq_false in Hm. tauto.
    + apply elem_of_board_cells. unfold Minesweeper.in_bounds in Hb.
      apply andb_true_iff in Hb as [?%bool_decide_eq_true ?%bool_decide_eq_true].
      by rewrite <-Hh, <-Hw.
Qed.

End SmallBoards.

Lemma elem_of_small_boards h w :
  0 < h → 0 < w → h * w ≤ 6 → (h, w) ∈ small_boards.
Proof.
  intros Hh Hw Hhw.
  assert (h = 1 ∨ h = 2 ∨ h = 3 ∨ h = 4 ∨ h = 5 ∨ h = 6) as Hcase by nia.
  assert (w = 1 ∨ w = 2 ∨ w = 3 ∨ w = 4 ∨ w = 5 ∨ w = 6) as Hcase' by nia.
  apply list_elem_of_In.
  destruct Hcase as [->|[->|[->|[->|[->| ->]]]]];
    destruct Hcase' as [->|[->|[->|[->|[->| ->]]]]];
    try (simpl; auto 20; fail); lia.
Qed.

(** Every game on every small board, by running them all. *)
Lemma small_boards_end :
  forallb (λ b, @all_games_end elements_order b.1 b.2 10) small_boards = true.
Proof. by vm_compute. Qed.

Lemma small_board_play g cs :
  0 < Minesweeper.height g → 0 < Minesweeper.width g →
  Minesweeper.height g * Minesweeper.width g ≤ 6 →
  (∀ c, c ∈ Minesweeper.mines g → Minesweeper.in_bounds g c = true) →
  NoDup cs →
  Forall (λ c, Minesweeper.in_bounds g c = true ∧ Minesweeper.is_mine g c = false) cs →
  ∃ ai', @play elements_order g 10 cs
           (MinesweeperAI.init (Minesweeper.height g) (Minesweeper.width g)) = Some ai'.
Proof.
  intros Hh Hw Hhw. apply (@all_games_end_play elements_order); [|done..].
  pose proof small_boards_end as Hall. rewrite forallb_forall in Hall.
  apply (Hall (Minesweeper.height g, Minesweeper.width g)).
  by apply list_elem_of_In, elem_of_small_boards.
Qed.

(** ** More fuel never changes a result *)
Section Fuel.
Import MinesweeperAI.
Context {order : SetOrder}.

Lemma for_each_mono {A S} (body body' : A → S → option S) l s r :
  (∀ a s r, body a s = Some r → body' a s = Some r) →
  for_each body l s = Some r → for_each body' l s = Some r.
Proof.
  intros Hbody. revert s. induction l as [|a l IH]; intros s; [done|].
  cbn [for_each]. destruct (body a s) as [s1|] eqn:E; [|done].
  rewrite (Hbody _ _ _ E). apply IH.
Qed.

Lemma fuel_S fuel :
  (∀ prune c i ai r,
      mark_loop prune fuel c i ai = Some r → mark_loop prune (S fuel) c i ai = Some r) ∧
  (∀ s ai r,
      conclude_infer_integrate fuel s ai = Some r →
      conclude_infer_integrate (S fuel) s ai = Some r).
Proof.
  induction fuel as [|fuel [IHm IHc]]; [by split|]. split.
  - intros prune c i ai r. rewrite (mark_loop_S _ (S fuel)), (mark_loop_S _ fuel).
    destruct (knowledge ai !! i) as [x|]; [|done].
    destruct (prune x c) as [x' [|]]; [|by apply IHm].
    destruct (conclude_infer_integrate fuel x' _) as [ai1|] eqn:E; [|done].
    rewrite (IHc _ _ _ E). apply IHm.
  - intros s ai r.
    rewrite (conclude_infer_integrate_S (S fuel)), (conclude_infer_integrate_S fuel).
    destruct (_ || _); [done|].
    assert (∀ b ai1, is_conclusive fuel s ai = Some (b, ai1) →
                     is_conclusive (S fuel) s ai = Some (b, ai1)) as Hconc.
    { unfold is_conclusive, is_conclusive_with. intros b ai1.
      destruct (truthy (Sentence.known_safes s)).
      - destruct (for_each (mark_safe fuel) _ ai) as [a|] eqn:E; [|done].
        by rewrite (for_each_mono _ (mark_safe (S fuel)) _ _ _
                      ltac:(intros ???; apply IHm) E).
      - destruct (truthy (Sentence.known_mines s)); [|done].
        destruct (for_each (mark_mine fuel) _ ai) as [a|] eqn:E; [|done].
        by rewrite (for_each_mono _ (mark_mine (S fuel)) _ _ _
                      ltac:(intros ???; apply IHm) E). }
    destruct (is_conclusive fuel s ai) as [[b ai1]|] eqn:E; [|done].
    rewrite (Hconc _ _ eq_refl). destruct b; [done|].
    by apply for_each_mono.
Qed.

Lemma conclude_infer_integrate_fuel fuel fuel' s ai r :
  (fuel ≤ fuel')%nat →
  conclude_infer_integrate fuel s ai = Some r →
  conclude_infer_integrate fuel' s ai = Some r.
Proof.
  induction 1 as [|fuel' _ IH]; [done|].
  intros Hrun. by apply (proj2 (fuel_S fuel')), IH.
Qed.

End Fuel.

(** * Main results *)

(** C2.  In every state of a game played by the contract (the cells
    revealed are not mines and their counts are the true ones) no cell is
    both in [mines] and in [safes]. *)
Theorem mines_safes_disjoint `{SetOrder} (g : Minesweeper.t) (ai : MinesweeperAI.t) :
  reachable g ai → MinesweeperAI.mines ai ∩ MinesweeperAI.safes ai = ∅.
Proof. intros [_ _ Hm Hs _]%reachable_sound. set_solver. Qed.

Lemma mines_safes_disjoint_witness :
  MinesweeperAI.mines (demo_state 3) ∩ MinesweeperAI.safes (demo_state 3) = ∅.
Proof. exact (@mines_safes_disjoint elements_order demo_game _ (demo_reachable 3)). Defined.

(** C3.  In every state of a game played by the contract every sentence
    held in [knowledge] has [0 <= count <= len(cells)]; the states include
    those right after a sentence was pruned in place and those in which a
    derived inference has just been added. *)
Theorem knowledge_count_bounds `{SetOrder} (g : Minesweeper.t) (ai : MinesweeperAI.t)
    (s : Sentence.t) :
  reachable g ai → s ∈ MinesweeperAI.knowledge ai →
  0 ≤ Sentence.count s ≤ Sentence.len s.
Proof.
  intros [_ _ _ _ Hk]%reachable_sound Hs.
  rewrite Forall_forall in Hk. eapply holds_bounds; eauto.
Qed.

Lemma knowledge_count_bounds_witness :
  0 ≤ Sentence.count (Sentence.mk {[ (1, 0); (1, 1) ]} 1)
    ≤ Sentence.len (Sentence.mk {[ (1, 0); (1, 1) ]} 1).
Proof.
  apply (@knowledge_count_bounds elements_order demo_game (demo_state 3));
    [apply demo_reachable|].
  vm_compute. apply list_elem_of_here.
Defined.

(** C4, as the spec states it, fails for the empty sentence with count 0:
    [known_mines] hands back the cell set itself, which is an empty set and
    not [None]. *)
Lemma known_mines_empty_is_not_none :
  Sentence.known_mines (Sentence.mk ∅ 0) ≠ None.
Proof. by vm_compute. Qed.

(** C4, amended.  On the empty sentence with count 0 [known_mines] returns
    the empty cell set, a value that is false in a condition just as [None]
    is; on a sentence with [0 < count < len(cells)] both [known_mines] and
    [known_safes] return [None]. *)
Theorem known_cells_of_unresolved (s : Sentence.t) :
  0 < Sentence.count s < Sentence.len s →
  (Sentence.known_mines s = None ∧ Sentence.known_safes s = None) ∧
  (Sentence.known_mines (Sentence.mk ∅ 0) = Some ∅ ∧
   truthy (Sentence.known_mines (Sentence.mk ∅ 0)) = false).
Proof.
  intros Hc. split; [|by vm_compute].
  unfold Sentence.known_mines, Sentence.known_safes.
  rewrite !bool_decide_false by lia. done.
Qed.

Lemma known_cells_of_unresolved_witness :
  (Sentence.known_mines (Sentence.mk {[ (1, 0); (1, 1) ]} 1) = None ∧
   Sentence.known_safes (Sentence.mk {[ (1, 0); (1, 1) ]} 1) = None) ∧
  (Sentence.known_mines (Sentence.mk ∅ 0) = Some ∅ ∧
   truthy (Sentence.known_mines (Sentence.mk ∅ 0)) = false).
Proof. apply known_cells_of_unresolved. by vm_compute. Defined.

(** C8.  Integrating a sentence equal to one already in [knowledge]
    returns at once and leaves the whole state as it was. *)
Theorem integrate_duplicate_noop `{SetOrder} (fuel : nat) (s : Sentence.t)
    (ai : MinesweeperAI.t) :
  s ∈ MinesweeperAI.knowledge ai →
  MinesweeperAI.conclude_infer_integrate (S fuel) s ai = Some ai.
Proof. intros Hs. apply conclude_infer_integrate_skip. by left. Qed.

Lemma integrate_duplicate_noop_witness :
  @MinesweeperAI.conclude_infer_integrate elements_order 1
    (Sentence.mk {[ (1, 0); (1, 1) ]} 1) (demo_state 3) = Some (demo_state 3).
Proof.
  apply (@integrate_duplicate_noop elements_order).
  vm_compute. apply list_elem_of_here.
Defined.

(** C6.  On an empty knowledge base, integrating the one-cell sentence
    [{A} = 1] puts [A] into [mines] and leaves [knowledge] empty.  In
    general, when the resolvability check fires on the integrated sentence,
    the call does nothing but the marking of [is_conclusive], and the
    sentence is not in [knowledge] afterwards. *)
Theorem resolved_sentence_not_added `{SetOrder} :
  (∀ (A : cell) (ai : MinesweeperAI.t) (fuel : nat),
      MinesweeperAI.knowledge ai = [] →
      ∃ ai', MinesweeperAI.conclude_infer_integrate (2 + fuel) (Sentence.mk {[A]} 1) ai
             = Some ai'
           ∧ MinesweeperAI.mines ai' = MinesweeperAI.mines ai ∪ {[A]}
           ∧ MinesweeperAI.safes ai' = MinesweeperAI.safes ai
           ∧ MinesweeperAI.knowledge ai' = []) ∧
  (∀ (fuel : nat) (s : Sentence.t) (ai ai' : MinesweeperAI.t),
      s ∉ MinesweeperAI.knowledge ai → Sentence.is_empty s = false →
      resolvable s = true →
      MinesweeperAI.conclude_infer_integrate fuel s ai = Some ai' →
      (∃ fuel', fuel = S fuel' ∧
                MinesweeperAI.is_conclusive fuel' s ai = Some (true, ai')) ∧
      s ∉ MinesweeperAI.knowledge ai').
Proof.
  split.
  - intros A ai fuel Hk. exists (MinesweeperAI.add_mine ai A). split; [|done].
    change (2 + fuel)%nat with (S (S fuel)).
    rewrite conclude_infer_integrate_mines.
    + simpl. rewrite set_iter_singleton. simpl.
      unfold MinesweeperAI.mark_mine. by rewrite mark_loop_end by (simpl; by rewrite Hk).
    + rewrite Hk. apply not_elem_of_nil.
    + apply is_empty_false. simpl. set_solver.
    + done.
    + unfold Sentence.len. cbn [Sentence.cells Sentence.count]. by rewrite size_singleton.
  - intros fuel s ai ai' Hs He Hr Hrun. split; [|by eapply resolvable_never_held].
    destruct fuel as [|fuel]; [done|]. exists fuel. split; [done|].
    rewrite conclude_infer_integrate_S in Hrun.
    rewrite bool_decide_false, He in Hrun by done. simpl in Hrun.
    destruct (MinesweeperAI.is_conclusive fuel s ai) as [[[|] ai1]|] eqn:Hc;
      [by simplify_eq| |done].
    apply is_conclusive_false in Hc as (_ & Hsafes & Hmines).
    unfold resolvable in Hr. by rewrite Hsafes, Hmines in Hr.
Qed.

Lemma resolved_sentence_not_added_witness :
  (∃ fuel', 2%nat = S fuel' ∧
     @MinesweeperAI.is_conclusive elements_order fuel' (Sentence.mk {[ (0, 0) ]} 1)
        demo_start = Some (true, MinesweeperAI.add_mine demo_start (0, 0))) ∧
  Sentence.mk {[ (0, 0) ]} 1 ∉
    MinesweeperAI.knowledge (MinesweeperAI.add_mine demo_start (0, 0)).
Proof.
  apply (proj2 (@resolved_sentence_not_added elements_order) 2%nat).
  - vm_compute. apply not_elem_of_nil.
  - by vm_compute.
  - by vm_compute.
  - by vm_compute.
Defined.

(** C5.  With [knowledge] holding exactly [{A, B, C} = 1], integrating
    [{A, B} = 1] derives [{C} = 0] by the subset rule, and [C] ends up in
    [safes]. *)
Theorem subset_inference_marks_safe `{SetOrder} (A B C : cell)
    (ai : MinesweeperAI.t) (fuel : nat) :
  A ≠ B → A ≠ C → B ≠ C →
  MinesweeperAI.knowledge ai = [Sentence.mk {[A; B; C]} 1] →
  MinesweeperAI.infer (Sentence.mk {[A; B]} 1)
    (MinesweeperAI.knowledge ai) (MinesweeperAI.knowledge ai) []
  = [Sentence.mk {[C]} 0] ∧
  ∃ ai', MinesweeperAI.conclude_infer_integrate (4 + fuel) (Sentence.mk {[A; B]} 1) ai
         = Some ai'
       ∧ C ∈ MinesweeperAI.safes ai'
       ∧ MinesweeperAI.safes ai' = MinesweeperAI.safes ai ∪ {[C]}
       ∧ MinesweeperAI.mines ai' = MinesweeperAI.mines ai
       ∧ MinesweeperAI.knowledge ai' = [Sentence.mk {[A; B]} 1].
Proof.
  intros HAB HAC HBC Hk.
  set (abc := Sentence.mk {[A; B; C]} 1) in *. set (ab := Sentence.mk {[A; B]} 1) in *.
  set (c0 := Sentence.mk {[C]} 0) in *.
  assert (MinesweeperAI.inference ab abc = Some c0) as Hinf.
  { unfold MinesweeperAI.inference. fields.
    rewrite bool_decide_true by set_solver. unfold c0. do 2 f_equal. set_solver. }
  assert (ab ≠ abc) as Hne1.
  { apply (different_cells C); fields; set_solver. }
  assert (c0 ≠ abc) as Hne2.
  { apply (different_cells A); fields; set_solver. }
  assert (c0 ≠ ab) as Hne3.
  { apply (different_cells A); fields; set_solver. }
  assert (MinesweeperAI.infer ab [abc] [abc] [] = [c0]) as Hinfer.
  { fields. rewrite Hinf.
    rewrite bool_decide_false by apply not_elem_of_nil.
    rewrite bool_decide_false by by rewrite list_elem_of_singleton. done. }
  rewrite Hk. split; [done|].
  exists (MinesweeperAI.set_knowledge (MinesweeperAI.add_safe ai C) [ab]).
  split; [|by repeat split; fields; set_solver].
  change (4 + fuel)%nat with (S (S (S (S fuel)))).
  (* the sentence is new and unresolved: the inference is drawn *)
  rewrite conclude_infer_integrate_unresolved; cycle 1.
  { rewrite Hk. by rewrite list_elem_of_singleton. }
  { assert (Sentence.is_empty ab = false) as He by (apply is_empty_false; set_solver).
    split; [done|]. apply resolvable_false; [done|].
    unfold Sentence.len, ab. fields. rewrite size_union, !size_singleton by set_solver. lia. }
  rewrite Hk, Hinfer. fields.
  (* [{C} = 0] is resolved: [C] is marked safe *)
  rewrite conclude_infer_integrate_safes; cycle 1.
  { fields. rewrite !elem_of_cons, elem_of_nil. naive_solver. }
  { apply is_empty_false. set_solver. }
  { done. }
  change (Sentence.cells c0) with ({[C]} : gset cell).
  rewrite set_iter_singleton. fields.
  unfold MinesweeperAI.mark_safe.
  (* the sentence at position 0 is pruned to [{A, B} = 1], which is the
     first sentence equal to itself in the list: it is the one removed *)
  rewrite (mark_loop_prune _ _ _ _ _ abc ab); [|done|]; cycle 1.
  { unfold Sentence.mark_safe. rewrite bool_decide_true by (unfold abc; fields; set_solver).
    unfold ab, abc. fields. do 2 f_equal. set_solver. }
  fields. rewrite decide_True by done.
  rewrite conclude_infer_integrate_skip by (left; fields; apply list_elem_of_here).
  by rewrite mark_loop_end.
Qed.

Lemma subset_inference_marks_safe_witness :
  let ai := MinesweeperAI.mk 1 3 ∅ ∅ ∅ [Sentence.mk {[ (0, 0); (0, 1); (0, 2) ]} 1] in
  MinesweeperAI.infer (Sentence.mk {[ (0, 0); (0, 1) ]} 1)
    (MinesweeperAI.knowledge ai) (MinesweeperAI.knowledge ai) []
  = [Sentence.mk {[ (0, 2) ]} 0] ∧
  ∃ ai', @MinesweeperAI.conclude_infer_integrate elements_order (4 + 0)
           (Sentence.mk {[ (0, 0); (0, 1) ]} 1) ai = Some ai'
       ∧ (0, 2) ∈ MinesweeperAI.safes ai'
       ∧ MinesweeperAI.safes ai' = MinesweeperAI.safes ai ∪ {[ (0, 2) ]}
       ∧ MinesweeperAI.mines ai' = MinesweeperAI.mines ai
       ∧ MinesweeperAI.knowledge ai' = [Sentence.mk {[ (0, 0); (0, 1) ]} 1].
Proof.
  apply (@subset_inference_marks_safe elements_order (0, 0) (0, 1) (0, 2)); done.
Defined.

(** C10, as stated, fails in two ways.  When the new sentence is
    resolvable, it is consumed and not appended: with [knowledge] holding
    [{a, b} = 1], integrating [{a, b} = 2] marks both cells as mines and
    appends nothing; in the end neither sentence is held.  And when
    [knowledge] holds a sentence whose cells strictly contain those of the
    new one, the call need not return: with [{p, a} = 1], [{p, a} = 3] and
    [{p} = 5] held, integrating [{p} = 7], which is unresolved, not held,
    and differs from [{p} = 5] in its count only, returns for no amount of
    fuel (Python ends in a [RecursionError]). *)
Lemma contradictory_sentence_not_always_appended :
  let a : cell := (0, 0) in
  let b : cell := (0, 1) in
  let p : cell := (0, 2) in
  let ai := MinesweeperAI.mk 1 3 ∅ ∅ ∅ [Sentence.mk {[a; b]} 1] in
  let x := Sentence.mk {[p]} 5 in
  let s := Sentence.mk {[p]} 7 in
  let aj := MinesweeperAI.mk 1 4 {[ (0, 1) ]} ∅ {[ (0, 1) ]}
              [Sentence.mk {[p; a]} 1; Sentence.mk {[p; a]} 3; x] in
  (∃ ai', @MinesweeperAI.conclude_infer_integrate elements_order 10
            (Sentence.mk {[a; b]} 2) ai = Some ai'
        ∧ Sentence.mk {[a; b]} 2 ∉ MinesweeperAI.knowledge ai'
        ∧ MinesweeperAI.knowledge ai' = []
        ∧ MinesweeperAI.mines ai' = {[a; b]})
  ∧ x ∈ MinesweeperAI.knowledge aj
  ∧ Sentence.cells s = Sentence.cells x ∧ Sentence.count s ≠ Sentence.count x
  ∧ s ∉ MinesweeperAI.knowledge aj ∧ unresolved s
  ∧ ∀ fuel, @MinesweeperAI.conclude_infer_integrate elements_order fuel s aj = None.
Proof.
  intros a b p ai x s aj. split.
  { exists (MinesweeperAI.mk 1 3 ∅ {[a; b]} {[a]} []).
    split; [by vm_compute|]. split; [apply not_elem_of_nil|done]. }
  split; [cbn [MinesweeperAI.knowledge aj]; set_solver|].
  split; [done|]. split; [by vm_compute|]. split.
  { cbn [MinesweeperAI.knowledge aj]. rewrite !not_elem_of_cons.
    split; [|split; [|split; [|apply not_elem_of_nil]]];
      intros Heq%(f_equal Sentence.count); discriminate Heq. }
  split; [by vm_compute|].
  intros fuel.
  apply (proj1 (@ladder_diverges elements_order p a ltac:(done) fuel)); [done|].
  exists [x]. split; [done|]. apply Forall_singleton. left. split; [done|].
  cbn [Sentence.count x]. lia.
Qed.

(** C10, amended.  The new sentence [s] is itself unresolved (it has
    cells, its count is neither 0 nor the number of its cells) and not yet
    held, a held sentence [x] has the same cells and another count, and
    every held sentence has either the cells of [s] or cells that neither
    contain those of [s] nor are contained in them.  Then the call returns:
    it has appended [s] at the end of [knowledge], after [x] and all the
    other sentences, and has changed nothing else.  The inference drawn
    from [x] has no cells and a nonzero count; it is among the inferences
    that the call integrates, and integrating it returns at once and leaves
    every state as it is. *)
Theorem contradictory_sentence_appended `{SetOrder} (s x : Sentence.t)
    (ai : MinesweeperAI.t) (fuel : nat) :
  x ∈ MinesweeperAI.knowledge ai →
  Sentence.cells s = Sentence.cells x → Sentence.count s ≠ Sentence.count x →
  s ∉ MinesweeperAI.knowledge ai → unresolved s →
  (∀ o, o ∈ MinesweeperAI.knowledge ai →
        Sentence.cells o = Sentence.cells s
        ∨ (¬ Sentence.cells s ⊆ Sentence.cells o ∧ ¬ Sentence.cells o ⊆ Sentence.cells s)) →
  let e := Sentence.mk ∅ (Sentence.count x - Sentence.count s) in
  MinesweeperAI.conclude_infer_integrate (2 + fuel) s ai
  = Some (MinesweeperAI.set_knowledge ai (MinesweeperAI.knowledge ai ++ [s]))
  ∧ MinesweeperAI.inference s x = Some e
  ∧ Sentence.is_empty e = true ∧ Sentence.count e ≠ 0
  ∧ e ∈ MinesweeperAI.infer s (MinesweeperAI.knowledge ai)
          (MinesweeperAI.knowledge ai) []
  ∧ (∀ ai2, MinesweeperAI.conclude_infer_integrate (S fuel) e ai2 = Some ai2).
Proof.
  intros Hx Hcells Hcount Hs Hu Hothers e.
  assert (MinesweeperAI.inference s x = Some e) as Hinf.
  { unfold MinesweeperAI.inference. rewrite bool_decide_true by by rewrite Hcells.
    unfold e. do 2 f_equal. rewrite Hcells. set_solver. }
  assert (Sentence.is_empty e = true) as Hempty by by vm_compute.
  assert (∀ ai2, MinesweeperAI.conclude_infer_integrate (S fuel) e ai2 = Some ai2)
    as Hskip.
  { intros ai2. apply conclude_infer_integrate_skip. by right. }
  assert (e ∉ MinesweeperAI.knowledge ai) as He.
  { intros [Heq|[_ Hsub]]%Hothers.
    - destruct Hu as [Hne%is_empty_false_inv _]. apply Hne. by rewrite <-Heq.
    - apply Hsub. cbn [Sentence.cells e]. set_solver. }
  split; [|split; [done|split; [done|split; [unfold e; fields; lia|split; [|done]]]]].
  - change (2 + fuel)%nat with (S (S fuel)).
    rewrite conclude_infer_integrate_unresolved by done.
    apply for_each_same.
    apply (infer_all (λ i, MinesweeperAI.conclude_infer_integrate (S fuel) i _ = Some _));
      [|done].
    intros o inf Ho Hdrawn.
    apply conclude_infer_integrate_skip. right.
    unfold MinesweeperAI.inference in Hdrawn.
    destruct (Hothers o Ho) as [Heq|[Hso Hos]].
    + rewrite bool_decide_true in Hdrawn by by rewrite Heq.
      injection Hdrawn as <-. unfold Sentence.is_empty, Sentence.len.
      cbn [Sentence.cells]. rewrite Heq. apply bool_decide_eq_true.
      replace (Sentence.cells s ∖ Sentence.cells s) with (∅ : gset cell) by set_solver.
      by rewrite size_empty.
    + by rewrite !bool_decide_false in Hdrawn.
  - by destruct (infer_elem s (MinesweeperAI.knowledge ai) (MinesweeperAI.knowledge ai)
                   [] x e Hx Hinf).
Qed.

Lemma contradictory_sentence_appended_witness :
  let a : cell := (0, 0) in
  let b : cell := (0, 1) in
  let c : cell := (0, 2) in
  let x := Sentence.mk {[a; b]} 1 in
  let y := Sentence.mk {[b; c]} 1 in
  let s := Sentence.mk {[a; b]} 3 in
  let ai := MinesweeperAI.mk 1 3 ∅ ∅ ∅ [x; y] in
  let e := Sentence.mk ∅ (Sentence.count x - Sentence.count s) in
  @MinesweeperAI.conclude_infer_integrate elements_order (2 + 0) s ai
  = Some (MinesweeperAI.set_knowledge ai (MinesweeperAI.knowledge ai ++ [s]))
  ∧ MinesweeperAI.inference s x = Some e
  ∧ Sentence.is_empty e = true ∧ Sentence.count e ≠ 0
  ∧ e ∈ MinesweeperAI.infer s (MinesweeperAI.knowledge ai)
          (MinesweeperAI.knowledge ai) []
  ∧ (∀ ai2, @MinesweeperAI.conclude_infer_integrate elements_order 1 e ai2 = Some ai2).
Proof.
  intros a b c x y s ai.
  apply (@contradictory_sentence_appended elements_order s x ai 0).
  - apply list_elem_of_here.
  - reflexivity.
  - by vm_compute.
  - cbn [MinesweeperAI.knowledge ai]. rewrite !not_elem_of_cons.
    split; [|split; [|apply not_elem_of_nil]];
      intros Heq%(f_equal Sentence.count); discriminate Heq.
  - by vm_compute.
  - intros o Ho. cbn [MinesweeperAI.knowledge ai] in Ho.
    apply elem_of_cons in Ho as [->|Ho]; [by left|].
    apply list_elem_of_singleton in Ho as ->. right.
    split; apply (bool_decide_unpack _); by vm_compute.
Defined.




(** C1 fails on the code.  In the running example the third reveal calls
    [mark_safe((0, 1))] while two sentences contain (0, 1).  The first is
    pruned and removed from the list, the second moves into its place, and
    the iterator steps over it: when [mark_safe] returns, a sentence of
    [knowledge] still contains (0, 1); and when [add_knowledge] has
    returned, the state of the game holds a sentence with the cell (0, 1),
    which is in [safes].  [mark_mine] has the same loop: called with the
    mine (1, 1) after the second reveal, it returns with a sentence that
    still contains (1, 1). *)
Lemma mark_safe_skips_a_sentence :
  let c : cell := (0, 1) in
  let skipped := Sentence.mk {[ (0, 1); (0, 3); (1, 1); (1, 2); (1, 3) ]} 1 in
  let left := Sentence.mk {[ (0, 1); (0, 3); (1, 1); (1, 3) ]} 1 in
  MinesweeperAI.knowledge (demo_state 2)
  = [Sentence.mk {[ (0, 1); (1, 0); (1, 1) ]} 1; skipped]
  ∧ @MinesweeperAI.mark_safe elements_order 50 c
      (MinesweeperAI.add_move (demo_state 2) c) = Some demo_marked
  ∧ MinesweeperAI.knowledge demo_marked
    = [skipped; Sentence.mk {[ (1, 0); (1, 1) ]} 1]
  ∧ c ∈ Sentence.cells skipped
  ∧ @reachable elements_order demo_game (demo_state 3)
  ∧ MinesweeperAI.knowledge (demo_state 3)
    = [Sentence.mk {[ (1, 0); (1, 1) ]} 1; left]
  ∧ c ∈ Sentence.cells left
  ∧ c ∈ MinesweeperAI.safes (demo_state 3)
  ∧ ∃ ai', @MinesweeperAI.mark_mine elements_order 50 (1, 1) (demo_state 2) = Some ai'
         ∧ MinesweeperAI.knowledge ai'
           = [Sentence.mk {[ (0, 3); (1, 1); (1, 2); (1, 3) ]} 1]
         ∧ (1, 1) ∈ MinesweeperAI.mines ai'.
Proof.
  intros c skipped left.
  split; [by vm_compute|]. split; [by vm_compute|]. split; [by vm_compute|].
  split; [set_solver|]. split; [apply demo_reachable|].
  split; [by vm_compute|]. split; [set_solver|].
  split; [apply (bool_decide_unpack _); by vm_compute|].
  exists (MinesweeperAI.mk 3 4 {[ (0, 0); (0, 2) ]} {[ (1, 1) ]}
            {[ (0, 0); (0, 1); (0, 2); (1, 0) ]}
            [Sentence.mk {[ (0, 3); (1, 1); (1, 2); (1, 3) ]} 1]).
  split; [by vm_compute|]. split; [done|]. set_solver.
Qed.

(** Reports that contradict one another can keep
    [conclude_infer_integrate] from returning.  On a board of one row and
    four columns, after (0, 1) was reported with the count 1 and again with
    the count 3, [knowledge] holds [{(0,0), (0,2)} = 1] and
    [{(0,0), (0,2)} = 3]; integrating [{(0,2)} = 5] then returns for no
    amount of fuel, and neither does [add_knowledge((0, 3), 5)], which
    integrates that sentence.  No game played by the contract gives such
    reports. *)
Lemma integrate_never_returns :
  for_each (λ r ai, @MinesweeperAI.add_knowledge elements_order 5 r.1 r.2 ai)
    [((0, 1), 1); ((0, 1), 3)] (MinesweeperAI.init 1 4) = Some ladder_state
  ∧ ¬ (∃ fuel ai', @MinesweeperAI.conclude_infer_integrate elements_order fuel
                     (Sentence.mk {[ (0, 2) ]} 5) ladder_state = Some ai')
  ∧ ¬ (∃ fuel ai', @MinesweeperAI.add_knowledge elements_order fuel (0, 3) 5
                     ladder_state = Some ai').
Proof.
  assert (∀ fuel ai, MinesweeperAI.knowledge ai = MinesweeperAI.knowledge ladder_state →
            @MinesweeperAI.conclude_infer_integrate elements_order fuel
              (Sentence.mk {[ (0, 2) ]} 5) ai = None) as Hnone.
  { intros fuel ai Hk.
    apply (proj1 (@ladder_diverges elements_order (0, 2) (0, 0) ltac:(done) fuel));
      [lia|]. exists []. by rewrite Hk. }
  split; [by vm_compute|]. split.
  - intros (fuel & ai' & Hrun). by rewrite Hnone in Hrun.
  - intros (fuel & ai' & Hrun). unfold MinesweeperAI.add_knowledge in Hrun.
    destruct (MinesweeperAI.mark_safe fuel _ _) as [ai1|] eqn:Hmark; [|done].
    assert (ai1 = MinesweeperAI.add_safe (MinesweeperAI.add_move ladder_state (0, 3)) (0, 3))
      as ->.
    { unfold MinesweeperAI.mark_safe in Hmark.
      destruct fuel as [|[|[|fuel]]]; [done|by vm_compute in Hmark..|].
      rewrite (mark_loop_next _ _ _ _ _ (Sentence.mk {[ (0, 2); (0, 0) ]} 1)) in Hmark
        by by vm_compute.
      rewrite (mark_loop_next _ _ _ _ _ (Sentence.mk {[ (0, 2); (0, 0) ]} 3)) in Hmark
        by by vm_compute.
      rewrite mark_loop_end in Hmark by done. by simplify_eq. }
    replace (MinesweeperAI.new_sentence _ _ _) with (Sentence.mk {[ (0, 2) ]} 5) in Hrun
      by by vm_compute.
    by rewrite Hnone in Hrun.
Qed.

(** Three cases in which [conclude_infer_integrate] is known to return.
    It returns at once for a sentence that is empty or already held; it
    returns for every sentence that shares no cell with the sentences held,
    so for every sentence when [knowledge] is empty; and in every game
    played by the contract on a board of at most six cells, whatever the
    layout of the mines and the order of the reveals, every call returns
    when sets are walked in the order of [elements].  Whether every game
    played by the contract returns on larger boards, or with sets walked in
    another order, is left open here. *)
Theorem integrate_terminates_when `{SetOrder} (s : Sentence.t) (ai : MinesweeperAI.t)
    (fuel : nat) :
  (s ∈ MinesweeperAI.knowledge ai ∨ Sentence.is_empty s = true →
   MinesweeperAI.conclude_infer_integrate (S fuel) s ai = Some ai) ∧
  (Forall unresolved (MinesweeperAI.knowledge ai) →
   (∀ x, x ∈ MinesweeperAI.knowledge ai → Sentence.cells x ## Sentence.cells s) →
   ∃ ai', MinesweeperAI.conclude_infer_integrate
            (2 + length (MinesweeperAI.knowledge ai) + fuel) s ai = Some ai') ∧
  (∀ (g : Minesweeper.t) (cs : list cell),
     0 < Minesweeper.height g → 0 < Minesweeper.width g →
     Minesweeper.height g * Minesweeper.width g ≤ 6 →
     (∀ c, c ∈ Minesweeper.mines g → Minesweeper.in_bounds g c = true) →
     NoDup cs →
     Forall (λ c, Minesweeper.in_bounds g c = true ∧ Minesweeper.is_mine g c = false) cs →
     ∃ ai', @play elements_order g 10 cs
              (MinesweeperAI.init (Minesweeper.height g) (Minesweeper.width g))
            = Some ai').
Proof.
  split; [apply conclude_infer_integrate_skip|].
  split; [apply integrate_independent|].
  apply small_board_play.
Qed.

Lemma integrate_terminates_when_witness :
  ∃ ai', @MinesweeperAI.conclude_infer_integrate elements_order
           (2 + length (MinesweeperAI.knowledge (demo_state 3)) + 0)
           (Sentence.mk {[ (2, 3) ]} 1) (demo_state 3) = Some ai'.
Proof.
  apply (proj1 (proj2 (@integrate_terminates_when elements_order
                         (Sentence.mk {[ (2, 3) ]} 1) (demo_state 3) 0))).
  - apply Forall_forall. intros x Hx.
    vm_compute in Hx. apply elem_of_cons in Hx as [->|Hx]; [by vm_compute|].
    apply list_elem_of_singleton in Hx as ->. by vm_compute.
  - intros x Hx.
    vm_compute in Hx. apply elem_of_cons in Hx as [->|Hx];
      [apply (bool_decide_unpack _); by vm_compute|].
    apply list_elem_of_singleton in Hx as ->.
    apply (bool_decide_unpack _); by vm_compute.
Defined.

(** * The rest of the program

    The move methods of the AI, the invariants that every call keeps, and
    the class [Minesweeper] with its board matrix. *)

(** ** The first item that passes a test *)
Lemma find_Some_first {A} (f : A → bool) l x :
  find f l = Some x →
  ∃ l1 l2, l = l1 ++ x :: l2 ∧ f x = true ∧ Forall (λ y, f y = false) l1.
Proof.
  induction l as [|y l IH]; [done|]. simpl.
  destruct (f y) eqn:Hy.
  - intros [= ->]. by exists [], l.
  - intros (l1 & l2 & -> & Hx & Hl1)%IH. exists (y :: l1), l2. by repeat constructor.
Qed.

Lemma find_None_all {A} (f : A → bool) l :
  find f l = None ↔ Forall (λ y, f y = false) l.
Proof.
  induction l as [|y l IH]; simpl; [by split; [constructor|]|].
  rewrite Forall_cons. destruct (f y); [|by rewrite IH; naive_solver].
  split; [done|]. by intros [? _].
Qed.

(** ** The order in which the board is walked *)
Lemma seqZ_sorted m n : StronglySorted Z.lt (seqZ m n).
Proof.
  destruct (decide (n ≤ 0)) as [|Hn]; [rewrite seqZ_nil by done; constructor|].
  rewrite <-(Z2Nat.id n) by lia. generalize (Z.to_nat n). clear. intros k.
  induction k as [|k IH]; [constructor|].
  rewrite seqZ_S. apply StronglySorted_app_2; [|done|repeat constructor].
  intros x1 x2 Hx1%elem_of_seqZ ->%list_elem_of_singleton. lia.
Qed.

Lemma board_cells_sorted h w : StronglySorted before (board_cells h w).
Proof.
  unfold board_cells. generalize (seqZ_sorted 0 h). generalize (seqZ 0 h).
  intros rows Hrows. induction Hrows as [|i rows Hrows IH Hi]; [constructor|].
  rewrite bind_cons. apply StronglySorted_app_2; [| |done].
  - intros c d (j & ->%list_elem_of_singleton & _)%list_elem_of_bind
      (i' & (j' & ->%list_elem_of_singleton & _)%list_elem_of_bind & Hi')%list_elem_of_bind.
    left. simpl. rewrite Forall_forall in Hi. by apply Hi.
  - generalize (seqZ_sorted 0 w). generalize (seqZ 0 w). intros cols Hcols.
    induction Hcols as [|j cols Hcols IHc Hj]; [constructor|].
    rewrite bind_cons. simpl. constructor; [done|].
    apply Forall_forall.
    intros d (j' & ->%list_elem_of_singleton & Hj')%list_elem_of_bind.
    right. simpl. rewrite Forall_forall in Hj. split; [done|by apply Hj].
Qed.

(** ** Replacing and removing in a list without repetition *)
Lemma elem_of_insert_inv {A} (x y : A) (l : list A) (i : nat) :
  x ∈ <[i := y]> l → x = y ∨ x ∈ l.
Proof.
  intros [j Hj]%list_elem_of_lookup.
  destruct (decide (i = j)) as [->|Hij].
  - apply list_lookup_insert_Some in Hj as [(_ & -> & _)|[? _]]; [by left|done].
  - rewrite list_lookup_insert_ne in Hj by done. right. by eapply list_elem_of_lookup_2.
Qed.

Lemma NoDup_insert_fresh {A} (y : A) (l : list A) (i : nat) :
  NoDup l → y ∉ l → NoDup (<[i := y]> l).
Proof.
  revert i. induction l as [|z l IH]; intros i Hl Hy; [by destruct i|].
  apply NoDup_cons in Hl as [Hz Hl]. apply not_elem_of_cons in Hy as [Hyz Hy].
  destruct i as [|i]; simpl; apply NoDup_cons; split; auto.
  intros [->|?]%elem_of_insert_inv; done.
Qed.

(** A sentence changed in place may now equal another one; [list.remove]
    then drops the first of the two, and no repetition is left. *)
Lemma NoDup_list_remove_insert {A} `{EqDecision A} (y : A) (l : list A) (i : nat) :
  NoDup l → NoDup (list_remove y (<[i := y]> l)).
Proof.
  revert i. induction l as [|z l IH]; intros i Hl; [by destruct i|].
  apply NoDup_cons in Hl as [Hz Hl].
  destruct i as [|i]; simpl.
  - by rewrite decide_True.
  - case_decide as Hzy.
    + subst z. by apply NoDup_insert_fresh.
    + apply NoDup_cons. split; [|auto].
      intros Hin%list_remove_insert_elem_of. done.
Qed.

(** ** No sentence is held twice *)
Section NoRepetition.
Import MinesweeperAI.
Context {order : SetOrder}.

Lemma NoDup_propagation fuel :
  (∀ prune c i ai ai',
      NoDup (knowledge ai) → mark_loop prune fuel c i ai = Some ai' →
      NoDup (knowledge ai')) ∧
  (∀ s ai ai',
      NoDup (knowledge ai) → conclude_infer_integrate fuel s ai = Some ai' →
      NoDup (knowledge ai')).
Proof.
  induction fuel as [|fuel [IHm IHc]]; [by split|]. split.
  - intros prune c i ai ai' Hai. rewrite mark_loop_S.
    destruct (knowledge ai !! i) as [s|] eqn:Hi; [|by intros [= <-]].
    destruct (prune s c) as [s' [|]] eqn:Hp; [|by eauto].
    destruct (conclude_infer_integrate fuel s' _) as [ai1|] eqn:Hc; [|done].
    apply IHm. eapply IHc; [|exact Hc]. fields. by apply NoDup_list_remove_insert.
  - intros s ai ai' Hai. rewrite conclude_infer_integrate_S.
    destruct (bool_decide (s ∈ knowledge ai)) eqn:Hin; simpl; [by intros [= <-]|].
    destruct (Sentence.is_empty s) eqn:He; [by intros [= <-]|].
    apply bool_decide_eq_false in Hin.
    destruct (is_conclusive fuel s ai) as [[[|] ai1]|] eqn:Hconc; [| |done].
    + intros [= <-]. apply is_conclusive_true in Hconc as [[_ Hrun]|[_ Hrun]];
        (eapply (for_each_inv _ (λ a, NoDup (knowledge a)) (λ _, True));
         [|by apply Forall_true|done|exact Hrun]);
        intros c a a' _ Ha; by apply IHm.
    + apply is_conclusive_false in Hconc as (-> & _ & _).
      apply (for_each_inv _ (λ a, NoDup (knowledge a)) (λ _, True));
        [by eauto|by apply Forall_true|].
      fields. apply NoDup_app. repeat split; [done| |apply NoDup_singleton].
      by intros x Hx ->%list_elem_of_singleton.
Qed.

End NoRepetition.

(** ** What [add_knowledge] adds *)
Section Reports.
Import MinesweeperAI.
Context {order : SetOrder}.

Lemma add_knowledge_grows fuel c count ai ai' :
  add_knowledge fuel c count ai = Some ai' →
  height ai' = height ai ∧ width ai' = width ai ∧
  moves_made ai' = moves_made ai ∪ {[c]} ∧
  safes ai ∪ {[c]} ⊆ safes ai' ∧ mines ai ⊆ mines ai'.
Proof.
  unfold add_knowledge.
  destruct (mark_safe fuel c (add_move ai c)) as [ai1|] eqn:Hmark; [|done].
  intros [Hh Hw Hmv Hs Hm]%conclude_infer_integrate_grows.
  apply mark_safe_grows in Hmark as [Hh1 Hw1 Hmv1 Hs1 Hm1].
  revert Hh1 Hw1 Hmv1 Hs1 Hm1. fields. intros Hh1 Hw1 Hmv1 Hs1 Hm1.
  repeat split; [congruence|congruence|congruence|set_solver|set_solver].
Qed.

Lemma add_all_moves fuel reports ai ai' :
  add_all fuel reports ai = Some ai' →
  height ai' = height ai ∧ width ai' = width ai ∧
  moves_made ai' = moves_made ai ∪ list_to_set reports.*1 ∧
  safes ai ⊆ safes ai' ∧ mines ai ⊆ mines ai'.
Proof.
  unfold add_all. revert ai. induction reports as [|[c n] reports IH]; intros ai.
  { intros [= <-]. repeat split; set_solver. }
  cbn [for_each fst snd].
  destruct (add_knowledge fuel c n ai) as [ai1|] eqn:Hadd; [|done].
  apply add_knowledge_grows in Hadd as (Hh & Hw & Hmv & Hs & Hm).
  intros (Hh' & Hw' & Hmv' & Hs' & Hm')%IH.
  repeat split; [congruence|congruence| |set_solver|set_solver].
  rewrite Hmv', Hmv. set_solver.
Qed.

Lemma play_add_all g fuel cs ai :
  play g fuel cs ai
  = add_all fuel ((λ c, (c, Minesweeper.nearby_mines g c)) <$> cs) ai.
Proof.
  unfold play, add_all. revert ai. induction cs as [|c cs IH]; intros ai; [done|].
  cbn [for_each fmap list_fmap fst snd]. destruct (add_knowledge _ _ _ _); [apply IH|done].
Qed.

End Reports.

(** ** Every cell recorded is on the board *)
Section OnBoard.
Import MinesweeperAI.
Context {order : SetOrder}.
Variables h w : Z.

Notation inside := (λ s : Sentence.t, ∀ c, c ∈ Sentence.cells s → on_board h w c).

Lemma within_propagation fuel :
  (∀ c ai ai', on_board h w c → within h w ai →
               mark_mine fuel c ai = Some ai' → within h w ai') ∧
  (∀ c ai ai', on_board h w c → within h w ai →
               mark_safe fuel c ai = Some ai' → within h w ai') ∧
  (∀ s ai ai', inside s → within h w ai →
               conclude_infer_integrate fuel s ai = Some ai' → within h w ai').
Proof.
  assert (∀ ai c, within h w ai → on_board h w c → within h w (add_mine ai c)) as Hadd_mine.
  { intros ai c [] Hc. split; fields; try done. set_solver. }
  assert (∀ ai c, within h w ai → on_board h w c → within h w (add_safe ai c)) as Hadd_safe.
  { intros ai c [] Hc. split; fields; try done. set_solver. }
  assert (∀ ai kn, within h w ai → (∀ x, x ∈ kn → x ∈ knowledge ai) →
                   within h w (set_knowledge ai kn)) as Hdrop.
  { intros ai kn [? ? ? ? ? Hk] Hsub. split; fields; try done.
    rewrite Forall_forall in Hk |- *. eauto. }
  assert (∀ ai s, within h w ai → inside s → s ∉ knowledge ai →
                  within h w (set_knowledge ai (knowledge ai ++ [s]))) as Happend.
  { intros ai s [] Hs _. split; fields; try done.
    apply Forall_app. split; [done|]. by apply Forall_singleton. }
  assert (∀ ai s, within h w ai → s ∈ knowledge ai → inside s) as Hheld.
  { intros ai s [? ? ? ? ? Hk] Hs. rewrite Forall_forall in Hk. eauto. }
  assert (∀ s o inf, inside s → inside o → inference s o = Some inf → inside inf) as Hinf.
  { intros s o inf Hs Ho. unfold inference.
    repeat case_bool_decide; intros [= <-]; fields; set_solver. }
  assert (∀ s c, inside s → on_board h w c → c ∈ Sentence.cells s →
                 inside (Sentence.mark_mine s c).1) as Hpm.
  { intros s c Hs _ Hc. unfold Sentence.mark_mine. rewrite bool_decide_true by done.
    fields. set_solver. }
  assert (∀ s c, inside s → on_board h w c → c ∈ Sentence.cells s →
                 inside (Sentence.mark_safe s c).1) as Hps.
  { intros s c Hs _ Hc. unfold Sentence.mark_safe. rewrite bool_decide_true by done.
    fields. set_solver. }
  split; [|split]; intros ? ai ai' ? Hai Hrun.
  - eapply (mark_mine_inv (within h w) inside inside (on_board h w) (on_board h w)); eauto.
  - eapply (mark_safe_inv (within h w) inside inside (on_board h w) (on_board h w)); eauto.
  - eapply (conclude_infer_integrate_inv (within h w) inside inside
              (on_board h w) (on_board h w)); eauto.
Qed.

Lemma within_add_knowledge fuel c count ai ai' :
  on_board h w c → within h w ai →
  add_knowledge fuel c count ai = Some ai' → within h w ai'.
Proof.
  intros Hc Hai. unfold add_knowledge.
  destruct (mark_safe fuel c (add_move ai c)) as [ai1|] eqn:Hmark; [|done].
  assert (within h w ai1) as Hai1.
  { eapply (proj1 (proj2 (within_propagation fuel))); [done| |done].
    destruct Hai. split; fields; try done. set_solver. }
  apply (proj2 (proj2 (within_propagation fuel))); [|done].
  intros d. rewrite new_sentence_cells, elem_of_list_to_set, list_elem_of_filter.
  rewrite elem_of_window. destruct Hai1 as [-> -> _ _ _ _]. unfold on_board. tauto.
Qed.

Lemma within_add_all fuel reports ai ai' :
  Forall (λ r, on_board h w r.1) reports → within h w ai →
  add_all fuel reports ai = Some ai' → within h w ai'.
Proof.
  intros Hr Hai. unfold add_all.
  apply (for_each_inv _ (within h w) (λ r, on_board h w r.1)); [|done..].
  intros r a a' Hc Ha. by apply within_add_knowledge.
Qed.

Lemma within_init : within h w (init h w).
Proof. split; fields; try done; set_solver. Qed.

End OnBoard.

(** ** What every call keeps *)
Section Calls.
Import MinesweeperAI.
Context {order : SetOrder}.

(** A property of the state that the loops of marking and the integration
    keep is kept by every call. *)
Lemma call_inv (J : t → Prop) :
  (∀ ai c, J ai → J (add_mine ai c)) →
  (∀ ai c, J ai → J (add_safe ai c)) →
  (∀ ai c, J ai → J (add_move ai c)) →
  (∀ fuel prune c i ai ai', J ai → mark_loop prune fuel c i ai = Some ai' → J ai') →
  (∀ fuel s ai ai', J ai → conclude_infer_integrate fuel s ai = Some ai' → J ai') →
  ∀ ai ai', call ai ai' → J ai → J ai'.
Proof.
  intros Hmine Hsafe Hmove Hloop Hint ai ai' Hcall Hai.
  assert (∀ fuel c a a', J a → mark_safe fuel c a = Some a' → J a') as Hms.
  { intros fuel c a a' Ha. unfold mark_safe. apply Hloop. by apply Hsafe. }
  assert (∀ fuel c a a', J a → mark_mine fuel c a = Some a' → J a') as Hmm.
  { intros fuel c a a' Ha. unfold mark_mine. apply Hloop. by apply Hmine. }
  destruct Hcall as [fuel c Hrun|fuel c Hrun|fuel s [|] Hrun|fuel s Hrun|fuel c n Hrun];
    eauto.
  - apply is_conclusive_true in Hrun as [[_ Hrun]|[_ Hrun]];
      (eapply (for_each_inv _ J (λ _, True)); [|by apply Forall_true|done|exact Hrun]);
      eauto.
  - by apply is_conclusive_false in Hrun as [-> _].
  - unfold add_knowledge in Hrun.
    destruct (mark_safe fuel c (add_move ai c)) as [ai1|] eqn:Hmark; [|done].
    eapply Hint; [|done]. eapply Hms; [|done]. by apply Hmove.
Qed.

Lemma unresolved_inv fuel :
  (∀ prune c i ai ai',
      Forall unresolved (knowledge ai) → mark_loop prune fuel c i ai = Some ai' →
      Forall unresolved (knowledge ai')) ∧
  (∀ s ai ai',
      Forall unresolved (knowledge ai) → conclude_infer_integrate fuel s ai = Some ai' →
      Forall unresolved (knowledge ai')).
Proof.
  destruct (propagation_inv (λ ai, Forall unresolved (knowledge ai)) unresolved
              (λ _, True) (λ _, True) (λ _, True)) with (fuel := fuel) as [Hm Hc];
    try done.
  - intros a kn Ha Hsub. fields. rewrite Forall_forall in Ha |- *. eauto.
  - intros a x Ha Hx _. fields. apply Forall_app. split; [done|]. by apply Forall_singleton.
  - intros a x Ha Hx. rewrite Forall_forall in Ha. eauto.
  - intros x _ He Hsafes Hmines. split; [done|]. unfold resolvable.
    by rewrite Hsafes, Hmines.
  - split; [|by eauto]. intros prune c i ai ai'. by apply Hm.
Qed.

Lemma call_grows ai ai' : call ai ai' → grows ai ∅ ∅ ai' ∨ ∃ c, grows (add_move ai c) ∅ ∅ ai'.
Proof.
  intros [fuel c Hrun|fuel c Hrun|fuel s b Hrun|fuel s Hrun|fuel c n Hrun].
  - left. apply mark_mine_grows in Hrun as []. split; set_solver.
  - left. apply mark_safe_grows in Hrun as []. split; set_solver.
  - left. destruct b.
    + apply is_conclusive_true in Hrun as [[_ Hrun]|[_ Hrun]];
        (eapply (for_each_inv _ (grows ai ∅ ∅) (λ _, True));
         [|by apply Forall_true|apply grows_refl|exact Hrun]);
        intros c a a' _ Ha Hmark.
      * apply (proj1 (grows_inv ai ∅ ∅ fuel)) in Hmark; [done|].
        destruct Ha. split; fields; try done. set_solver.
      * apply (proj1 (grows_inv ai ∅ ∅ fuel)) in Hmark; [done|].
        destruct Ha. split; fields; try done. set_solver.
    + apply is_conclusive_false in Hrun as [-> _]. apply grows_refl.
  - left. by apply conclude_infer_integrate_grows in Hrun.
  - right. exists c. unfold add_knowledge in Hrun.
    destruct (mark_safe fuel c (add_move ai c)) as [ai1|] eqn:Hmark; [|done].
    apply conclude_infer_integrate_grows in Hrun as [Hh Hw Hmv Hs Hm].
    apply mark_safe_grows in Hmark as [Hh1 Hw1 Hmv1 Hs1 Hm1].
    split; [congruence|congruence|congruence|set_solver|set_solver].
Qed.

End Calls.

(** ** Marking cells while no sentence is held *)
Section Fresh.
Import MinesweeperAI.
Context {order : SetOrder}.

Lemma for_each_mark_safe_empty fuel l ai :
  knowledge ai = [] →
  for_each (mark_safe (S fuel)) l ai
  = Some (mk (height ai) (width ai) (moves_made ai) (mines ai)
             (safes ai ∪ list_to_set l) []).
Proof.
  revert ai. induction l as [|c l IH]; intros ai Hk.
  - simpl. destruct ai as [? ? ? ? sf ?]. simpl in *. subst. do 2 f_equal. set_solver.
  - cbn [for_each]. unfold mark_safe at 1. rewrite mark_loop_end by (fields; by rewrite Hk).
    rewrite IH by done. fields. do 2 f_equal. set_solver.
Qed.

Lemma for_each_mark_mine_empty fuel l ai :
  knowledge ai = [] →
  for_each (mark_mine (S fuel)) l ai
  = Some (mk (height ai) (width ai) (moves_made ai) (mines ai ∪ list_to_set l)
             (safes ai) []).
Proof.
  revert ai. induction l as [|c l IH]; intros ai Hk.
  - simpl. destruct ai as [? ? ? mn ? ?]. simpl in *. subst. do 2 f_equal. set_solver.
  - cbn [for_each]. unfold mark_mine at 1. rewrite mark_loop_end by (fields; by rewrite Hk).
    rewrite IH by done. fields. do 2 f_equal. set_solver.
Qed.

Lemma list_to_set_set_iter (X : gset cell) : list_to_set (set_iter X) = X.
Proof. apply set_eq. intros c. by rewrite elem_of_list_to_set, elem_of_set_iter. Qed.

End Fresh.

Lemma filter_none {A} (P : A → Prop) `{∀ x, Decision (P x)} (l : list A) :
  (∀ x, x ∈ l → ¬ P x) → filter P l = [].
Proof.
  induction l as [|x l IH]; [done|]. intros Hl.
  rewrite filter_cons_False by (apply Hl, list_elem_of_here).
  apply IH. intros y Hy. by apply Hl, list_elem_of_further.
Qed.

(** ** The two move methods *)
Lemma make_safe_move_spec `{SetOrder} (ai : MinesweeperAI.t) :
  match make_safe_move ai with
  | Some c => c ∈ MinesweeperAI.safes ai ∧ c ∉ MinesweeperAI.moves_made ai
  | None => MinesweeperAI.safes ai ⊆ MinesweeperAI.moves_made ai
  end.
Proof.
  unfold make_safe_move.
  destruct (find _ _) as [c|] eqn:Hfind.
  - apply find_some in Hfind as [Hc%list_elem_of_In%elem_of_set_iter Hf].
    by apply bool_decide_eq_true in Hf.
  - rewrite find_None_all, Forall_forall in Hfind.
    intros c Hc%elem_of_set_iter%Hfind. apply bool_decide_eq_false in Hc.
    by apply dec_stable.
Qed.

Lemma make_random_move_spec (ai : MinesweeperAI.t) :
  let on (c : cell) := on_board (MinesweeperAI.height ai) (MinesweeperAI.width ai) c in
  let free (c : cell) :=
    c ∉ MinesweeperAI.moves_made ai ∧ c ∉ MinesweeperAI.mines ai in
  match make_random_move ai with
  | Some c => on c ∧ free c ∧ ∀ d, on d → free d → d = c ∨ before c d
  | None => ∀ d, on d → ¬ free d
  end.
Proof.
  intros on free. unfold make_random_move.
  assert (∀ c, (bool_decide (c ∉ MinesweeperAI.moves_made ai)
                && bool_decide (c ∉ MinesweeperAI.mines ai)) = true ↔ free c) as Hfree.
  { intros c. by rewrite andb_true_iff, !bool_decide_eq_true. }
  destruct (find _ _) as [c|] eqn:Hfind.
  - apply find_Some_first in Hfind as (l1 & l2 & Hl & Hc%Hfree & Hl1).
    pose proof (board_cells_sorted (MinesweeperAI.height ai) (MinesweeperAI.width ai))
      as Hsorted.
    rewrite Hl in Hsorted.
    split; [|split; [done|]].
    { apply elem_of_board_cells. rewrite Hl. set_solver. }
    intros d Hd%elem_of_board_cells Hfd. rewrite Hl in Hd.
    apply elem_of_app in Hd as [Hd|Hd].
    + rewrite Forall_forall in Hl1. apply Hl1 in Hd. apply Hfree in Hfd. congruence.
    + apply elem_of_cons in Hd as [->|Hd]; [by left|]. right.
      apply StronglySorted_app_1_r, StronglySorted_cons in Hsorted as [Hc2 _].
      rewrite Forall_forall in Hc2. by apply Hc2.
  - rewrite find_None_all, Forall_forall in Hfind.
    intros d Hd%elem_of_board_cells%Hfind Hfd%Hfree. congruence.
Qed.


(** ** Calls only add *)
Lemma calls_grow `{SetOrder} (ai ai' : MinesweeperAI.t) :
  rtc call ai ai' →
  MinesweeperAI.height ai' = MinesweeperAI.height ai ∧
  MinesweeperAI.width ai' = MinesweeperAI.width ai ∧
  MinesweeperAI.moves_made ai ⊆ MinesweeperAI.moves_made ai' ∧
  MinesweeperAI.safes ai ⊆ MinesweeperAI.safes ai' ∧
  MinesweeperAI.mines ai ⊆ MinesweeperAI.mines ai'.
Proof.
  induction 1 as [|ai ai1 ai' Hcall _ (Hh & Hw & Hmv & Hs & Hm)]; [done|].
  apply call_grows in Hcall as [[Hh1 Hw1 Hmv1 Hs1 Hm1]|[c [Hh1 Hw1 Hmv1 Hs1 Hm1]]];
    revert Hh1 Hw1 Hmv1 Hs1 Hm1; fields; intros Hh1 Hw1 Hmv1 Hs1 Hm1;
    (repeat split; [congruence|congruence|set_solver..]).
Qed.


(** ** What a game played by the contract has reached *)
Section PlayFacts.
Import MinesweeperAI.
Context {order : SetOrder}.

Lemma play_facts g fuel cs ai :
  Forall (λ c, Minesweeper.in_bounds g c = true ∧ Minesweeper.is_mine g c = false) cs →
  play g fuel cs (init (Minesweeper.height g) (Minesweeper.width g)) = Some ai →
  sound g ai ∧ within (Minesweeper.height g) (Minesweeper.width g) ai ∧
  moves_made ai = list_to_set cs.
Proof.
  intros Hcs Hplay. split; [|split].
  - apply reachable_sound. eapply play_reachable; [done|apply reachable_init|done].
  - rewrite play_add_all in Hplay. eapply within_add_all; [|apply within_init|done].
    apply Forall_fmap. eapply Forall_impl; [done|].
    intros c [[Hi Hj]%andb_true_iff _]. split; simpl; by eapply bool_decide_eq_true.
  - rewrite play_add_all in Hplay. apply add_all_moves in Hplay as (_ & _ & -> & _).
    assert (((λ c, (c, Minesweeper.nearby_mines g c)) <$> cs).*1 = cs) as ->;
      [|set_solver].
    clear. induction cs as [|c cs IH]; [done|]. csimpl. by rewrite IH.
Qed.

End PlayFacts.

(** ** The loop that collects the inferences *)
Section InferSpec.
Import MinesweeperAI.

Lemma infer_spec_acc s kn others acc :
  NoDup acc →
  NoDup (infer s kn others acc) ∧
  ∀ inf, inf ∈ infer s kn others acc ↔
         inf ∈ acc ∨ (inf ∉ kn ∧ ∃ o, o ∈ others ∧ inference s o = Some inf).
Proof.
  revert acc. induction others as [|o others IH]; intros acc Hacc.
  { split; [done|]. intros inf. split; [by left|]. intros [?|(_ & o & []%elem_of_nil & _)]; done. }
  cbn [infer]. destruct (inference s o) as [x|] eqn:Hx.
  - destruct (bool_decide (x ∈ acc)) eqn:Hin; cbn [negb andb].
    { apply bool_decide_eq_true in Hin. destruct (IH acc Hacc) as [Hnd Hiff].
      split; [done|]. intros inf. rewrite Hiff. split.
      - intros [?|(? & o' & ? & ?)]; [by left|right]. split; [done|].
        exists o'. split; [by apply list_elem_of_further|done].
      - intros [?|(? & o' & [->|?]%elem_of_cons & Ho')]; [by left| |].
        + left. congruence.
        + right. eauto. }
    apply bool_decide_eq_false in Hin.
    destruct (bool_decide (x ∈ kn)) eqn:Hkn; cbn [negb].
    { apply bool_decide_eq_true in Hkn. destruct (IH acc Hacc) as [Hnd Hiff].
      split; [done|]. intros inf. rewrite Hiff. split.
      - intros [?|(? & o' & ? & ?)]; [by left|right]. split; [done|].
        exists o'. split; [by apply list_elem_of_further|done].
      - intros [?|(Hnot & o' & [->|?]%elem_of_cons & Ho')]; [by left| |].
        + congruence.
        + right. eauto. }
    apply bool_decide_eq_false in Hkn.
    destruct (IH (acc ++ [x])) as [Hnd Hiff].
    { apply NoDup_app. repeat split; [done| |apply NoDup_singleton].
      by intros y Hy ->%list_elem_of_singleton. }
    split; [done|]. intros inf. rewrite Hiff, elem_of_app, list_elem_of_singleton. split.
    + intros [[?| ->]|(? & o' & ? & ?)]; [by left| |].
      * right. split; [done|]. exists o. split; [apply list_elem_of_here|done].
      * right. split; [done|]. exists o'. split; [by apply list_elem_of_further|done].
    + intros [?|(Hnot & o' & [->|?]%elem_of_cons & Ho')]; [by left; left| |].
      * left. right. congruence.
      * right. eauto.
  - destruct (IH acc Hacc) as [Hnd Hiff]. split; [done|]. intros inf. rewrite Hiff. split.
    + intros [?|(? & o' & ? & ?)]; [by left|right]. split; [done|].
      exists o'. split; [by apply list_elem_of_further|done].
    + intros [?|(Hnot & o' & [->|?]%elem_of_cons & Ho')]; [by left| |].
      * congruence.
      * right. eauto.
Qed.

End InferSpec.

(** ** Sentences against a layout of mines *)
Section Truth.
Variable M : gset cell.

Lemma holds_mark_mine_inv s c :
  holds M s → c ∈ Sentence.cells s → holds M (Sentence.mark_mine s c).1 → c ∈ M.
Proof.
  unfold holds, Sentence.mark_mine. intros Hs Hc. rewrite bool_decide_true by done.
  fields. intros Hs'. destruct (decide (c ∈ M)) as [|Hm]; [done|exfalso].
  replace ((Sentence.cells s ∖ {[c]}) ∩ M) with (Sentence.cells s ∩ M) in Hs' by set_solver.
  lia.
Qed.

Lemma holds_mark_safe_inv s c :
  holds M s → c ∈ Sentence.cells s → holds M (Sentence.mark_safe s c).1 → c ∉ M.
Proof.
  unfold holds, Sentence.mark_safe. intros Hs Hc. rewrite bool_decide_true by done.
  fields. intros Hs' Hm.
  replace ((Sentence.cells s ∖ {[c]}) ∩ M) with ((Sentence.cells s ∩ M) ∖ {[c]})
    in Hs' by set_solver.
  rewrite size_difference, size_singleton in Hs' by set_solver.
  assert (size (Sentence.cells s ∩ M) ≠ 0)%nat.
  { intros Hsz%size_empty_iff. set_solver. }
  lia.
Qed.

Lemma holds_all_mines s :
  holds M s → Sentence.cells s ⊆ M → Sentence.count s = Sentence.len s.
Proof.
  unfold holds, Sentence.len. intros -> Hsub. do 2 f_equal. set_solver.
Qed.

Lemma holds_no_mines s :
  holds M s → Sentence.cells s ## M → Sentence.count s = 0.
Proof.
  unfold holds. intros -> Hd.
  replace (Sentence.cells s ∩ M) with (∅ : gset cell) by set_solver.
  by rewrite size_empty.
Qed.

End Truth.

(** ** Marking every cell of a set *)
Section MarkAll.
Import MinesweeperAI.
Context {order : SetOrder}.

Lemma for_each_mark_safe_all fuel l ai ai' :
  for_each (mark_safe fuel) l ai = Some ai' →
  safes ai ∪ list_to_set l ⊆ safes ai' ∧ mines ai ⊆ mines ai'.
Proof.
  revert ai. induction l as [|c l IH]; intros ai.
  { intros [= <-]. set_solver. }
  cbn [for_each]. destruct (mark_safe fuel c ai) as [ai1|] eqn:Hmark; [|done].
  apply mark_safe_grows in Hmark as [_ _ _ Hs Hm].
  intros [Hs' Hm']%IH. set_solver.
Qed.

Lemma for_each_mark_mine_all fuel l ai ai' :
  for_each (mark_mine fuel) l ai = Some ai' →
  mines ai ∪ list_to_set l ⊆ mines ai' ∧ safes ai ⊆ safes ai'.
Proof.
  revert ai. induction l as [|c l IH]; intros ai.
  { intros [= <-]. set_solver. }
  cbn [for_each]. destruct (mark_mine fuel c ai) as [ai1|] eqn:Hmark; [|done].
  apply mark_mine_grows in Hmark as [_ _ _ Hs Hm].
  intros [Hs' Hm']%IH. set_solver.
Qed.

End MarkAll.

(** ** Python indices *)
Lemma py_position_inside len i :
  0 ≤ i < Z.of_nat len → py_position len i = Some (Z.to_nat i).
Proof. intros Hi. unfold py_position. by rewrite bool_decide_true. Qed.

Lemma py_position_mod len i :
  py_position len i =
  if bool_decide (- Z.of_nat len ≤ i < Z.of_nat len)
  then Some (Z.to_nat (i `mod` Z.of_nat len)) else None.
Proof.
  unfold py_position. repeat case_bool_decide; try lia; try done.
  - by rewrite Z.mod_small.
  - do 2 f_equal. apply Z.mod_unique with (-1); lia.
Qed.

Lemma py_get_inside {A} (l : list A) i :
  0 ≤ i < Z.of_nat (length l) → py_get l i = l !! Z.to_nat i.
Proof. intros Hi. unfold py_get. by rewrite py_position_inside. Qed.

Lemma py_get_mod {A} (l : list A) i :
  py_get l i =
  if bool_decide (- Z.of_nat (length l) ≤ i < Z.of_nat (length l))
  then l !! Z.to_nat (i `mod` Z.of_nat (length l)) else None.
Proof. unfold py_get. rewrite py_position_mod. by case_bool_decide. Qed.

(** ** The board matrix *)
Section Matrix.
Variables h w : Z.

Lemma foldl_append {A B} (x : A) (l : list B) acc :
  foldl (λ row _, row ++ [x]) acc l = acc ++ replicate (length l) x.
Proof.
  revert acc. induction l as [|y l IH]; intros acc; simpl; [by rewrite app_nil_r|].
  rewrite IH. by rewrite <-app_assoc.
Qed.

Lemma empty_board_replicate :
  Board.empty_board h w = replicate (Z.to_nat h) (replicate (Z.to_nat w) false).
Proof.
  unfold Board.empty_board. rewrite foldl_append, !length_seqZ. simpl.
  f_equal. by rewrite foldl_append, length_seqZ.
Qed.

Lemma get_lookup (bd : list (list bool)) c :
  length bd = Z.to_nat h → Forall (λ row, length row = Z.to_nat w) bd →
  on_board h w c →
  ∃ row, bd !! Z.to_nat c.1 = Some row ∧ length row = Z.to_nat w ∧
         Board.get bd c.1 c.2 = row !! Z.to_nat c.2.
Proof.
  intros Hrows Hcols [Hi Hj].
  destruct (lookup_lt_is_Some_2 bd (Z.to_nat c.1)) as [row Hrow]; [lia|].
  exists row. rewrite Forall_forall in Hcols.
  assert (length row = Z.to_nat w) as Hlen by eauto using list_elem_of_lookup_2.
  split; [done|]. split; [done|].
  unfold Board.get. rewrite py_get_inside by lia. rewrite Hrow. simpl.
  apply py_get_inside. lia.
Qed.

Lemma synced_empty : synced h w (∅, Board.empty_board h w).
Proof.
  rewrite empty_board_replicate. split; simpl.
  - by rewrite length_replicate.
  - apply Forall_replicate. by rewrite length_replicate.
  - intros c Hc.
    destruct (get_lookup (replicate (Z.to_nat h) (replicate (Z.to_nat w) false)) c)
      as (row & Hrow & Hlen & ->); [by rewrite length_replicate| |done|].
    { apply Forall_replicate. by rewrite length_replicate. }
    apply lookup_replicate in Hrow as [-> _].
    rewrite lookup_replicate_2 by (destruct Hc; lia).
    by rewrite bool_decide_false by set_solver.
  - set_solver.
Qed.

Lemma synced_set_true ms bd c :
  synced h w (ms, bd) → on_board h w c →
  ∃ bd', Board.set_true bd c.1 c.2 = Some bd' ∧ synced h w (ms ∪ {[c]}, bd').
Proof.
  intros [Hrows Hcols Hget Hon] Hc. simpl in *.
  destruct (get_lookup bd c Hrows Hcols Hc) as (row & Hrow & Hlen & _).
  pose proof Hc as [Hi Hj].
  exists (<[Z.to_nat c.1 := <[Z.to_nat c.2 := true]> row]> bd).
  split.
  { unfold Board.set_true. rewrite py_get_inside by lia. rewrite Hrow. simpl.
    unfold py_set. rewrite py_position_inside by lia. simpl.
    by rewrite py_position_inside by lia. }
  assert (Forall (λ row, length row = Z.to_nat w)
            (<[Z.to_nat c.1 := <[Z.to_nat c.2 := true]> row]> bd)) as Hcols'.
  { apply Forall_insert; [done|]. by rewrite length_insert. }
  split; simpl.
  - by rewrite length_insert.
  - done.
  - intros d Hd.
    destruct (get_lookup _ d (eq_trans (length_insert _ _ _) Hrows) Hcols' Hd)
      as (row' & Hrow' & Hlen' & ->).
    specialize (Hget d Hd).
    destruct (get_lookup bd d Hrows Hcols Hd) as (row0 & Hrow0 & _ & Hget0).
    rewrite Hget0 in Hget. destruct Hd as [Hdi Hdj].
    destruct (decide (d.1 = c.1)) as [Heq1|Hne1].
    + rewrite Heq1 in *. rewrite list_lookup_insert_eq in Hrow' by lia.
      injection Hrow' as <-. rewrite Hrow in Hrow0. injection Hrow0 as <-.
      destruct (decide (d.2 = c.2)) as [Heq2|Hne2].
      * rewrite Heq2. rewrite list_lookup_insert_eq by lia.
        rewrite bool_decide_true; [done|].
        destruct c, d; simpl in *; subst; set_solver.
      * rewrite list_lookup_insert_ne by lia. rewrite Hget. f_equal.
        apply bool_decide_ext. destruct c, d; simpl in *. set_solver.
    + rewrite list_lookup_insert_ne in Hrow' by lia.
      rewrite Hrow0 in Hrow'. injection Hrow' as <-. rewrite Hget. f_equal.
      apply bool_decide_ext. destruct c, d; simpl in *. set_solver.
  - intros d [Hd| ->%elem_of_singleton]%elem_of_union; auto.
Qed.

End Matrix.

(** ** The loop that places the mines *)
Section Place.
Variables h w n : Z.

(** One turn of the loop on a state that is in step with its matrix. *)
Lemma place_turn r draws st :
  0 < h → 0 < w → synced h w st → Z.of_nat (size st.1) ≠ n →
  let c := (r.1 `mod` h, r.2 `mod` w) in
  on_board h w c ∧
  ∃ st', synced h w st' ∧ st'.1 = st.1 ∪ {[c]} ∧
         Board.place h w n (r :: draws) st = Board.place h w n draws st'.
Proof.
  intros Hh Hw Hst Hsize c.
  assert (on_board h w c) as Hc.
  { split; simpl; by apply Z.mod_pos_bound. }
  split; [done|].
  cbn [Board.place]. rewrite bool_decide_false by done.
  unfold Board.randrange. rewrite !bool_decide_true by done.
  pose proof (synced_get h w st Hst c Hc) as Hget. cbn [fst snd c] in Hget.
  rewrite Hget. clear Hget.
  destruct (decide (c ∈ st.1)) as [Hin|Hin].
  - rewrite bool_decide_true by done. exists st. split; [done|]. split; [set_solver|done].
  - rewrite bool_decide_false by done. destruct st as [ms bd].
    destruct (synced_set_true h w ms bd c Hst Hc) as (bd' & Hset & Hst').
    cbn [fst snd c] in Hset |- *. rewrite Hset.
    by exists (ms ∪ {[c]}, bd').
Qed.

Lemma place_inv draws st st' :
  synced h w st → Board.place h w n draws st = Board.Returns st' →
  synced h w st' ∧ Z.of_nat (size st'.1) = n ∧
  st.1 ⊆ st'.1 ∧ st'.1 ⊆ st.1 ∪ list_to_set (drawn h w draws).
Proof.
  revert st. induction draws as [|r draws IH]; intros st Hst.
  { cbn [Board.place]. case_bool_decide; [|done]. intros [= <-].
    split; [done|]. split; [done|]. split; [done|set_solver]. }
  destruct (decide (Z.of_nat (size st.1) = n)) as [Hn|Hn].
  { cbn [Board.place]. rewrite bool_decide_true by done. intros [= <-].
    split; [done|]. split; [done|]. split; [done|set_solver]. }
  destruct (decide (0 < h)) as [Hh|Hh]; cycle 1.
  { cbn [Board.place]. rewrite bool_decide_false by done.
    unfold Board.randrange. by rewrite bool_decide_false. }
  destruct (decide (0 < w)) as [Hw|Hw]; cycle 1.
  { cbn [Board.place]. rewrite bool_decide_false by done.
    unfold Board.randrange. rewrite bool_decide_true by done.
    by rewrite bool_decide_false. }
  destruct (place_turn r draws st Hh Hw Hst Hn) as (_ & st1 & Hst1 & Hms & ->).
  intros (Hs' & Hsz & Hsub1 & Hsub2)%IH; [|done].
  split; [done|]. split; [done|].
  unfold drawn in *. rewrite fmap_cons, list_to_set_cons.
  rewrite Hms in Hsub1, Hsub2. clear -Hsub1 Hsub2. set_solver.
Qed.

(** Whether the loop comes to an end. *)
Lemma place_ends draws st :
  0 < h → 0 < w → synced h w st → Z.of_nat (size st.1) ≤ n →
  if bool_decide (n ≤ Z.of_nat (size (st.1 ∪ list_to_set (drawn h w draws))))
  then ∃ st', Board.place h w n draws st = Board.Returns st'
  else Board.place h w n draws st = Board.Running.
Proof.
  intros Hh Hw. revert st. induction draws as [|r draws IH]; intros st Hst Hle.
  { cbn [Board.place]. unfold drawn. simpl.
    replace (st.1 ∪ ∅) with st.1 by set_solver.
    repeat case_bool_decide; eauto; lia. }
  destruct (decide (Z.of_nat (size st.1) = n)) as [Hn|Hn].
  { cbn [Board.place]. rewrite (bool_decide_true (_ = _)) by done.
    rewrite bool_decide_true; [by eauto|].
    assert (size st.1 ≤ size (st.1 ∪ list_to_set (drawn h w (r :: draws))))%nat
      by (apply subseteq_size; set_solver).
    lia. }
  destruct (place_turn r draws st Hh Hw Hst Hn) as (_ & st1 & Hst1 & Hms & ->).
  set (c := (r.1 `mod` h, r.2 `mod` w)) in *.
  replace (st.1 ∪ list_to_set (drawn h w (r :: draws)))
    with (st1.1 ∪ list_to_set (drawn h w draws)).
  - apply IH; [done|]. rewrite Hms.
    assert (size (st.1 ∪ {[c]}) ≤ size st.1 + 1)%nat.
    { rewrite size_union_alt.
      assert (size ({[c]} ∖ st.1) ≤ size ({[c]} : gset cell))%nat
        by (apply subseteq_size; set_solver).
      rewrite size_singleton in *. lia. }
    lia.
  - rewrite Hms. unfold drawn. rewrite fmap_cons. fold c. set_solver.
Qed.

(** With more mines than asked for the loop cannot end. *)
Lemma place_beyond draws st :
  0 < h → 0 < w → synced h w st → n < Z.of_nat (size st.1) →
  Board.place h w n draws st = Board.Running.
Proof.
  intros Hh Hw. revert st. induction draws as [|r draws IH]; intros st Hst Hlt.
  { cbn [Board.place]. by rewrite bool_decide_false by lia. }
  destruct (place_turn r draws st Hh Hw Hst) as (_ & st1 & Hst1 & Hms & ->); [lia|].
  apply IH; [done|]. rewrite Hms.
  set (c := (r.1 `mod` h, r.2 `mod` w)).
  assert (size st.1 ≤ size (st.1 ∪ {[c]}))%nat by (apply subseteq_size; set_solver).
  lia.
Qed.

End Place.

(** ** The number of cells of a board *)
Lemma length_board_cells (h w : Z) :
  length (board_cells h w) = (Z.to_nat h * Z.to_nat w)%nat.
Proof.
  unfold board_cells. rewrite <-(length_seqZ 0 h). generalize (seqZ 0 h). intros rows.
  induction rows as [|i rows IH]; [done|].
  rewrite bind_cons, length_app, IH. simpl. f_equal.
  rewrite <-(length_seqZ 0 w). generalize (seqZ 0 w). intros cols.
  induction cols as [|j cols IHc]; [done|]. rewrite bind_cons. simpl. by rewrite IHc.
Qed.

Lemma size_on_board (h w : Z) (X : gset cell) :
  (∀ c, c ∈ X → on_board h w c) → Z.of_nat (size X) ≤ Z.max 0 h * Z.max 0 w.
Proof.
  intros HX.
  assert (X ⊆ list_to_set (board_cells h w)) as Hsub.
  { intros c Hc. apply elem_of_list_to_set, elem_of_board_cells. by apply HX. }
  apply subseteq_size in Hsub.
  assert (size (list_to_set (board_cells h w) : gset cell) ≤ length (board_cells h w))%nat
    as Hlen.
  { generalize (board_cells h w). intros l. induction l as [|c l IH]; [done|].
    rewrite list_to_set_cons, size_union_alt, size_singleton. simpl.
    assert (size (list_to_set l ∖ {[c]} : gset cell) ≤ size (list_to_set l : gset cell))%nat
      by (apply subseteq_size; set_solver).
    lia. }
  rewrite length_board_cells in Hlen. nia.
Qed.

(** ** The object that [__init__] builds *)
Section Built.
Variables h w n : Z.

Lemma init_synced draws g :
  Board.init h w n draws = Board.Returns g →
  Board.height g = h ∧ Board.width g = w ∧ Board.mines_found g = ∅ ∧
  synced h w (Board.mines g, Board.board g) ∧
  Z.of_nat (size (Board.mines g)) = n ∧
  Board.mines g ⊆ list_to_set (drawn h w draws).
Proof.
  unfold Board.init.
  destruct (Board.place h w n draws _) as [st| | |] eqn:Hplace; try done.
  intros [= <-]. simpl.
  apply place_inv in Hplace as (Hst & Hsz & _ & Hsub); [|apply synced_empty].
  destruct st as [ms bd]. simpl in *.
  split; [done|]. split; [done|]. split; [done|]. split; [done|]. split; [done|].
  set_solver.
Qed.

Lemma synced_is_mine ms bd i j :
  synced h w (ms, bd) →
  Board.get bd i j =
  if bool_decide (- h ≤ i < h ∧ - w ≤ j < w)
  then Some (bool_decide ((i `mod` h, j `mod` w) ∈ ms)) else None.
Proof.
  intros Hst. pose proof Hst as [Hrows Hcols Hget _]. simpl in *.
  unfold Board.get. rewrite py_get_mod, Hrows.
  destruct (decide (- h ≤ i < h)) as [Hi|Hi]; cycle 1.
  { rewrite bool_decide_false by lia. simpl. by rewrite bool_decide_false by tauto. }
  rewrite bool_decide_true by lia. rewrite Z2Nat.id by lia.
  assert (0 ≤ i `mod` h < h) as Hi' by (apply Z.mod_pos_bound; lia).
  destruct (lookup_lt_is_Some_2 bd (Z.to_nat (i `mod` h))) as [row Hrow]; [lia|].
  rewrite Hrow. simpl.
  assert (length row = Z.to_nat w) as Hlen.
  { rewrite Forall_forall in Hcols. eauto using list_elem_of_lookup_2. }
  rewrite py_get_mod, Hlen.
  destruct (decide (- w ≤ j < w)) as [Hj|Hj]; cycle 1.
  { rewrite bool_decide_false by lia. by rewrite bool_decide_false by tauto. }
  rewrite bool_decide_true by lia. rewrite Z2Nat.id by lia.
  rewrite bool_decide_true by done.
  assert (0 ≤ j `mod` w < w) as Hj' by (apply Z.mod_pos_bound; lia).
  specialize (Hget (i `mod` h, j `mod` w) (conj Hi' Hj')). simpl in Hget.
  rewrite <-Hget. unfold Board.get.
  rewrite py_get_inside by lia. rewrite Hrow. simpl.
  rewrite py_get_inside by lia. done.
Qed.

Lemma synced_nearby_mines g c :
  Board.height g = h → Board.width g = w →
  synced h w (Board.mines g, Board.board g) →
  Board.nearby_mines g c = Some (Minesweeper.nearby_mines (Board.layout g) c).
Proof.
  intros Hh Hw Hst. unfold Board.nearby_mines, Minesweeper.nearby_mines.
  generalize (Minesweeper.square c). intros l.
  assert (∀ k count, count = Some k →
            foldl (λ count d,
                     n ← count;
                     if bool_decide (d = c) then Some n
                     else if bool_decide (0 ≤ d.1 < Board.height g)
                             && bool_decide (0 ≤ d.2 < Board.width g)
                          then b ← Board.get (Board.board g) d.1 d.2;
                               Some (if b : bool then n + 1 else n)
                          else Some n) count l
            = Some (foldl (λ count d,
                             if bool_decide (d = c) then count
                             else if Minesweeper.in_bounds (Board.layout g) d
                                     && Minesweeper.is_mine (Board.layout g) d
                                  then count + 1 else count) k l)) as Hgen;
    [|by apply Hgen].
  induction l as [|d l IH]; intros k count ->; [done|]. cbn [foldl]. apply IH.
  simpl. case_bool_decide; [done|].
  unfold Minesweeper.in_bounds, Minesweeper.is_mine, Board.layout. simpl.
  destruct (bool_decide (0 ≤ d.1 < Board.height g)) eqn:Hi; [|done].
  destruct (bool_decide (0 ≤ d.2 < Board.width g)) eqn:Hj; [|done]. simpl.
  apply bool_decide_eq_true in Hi. apply bool_decide_eq_true in Hj.
  rewrite Hh in Hi. rewrite Hw in Hj.
  pose proof (synced_get h w _ Hst d (conj Hi Hj)) as Hget.
  cbn [fst snd] in Hget. rewrite Hget. simpl. by case_bool_decide.
Qed.

End Built.

(** The count of [nearby_mines] as the size of a set. *)
Lemma nearby_mines_size (g : Minesweeper.t) (c : cell) :
  let N := neighbours (MinesweeperAI.init (Minesweeper.height g) (Minesweeper.width g)) c in
  Minesweeper.nearby_mines g c = Z.of_nat (size (N ∩ Minesweeper.mines g)) ∧
  (size N ≤ 8)%nat.
Proof.
  intros N. unfold N, neighbours.
  set (ai := MinesweeperAI.init _ _). split.
  - rewrite nearby_mines_count, size_filter_mines by apply window_NoDup.
    rewrite <-(window_square ai g c) by done.
    do 2 f_equal. apply list_filter_iff. tauto.
  - rewrite size_list_to_set by apply NoDup_filter, window_NoDup.
    rewrite (window_square ai g c) by done.
    rewrite list_filter_filter.
    assert (length (filter (λ d, d ≠ c) (Minesweeper.square c)) < 9)%nat as Hlt.
    { apply (length_filter_lt (λ d, d ≠ c) (Minesweeper.square c) c); [|tauto].
      destruct c as [i j]. unfold Minesweeper.square. simpl. set_solver. }
    assert (length (filter (λ d, d ≠ c ∧ Minesweeper.in_bounds g d = true)
                      (Minesweeper.square c))
            ≤ length (filter (λ d, d ≠ c) (Minesweeper.square c)))%nat; [|lia].
    rewrite (list_filter_iff _ (λ d, Minesweeper.in_bounds g d = true ∧ d ≠ c))
      by (intros; tauto).
    rewrite <-list_filter_filter. apply length_filter.
Qed.

(** ** Text *)
Lemma string_length_app (s1 s2 : string) :
  String.length (s1 +:+ s2) = (String.length s1 + String.length s2)%nat.
Proof.
  induction s1 as [|a s1 IH]; [done|]. exact (f_equal S IH).
Qed.

Lemma string_get_app_l (s1 s2 : string) (k : nat) :
  (k < String.length s1)%nat → String.get k (s1 +:+ s2) = String.get k s1.
Proof. intros Hk. symmetry. by apply String.append_correct1. Qed.

Lemma string_get_app_r (s1 s2 : string) (k : nat) :
  String.get (String.length s1 + k) (s1 +:+ s2) = String.get k s2.
Proof. rewrite Nat.add_comm. symmetry. apply String.append_correct2. Qed.

Lemma string_app_nil_r (s : string) : s +:+ "" = s.
Proof. induction s as [|a s IH]; [done|]. exact (f_equal (String a) IH). Qed.

Lemma string_concat_cons (s : string) (l : list string) :
  String.concat "" (s :: l) = s +:+ String.concat "" l.
Proof. destruct l; cbn [String.concat]; [by rewrite string_app_nil_r|done]. Qed.

Lemma rule_length (w : Z) : String.length (Board.rule w) = (2 * Z.to_nat w + 1)%nat.
Proof.
  unfold Board.rule. rewrite string_length_app.
  assert (∀ k, String.length (String.concat "" (replicate k "--")) = (2 * k)%nat) as Hk.
  { induction k as [|k IH]; [done|].
    cbn [replicate]. rewrite string_concat_cons, string_length_app, IH. simpl. lia. }
  rewrite Hk. simpl. lia.
Qed.

Lemma seqZ_to_nat (m n : Z) : seqZ m n = seqZ m (Z.of_nat (Z.to_nat n)).
Proof. unfold seqZ. by rewrite Nat2Z.id. Qed.

Lemma foldl_snoc {A B} (f : A → B → A) (a : A) (l : list B) (x : B) :
  foldl f a (l ++ [x]) = f (foldl f a l) x.
Proof. by rewrite foldl_app. Qed.

(** ** The picture that [print] draws *)
Section Picture.
Variables h w : Z.
Variable g : Board.t.
Hypothesis Hh : Board.height g = h.
Hypothesis Hw : Board.width g = w.
Hypothesis Hst : synced h w (Board.mines g, Board.board g).

Notation mark c := (if bool_decide (c ∈ Board.mines g) then "X" else " ")%char.

Lemma print_row_cells (i : Z) (k : nat) :
  0 ≤ i < h → (k ≤ Z.to_nat w)%nat →
  ∃ s, foldl (λ line j, s ← line; b ← Board.get (Board.board g) i j;
                        Some (s +:+ (if b : bool then "|X" else "| ")))
             (Some "") (seqZ 0 (Z.of_nat k)) = Some s ∧
       String.length s = (2 * k)%nat ∧
       ∀ j, (j < k)%nat →
            String.get (2 * j) s = Some "|"%char ∧
            String.get (2 * j + 1) s = Some (mark (i, Z.of_nat j)).
Proof.
  intros Hi. induction k as [|k IH]; intros Hk.
  { exists "". repeat split; lia. }
  destruct IH as (s & Hs & Hlen & Hget); [lia|].
  assert (on_board h w (i, Z.of_nat k)) as Hon by (split; simpl; lia).
  pose proof (synced_get h w _ Hst (i, Z.of_nat k) Hon) as Hb.
  cbn [fst snd] in Hb.
  rewrite seqZ_S, foldl_snoc, Hs, Z.add_0_l.
  change (Some s ≫= ?f) with (f s). cbn beta. rewrite Hb.
  change (Some ?b ≫= ?f) with (f b). cbn beta.
  eexists. split; [done|]. split.
  { rewrite string_length_app, Hlen. case_bool_decide; simpl; lia. }
  intros j Hj. destruct (decide (j = k)) as [->|Hne].
  - replace (2 * k)%nat with (String.length s + 0)%nat by lia.
    replace (String.length s + 0 + 1)%nat with (String.length s + 1)%nat by lia.
    rewrite !string_get_app_r. by case_bool_decide.
  - destruct (Hget j) as [H0 H1]; [lia|].
    rewrite !string_get_app_l by lia. done.
Qed.

Lemma print_row_text (i : Z) :
  0 ≤ i < h →
  ∃ line, Board.print_row g i = Some line ∧
          String.length line = (2 * Z.to_nat w + 1)%nat ∧
          ∀ j, 0 ≤ j < w → String.get (2 * Z.to_nat j + 1) line = Some (mark (i, j)).
Proof.
  intros Hi. unfold Board.print_row. rewrite Hw, seqZ_to_nat.
  destruct (print_row_cells i (Z.to_nat w) Hi) as (s & -> & Hlen & Hget); [done|].
  change (Some s ≫= ?f) with (f s). cbn beta. eexists. split; [done|]. split.
  { rewrite string_length_app, Hlen. simpl. lia. }
  intros j Hj. destruct (Hget (Z.to_nat j)) as [_ H1]; [lia|].
  rewrite string_get_app_l by lia. rewrite H1. by rewrite Z2Nat.id by lia.
Qed.

Lemma print_lines (k : nat) :
  (k ≤ Z.to_nat h)%nat →
  ∃ ls, foldl (λ lines i, ls ← lines; row ← Board.print_row g i;
                          Some (ls ++ [Board.rule (Board.width g); row]))
              (Some []) (seqZ 0 (Z.of_nat k)) = Some ls ∧
        length ls = (2 * k)%nat ∧
        ∀ i, (i < k)%nat →
             ls !! (2 * i)%nat = Some (Board.rule w) ∧
             ls !! (2 * i + 1)%nat = Board.print_row g (Z.of_nat i).
Proof.
  induction k as [|k IH]; intros Hk.
  { exists []. repeat split; simpl; lia. }
  destruct IH as (ls & Hls & Hlen & Hget); [lia|].
  destruct (print_row_text (Z.of_nat k)) as (row & Hrow & _); [lia|].
  rewrite seqZ_S, foldl_snoc, Hls, Z.add_0_l.
  change (Some ls ≫= ?f) with (f ls). cbn beta. rewrite Hrow.
  change (Some row ≫= ?f) with (f row). cbn beta.
  eexists. split; [done|]. split.
  { rewrite length_app, Hlen. simpl. lia. }
  intros i Hi. destruct (decide (i = k)) as [->|Hne].
  - rewrite !lookup_app_r by lia.
    replace (2 * k - length ls)%nat with 0%nat by lia.
    replace (2 * k + 1 - length ls)%nat with 1%nat by lia.
    simpl. by rewrite Hw, Hrow.
  - destruct (Hget i) as [H0 H1]; [lia|].
    rewrite !lookup_app_l by lia. done.
Qed.

Lemma print_picture :
  ∃ lines, Board.print g = Some lines ∧
    length lines = (2 * Z.to_nat h + 1)%nat ∧
    (∀ line, line ∈ lines → String.length line = (2 * Z.to_nat w + 1)%nat) ∧
    (∀ k, (k ≤ Z.to_nat h)%nat → lines !! (2 * k)%nat = Some (Board.rule w)) ∧
    (∀ i j, on_board h w (i, j) →
       ∃ line, lines !! (2 * Z.to_nat i + 1)%nat = Some line ∧
               String.get (2 * Z.to_nat j + 1) line = Some (mark (i, j))).
Proof.
  unfold Board.print. rewrite Hh, seqZ_to_nat.
  destruct (print_lines (Z.to_nat h)) as (ls & -> & Hlen & Hget); [done|].
  change (Some ls ≫= ?f) with (f ls). cbn beta.
  eexists. split; [done|]. split; [|split; [|split]].
  - rewrite length_app, Hlen. simpl. lia.
  - intros line [Hin|Hin]%elem_of_app.
    + apply list_elem_of_lookup in Hin as [p Hp].
      pose proof (lookup_lt_Some _ _ _ Hp) as Hlt.
      destruct (Nat.Even_or_Odd p) as [[q ->]|[q ->]].
      * destruct (Hget q) as [H0 _]; [lia|]. rewrite H0 in Hp.
        injection Hp as <-. apply rule_length.
      * destruct (Hget q) as [_ H1]; [lia|]. rewrite H1 in Hp.
        destruct (print_row_text (Z.of_nat q)) as (row & Hrow & Hrl & _); [lia|].
        congruence.
    + apply list_elem_of_singleton in Hin as ->. rewrite Hw. apply rule_length.
  - intros k Hk. destruct (decide (k = Z.to_nat h)) as [->|Hne].
    + rewrite lookup_app_r by lia.
      replace (2 * Z.to_nat h - length ls)%nat with 0%nat by lia. simpl. by rewrite Hw.
    + destruct (Hget k) as [H0 _]; [lia|]. by rewrite lookup_app_l by lia.
  - intros i j [Hi Hj]. simpl in Hi, Hj.
    destruct (print_row_text i Hi) as (row & Hrow & _ & Hmark).
    exists row. split; [|by apply Hmark].
    destruct (Hget (Z.to_nat i)) as [_ H1]; [lia|].
    rewrite lookup_app_l by lia. rewrite H1. by rewrite Z2Nat.id by lia.
Qed.

End Picture.

(** ** The AI playing on a board that the constructor built *)
Section BuiltGame.
Context {order : SetOrder}.
Variables h w : Z.
Variable g : Board.t.
Hypothesis Hh : Board.height g = h.
Hypothesis Hw : Board.width g = w.
Hypothesis Hst : synced h w (Board.mines g, Board.board g).

Lemma built_is_mine c :
  on_board h w c → Board.is_mine g c = Some (bool_decide (c ∈ Board.mines g)).
Proof. intros Hc. apply (synced_get h w _ Hst c Hc). Qed.

Lemma built_play fuel reports ai :
  Forall (λ r, on_board h w r.1 ∧ Board.is_mine g r.1 = Some false ∧
               Board.nearby_mines g r.1 = Some r.2) reports →
  add_all fuel reports (MinesweeperAI.init h w) = Some ai →
  sound (Board.layout g) ai ∧ within h w ai.
Proof.
  intros Hreports Hrun.
  assert (reports = (λ c, (c, Minesweeper.nearby_mines (Board.layout g) c)) <$> reports.*1)
    as Heq.
  { clear Hrun. induction Hreports as [|[c k] reports (_ & _ & Hk) _ IH]; [done|].
    csimpl. rewrite <-IH. do 2 f_equal. simpl in Hk.
    rewrite (synced_nearby_mines h w g c Hh Hw Hst) in Hk. congruence. }
  rewrite Heq, <-play_add_all in Hrun.
  destruct (play_facts (Board.layout g) fuel reports.*1 ai) as (Hsound & Hwithin & _).
  - apply Forall_fmap. eapply Forall_impl; [exact Hreports|].
    intros [c k] (Hc & Hmine & _). simpl in *. split.
    + destruct Hc. unfold Minesweeper.in_bounds, Board.layout. simpl.
      rewrite Hh, Hw. apply andb_true_iff. split; by apply bool_decide_eq_true.
    + rewrite built_is_mine in Hmine by done. unfold Minesweeper.is_mine, Board.layout.
      simpl. congruence.
  - change (Minesweeper.height (Board.layout g)) with (Board.height g).
    change (Minesweeper.width (Board.layout g)) with (Board.width g).
    by rewrite Hh, Hw.
  - split; [done|]. revert Hwithin.
    change (Minesweeper.height (Board.layout g)) with (Board.height g).
    change (Minesweeper.width (Board.layout g)) with (Board.width g).
    by rewrite Hh, Hw.
Qed.

End BuiltGame.

(** * Further results *)

(** [make_safe_move] returns a cell of [safes] that is not in
    [moves_made], and it returns [None] only when every cell of [safes] is
    in [moves_made], in whatever order the set is walked. *)
Theorem make_safe_move_unplayed_safe `{SetOrder} (ai : MinesweeperAI.t) :
  match make_safe_move ai with
  | Some c => c ∈ MinesweeperAI.safes ai ∧ c ∉ MinesweeperAI.moves_made ai
  | None => MinesweeperAI.safes ai ⊆ MinesweeperAI.moves_made ai
  end.
Proof. apply make_safe_move_spec. Qed.

(** [make_random_move] draws nothing at random: it returns the first cell
    of the board, row by row and left to right, that is neither in
    [moves_made] nor in [mines], and [None] when the board has no such
    cell (so also when the board has no rows or no columns). *)
Theorem make_random_move_first_free (ai : MinesweeperAI.t) :
  let on (c : cell) := on_board (MinesweeperAI.height ai) (MinesweeperAI.width ai) c in
  let free (c : cell) :=
    c ∉ MinesweeperAI.moves_made ai ∧ c ∉ MinesweeperAI.mines ai in
  match make_random_move ai with
  | Some c => on c ∧ free c ∧ ∀ d, on d → free d → d = c ∨ before c d
  | None => ∀ d, on d → ¬ free d
  end.
Proof. apply make_random_move_spec. Qed.

(** On a fresh AI the first report [add_knowledge(c, count)] is settled
    at once.  With [N] the cells around [c] on the board: when [N] is
    empty nothing but [c] is recorded; when [count] is 0 all of [N] becomes
    safe; when [count] is the size of [N] all of [N] becomes mines; in every
    other case the sentence [N = count] is the one sentence held. *)
Theorem first_report `{SetOrder} (h w : Z) (c : cell) (count : Z) (fuel : nat) :
  let N := neighbours (MinesweeperAI.init h w) c in
  MinesweeperAI.add_knowledge (2 + fuel) c count (MinesweeperAI.init h w)
  = Some (if decide (N = ∅) then MinesweeperAI.mk h w {[c]} ∅ {[c]} []
          else if decide (count = 0) then MinesweeperAI.mk h w {[c]} ∅ ({[c]} ∪ N) []
          else if decide (count = Z.of_nat (size N))
               then MinesweeperAI.mk h w {[c]} N {[c]} []
          else MinesweeperAI.mk h w {[c]} ∅ {[c]} [Sentence.mk N count]).
Proof.
  intros N. change (2 + fuel)%nat with (S (S fuel)).
  pose (ai1 := MinesweeperAI.mk h w {[c]} ∅ {[c]} []).
  assert (MinesweeperAI.mark_safe (S (S fuel)) c
            (MinesweeperAI.add_move (MinesweeperAI.init h w) c) = Some ai1) as Hmark.
  { unfold MinesweeperAI.mark_safe. rewrite mark_loop_end; [|reflexivity].
    unfold ai1, MinesweeperAI.init, MinesweeperAI.add_safe, MinesweeperAI.add_move.
    fields. do 2 f_equal; set_solver. }
  assert (MinesweeperAI.new_sentence ai1 c count = Sentence.mk N count) as Hnew.
  { assert (Sentence.cells (MinesweeperAI.new_sentence ai1 c count) = N) as Hcells.
    { rewrite new_sentence_cells. unfold N, neighbours. f_equal.
      apply list_filter_iff. intros d. unfold ai1. fields. set_solver. }
    assert (Sentence.count (MinesweeperAI.new_sentence ai1 c count) = count) as Hcount.
    { rewrite new_sentence_count.
      rewrite filter_none; [simpl; lia|].
      intros d _ [_ Hd]. unfold ai1 in Hd. revert Hd. fields. set_solver. }
    destruct (MinesweeperAI.new_sentence ai1 c count). simpl in *. by subst. }
  unfold MinesweeperAI.add_knowledge. rewrite Hmark, Hnew. clear Hmark Hnew.
  destruct (decide (N = ∅)) as [HN|HN].
  { rewrite conclude_infer_integrate_skip; [done|]. right.
    apply bool_decide_eq_true. unfold Sentence.len. fields. by rewrite HN, size_empty. }
  assert (Sentence.is_empty (Sentence.mk N count) = false) as He by by apply is_empty_false.
  destruct (decide (count = 0)) as [H0|H0].
  { rewrite conclude_infer_integrate_safes by (done || apply not_elem_of_nil).
    rewrite for_each_mark_safe_empty by done. fields.
    by rewrite list_to_set_set_iter. }
  destruct (decide (count = Z.of_nat (size N))) as [Hall|Hall].
  { rewrite conclude_infer_integrate_mines by (done || apply not_elem_of_nil).
    rewrite for_each_mark_mine_empty by done. fields.
    rewrite list_to_set_set_iter. do 2 f_equal. set_solver. }
  rewrite conclude_infer_integrate_unresolved; [done|apply not_elem_of_nil|].
  split; [done|]. by apply resolvable_false.
Qed.

(** Whatever methods are called, with whatever arguments, [knowledge]
    never comes to hold two equal sentences: a sentence is appended only
    when no equal one is held, and after a sentence was changed in place
    [list.remove] leaves one copy. *)
Theorem knowledge_never_repeats `{SetOrder} (ai ai' : MinesweeperAI.t) :
  NoDup (MinesweeperAI.knowledge ai) → rtc call ai ai' →
  NoDup (MinesweeperAI.knowledge ai').
Proof.
  intros Hai Hcalls. induction Hcalls as [|ai ai1 ai' Hcall _ IH]; [done|].
  apply IH. revert Hai. apply (call_inv (λ a, NoDup (MinesweeperAI.knowledge a))); try done.
  - intros fuel. apply (proj1 (NoDup_propagation fuel)).
  - intros fuel. apply (proj2 (NoDup_propagation fuel)).
Qed.

Lemma knowledge_never_repeats_witness :
  NoDup (MinesweeperAI.knowledge (demo_state 3)).
Proof.
  apply (@knowledge_never_repeats elements_order (demo_state 2)).
  - apply (bool_decide_unpack _). by vm_compute.
  - apply rtc_once, (@call_add_knowledge elements_order _ _ 50 (0, 1) 1). by vm_compute.
Defined.

(** Whatever methods are called, with whatever arguments, every sentence
    held in [knowledge] has at least one cell and a count that is neither
    0 nor the number of its cells, once that is so at the start (as it is
    on a fresh AI). *)
Theorem knowledge_holds_open_sentences `{SetOrder} (ai ai' : MinesweeperAI.t)
    (s : Sentence.t) :
  Forall unresolved (MinesweeperAI.knowledge ai) → rtc call ai ai' →
  s ∈ MinesweeperAI.knowledge ai' →
  Sentence.cells s ≠ ∅ ∧ Sentence.count s ≠ 0 ∧ Sentence.count s ≠ Sentence.len s.
Proof.
  intros Hai Hcalls Hs.
  assert (Forall unresolved (MinesweeperAI.knowledge ai')) as Hall.
  { clear Hs. induction Hcalls as [|ai ai1 ai' Hcall _ IH]; [done|].
    apply IH. revert Hai.
    apply (call_inv (λ a, Forall unresolved (MinesweeperAI.knowledge a))); try done.
    - intros fuel. apply (proj1 (unresolved_inv fuel)).
    - intros fuel. apply (proj2 (unresolved_inv fuel)). }
  rewrite Forall_forall in Hall. destruct (Hall s Hs) as [He Hr].
  split; [by apply is_empty_false_inv|]. by apply resolvable_false.
Qed.

Lemma knowledge_holds_open_sentences_witness :
  let s := Sentence.mk {[ (0, 1); (1, 0); (1, 1) ]} 1 in
  Sentence.cells s ≠ ∅ ∧ Sentence.count s ≠ 0 ∧ Sentence.count s ≠ Sentence.len s.
Proof.
  intros s.
  apply (@knowledge_holds_open_sentences elements_order
           (MinesweeperAI.init 3 4) (demo_state 1)).
  - apply Forall_nil_2.
  - apply rtc_once, (@call_add_knowledge elements_order _ _ 50 (0, 0) 1). by vm_compute.
  - vm_compute. apply list_elem_of_here.
Defined.

(** No call ever takes a cell out of [moves_made], [safes] or [mines], and
    none changes the size of the board. *)
Theorem nothing_is_forgotten `{SetOrder} (ai ai' : MinesweeperAI.t) :
  rtc call ai ai' →
  MinesweeperAI.height ai' = MinesweeperAI.height ai ∧
  MinesweeperAI.width ai' = MinesweeperAI.width ai ∧
  MinesweeperAI.moves_made ai ⊆ MinesweeperAI.moves_made ai' ∧
  MinesweeperAI.safes ai ⊆ MinesweeperAI.safes ai' ∧
  MinesweeperAI.mines ai ⊆ MinesweeperAI.mines ai'.
Proof. apply calls_grow. Qed.

Lemma nothing_is_forgotten_witness :
  MinesweeperAI.height (demo_state 3) = MinesweeperAI.height (demo_state 2) ∧
  MinesweeperAI.width (demo_state 3) = MinesweeperAI.width (demo_state 2) ∧
  MinesweeperAI.moves_made (demo_state 2) ⊆ MinesweeperAI.moves_made (demo_state 3) ∧
  MinesweeperAI.safes (demo_state 2) ⊆ MinesweeperAI.safes (demo_state 3) ∧
  MinesweeperAI.mines (demo_state 2) ⊆ MinesweeperAI.mines (demo_state 3).
Proof.
  apply (@nothing_is_forgotten elements_order).
  apply rtc_once, (@call_add_knowledge elements_order _ _ 50 (0, 1) 1). by vm_compute.
Defined.

(** Once [add_knowledge] was called for a cell, neither [make_safe_move]
    nor [make_random_move] returns that cell again, whatever is called in
    between. *)
Theorem played_cell_is_not_proposed `{SetOrder} (fuel : nat) (c : cell) (count : Z)
    (ai ai1 ai2 : MinesweeperAI.t) :
  MinesweeperAI.add_knowledge fuel c count ai = Some ai1 → rtc call ai1 ai2 →
  make_safe_move ai2 ≠ Some c ∧ make_random_move ai2 ≠ Some c.
Proof.
  intros (_ & _ & Hmv1 & _)%add_knowledge_grows (_ & _ & Hmv & _)%calls_grow.
  pose proof (make_random_move_spec ai2) as Hrandom.
  pose proof (make_safe_move_spec ai2) as Hsafe.
  split; intros Heq.
  - rewrite Heq in Hsafe. set_solver.
  - rewrite Heq in Hrandom. destruct Hrandom as (_ & [Hc _] & _). set_solver.
Qed.

Lemma played_cell_is_not_proposed_witness :
  @make_safe_move elements_order (demo_state 3) ≠ Some (0, 1) ∧
  make_random_move (demo_state 3) ≠ Some (0, 1).
Proof.
  apply (@played_cell_is_not_proposed elements_order 50 (0, 1) 1
           (demo_state 2) (demo_state 3) (demo_state 3)); [by vm_compute|].
  apply rtc_refl.
Defined.

(** When every reported cell lies on the board, so does every cell in
    [moves_made], [safes] and [mines] and every cell of every sentence
    held, whatever the counts reported. *)
Theorem recorded_cells_are_on_the_board `{SetOrder} (h w : Z) (fuel : nat)
    (reports : list (cell * Z)) (ai : MinesweeperAI.t) :
  Forall (λ r, on_board h w r.1) reports →
  add_all fuel reports (MinesweeperAI.init h w) = Some ai →
  (∀ c, c ∈ MinesweeperAI.moves_made ai ∪ MinesweeperAI.safes ai ∪ MinesweeperAI.mines ai →
        on_board h w c) ∧
  (∀ s c, s ∈ MinesweeperAI.knowledge ai → c ∈ Sentence.cells s → on_board h w c).
Proof.
  intros Hr Hrun.
  destruct (within_add_all h w fuel reports _ _ Hr (within_init h w) Hrun)
    as [_ _ Hmv Hs Hm Hk].
  split; [set_solver|]. rewrite Forall_forall in Hk. eauto.
Qed.

Lemma recorded_cells_are_on_the_board_witness :
  (∀ c, c ∈ MinesweeperAI.moves_made (demo_state 2) ∪ MinesweeperAI.safes (demo_state 2)
            ∪ MinesweeperAI.mines (demo_state 2) → on_board 3 4 c) ∧
  (∀ s c, s ∈ MinesweeperAI.knowledge (demo_state 2) → c ∈ Sentence.cells s →
          on_board 3 4 c).
Proof.
  apply (@recorded_cells_are_on_the_board elements_order 3 4 50
           [((0, 0), 1); ((0, 2), 1)]).
  - repeat constructor; simpl; lia.
  - by vm_compute.
Defined.

(** In a game played by the contract, the cell that [make_safe_move]
    returns is a cell of the board that is not a mine and has not been
    revealed. *)
Theorem safe_move_is_safe `{SetOrder} (g : Minesweeper.t) (fuel : nat) (cs : list cell)
    (ai : MinesweeperAI.t) (c : cell) :
  Forall (λ c, Minesweeper.in_bounds g c = true ∧ Minesweeper.is_mine g c = false) cs →
  play g fuel cs (MinesweeperAI.init (Minesweeper.height g) (Minesweeper.width g))
  = Some ai →
  make_safe_move ai = Some c →
  Minesweeper.in_bounds g c = true ∧ Minesweeper.is_mine g c = false ∧ c ∉ cs.
Proof.
  intros Hcs Hplay Hmove.
  destruct (play_facts g fuel cs ai Hcs Hplay) as ([_ _ _ Hsafes _] & [_ _ _ Hon _ _] & Hmv).
  pose proof (make_safe_move_spec ai) as Hspec. rewrite Hmove in Hspec.
  destruct Hspec as [Hc Hnew]. split; [|split].
  - destruct (Hon c Hc). unfold Minesweeper.in_bounds.
    by rewrite !bool_decide_true.
  - apply bool_decide_eq_false. set_solver.
  - rewrite Hmv in Hnew. set_solver.
Qed.

Lemma safe_move_is_safe_witness :
  Minesweeper.in_bounds demo_game (1, 2) = true ∧
  Minesweeper.is_mine demo_game (1, 2) = false ∧
  (1, 2) ∉ [(0, 0); (0, 2); (0, 1)].
Proof.
  apply (@safe_move_is_safe elements_order demo_game 50 [(0, 0); (0, 2); (0, 1)]
           (demo_state 3) (1, 2)).
  - repeat constructor.
  - by vm_compute.
  - by vm_compute.
Defined.

(** In a game played by the contract on a board whose mines lie on it:
    when [make_random_move] returns [None], the AI has found the layout.
    Its [mines] are exactly the mines of the board, and every other cell
    of the board has been revealed. *)
Theorem no_move_left_means_solved `{SetOrder} (g : Minesweeper.t) (fuel : nat)
    (cs : list cell) (ai : MinesweeperAI.t) :
  (∀ c, c ∈ Minesweeper.mines g → Minesweeper.in_bounds g c = true) →
  Forall (λ c, Minesweeper.in_bounds g c = true ∧ Minesweeper.is_mine g c = false) cs →
  play g fuel cs (MinesweeperAI.init (Minesweeper.height g) (Minesweeper.width g))
  = Some ai →
  make_random_move ai = None →
  MinesweeperAI.mines ai = Minesweeper.mines g ∧
  ∀ d, Minesweeper.in_bounds g d = true → Minesweeper.is_mine g d = false → d ∈ cs.
Proof.
  intros Hmines Hcs Hplay Hmove.
  destruct (play_facts g fuel cs ai Hcs Hplay) as ([Hh Hw Hm _ _] & _ & Hmv).
  pose proof (make_random_move_spec ai) as Hspec. rewrite Hmove in Hspec.
  simpl in Hspec. rewrite Hh, Hw, Hmv in Hspec.
  assert (∀ d, Minesweeper.in_bounds g d = true → d ∈ cs ∨ d ∈ MinesweeperAI.mines ai)
    as Hall.
  { intros d [Hi Hj]%andb_true_iff.
    apply bool_decide_eq_true in Hi. apply bool_decide_eq_true in Hj.
    specialize (Hspec d (conj Hi Hj)).
    destruct (decide (d ∈ cs)); [by left|]. right.
    destruct (decide (d ∈ MinesweeperAI.mines ai)); [done|].
    exfalso. apply Hspec. set_solver. }
  split.
  - apply set_eq. intros d. split; [set_solver|]. intros Hd.
    destruct (Hall d (Hmines d Hd)) as [Hin|]; [|done].
    rewrite Forall_forall in Hcs. destruct (Hcs d Hin) as [_ Hnot].
    apply bool_decide_eq_false in Hnot. done.
  - intros d Hb Hd. apply bool_decide_eq_false in Hd.
    destruct (Hall d Hb); [done|set_solver].
Qed.

Lemma no_move_left_means_solved_witness :
  let g := Minesweeper.mk 1 2 {[ (0, 1) ]} in
  let ai := MinesweeperAI.mk 1 2 {[ (0, 0) ]} {[ (0, 1) ]} {[ (0, 0) ]} [] in
  MinesweeperAI.mines ai = Minesweeper.mines g ∧
  ∀ d, Minesweeper.in_bounds g d = true → Minesweeper.is_mine g d = false →
       d ∈ [(0, 0)].
Proof.
  intros g ai.
  apply (@no_move_left_means_solved elements_order g 5 [(0, 0)] ai).
  - intros c Hc. change (c ∈ ({[ (0, 1) ]} : gset cell)) in Hc.
    apply elem_of_singleton in Hc as ->. reflexivity.
  - repeat constructor.
  - by vm_compute.
  - by vm_compute.
Defined.

(** In every state of a game played by the contract, what the AI holds is
    true of the board: every cell in [mines] is a mine, no cell in [safes]
    is one, and each sentence in [knowledge] counts exactly the mines among
    its cells. *)
Theorem beliefs_are_true `{SetOrder} (g : Minesweeper.t) (ai : MinesweeperAI.t) :
  reachable g ai →
  MinesweeperAI.mines ai ⊆ Minesweeper.mines g ∧
  MinesweeperAI.safes ai ## Minesweeper.mines g ∧
  ∀ s, s ∈ MinesweeperAI.knowledge ai →
       Sentence.count s = Z.of_nat (size (Sentence.cells s ∩ Minesweeper.mines g)).
Proof.
  intros [_ _ Hm Hs Hk]%reachable_sound. rewrite Forall_forall in Hk. by repeat split.
Qed.

Lemma beliefs_are_true_witness :
  MinesweeperAI.mines (demo_state 3) ⊆ Minesweeper.mines demo_game ∧
  MinesweeperAI.safes (demo_state 3) ## Minesweeper.mines demo_game ∧
  ∀ s, s ∈ MinesweeperAI.knowledge (demo_state 3) →
       Sentence.count s = Z.of_nat (size (Sentence.cells s ∩ Minesweeper.mines demo_game)).
Proof. exact (@beliefs_are_true elements_order demo_game _ (demo_reachable 3)). Defined.

(** For a sentence that is true of a layout of mines, [known_mines] returns
    the cells exactly when all of them are mines, and [known_safes] returns
    them exactly when none is; otherwise each returns [None]. *)
Theorem known_cells_are_exact (M : gset cell) (s : Sentence.t) :
  holds M s →
  (Sentence.known_mines s = Some (Sentence.cells s) ↔ Sentence.cells s ⊆ M) ∧
  (Sentence.known_mines s = None ↔ ¬ Sentence.cells s ⊆ M) ∧
  (Sentence.known_safes s = Some (Sentence.cells s) ↔ Sentence.cells s ## M) ∧
  (Sentence.known_safes s = None ↔ ¬ Sentence.cells s ## M).
Proof.
  intros Hs. unfold Sentence.known_mines, Sentence.known_safes.
  assert (Sentence.count s = Sentence.len s ↔ Sentence.cells s ⊆ M) as Hmines.
  { split; [|by apply holds_all_mines]. intros Hc c. by apply (holds_known_mines M s). }
  assert (Sentence.count s = 0 ↔ Sentence.cells s ## M) as Hsafes.
  { split; [|by apply holds_no_mines]. intros Hc c ?. by apply (holds_known_safes M s c). }
  repeat split; repeat case_bool_decide; try done; try tauto.
Qed.

Lemma known_cells_are_exact_witness :
  let M : gset cell := {[ (1, 1) ]} in
  let s := Sentence.mk {[ (1, 0); (1, 1) ]} 1 in
  (Sentence.known_mines s = Some (Sentence.cells s) ↔ Sentence.cells s ⊆ M) ∧
  (Sentence.known_mines s = None ↔ ¬ Sentence.cells s ⊆ M) ∧
  (Sentence.known_safes s = Some (Sentence.cells s) ↔ Sentence.cells s ## M) ∧
  (Sentence.known_safes s = None ↔ ¬ Sentence.cells s ## M).
Proof. intros M s. apply known_cells_are_exact. by vm_compute. Defined.

(** [Sentence.mark_mine] and [Sentence.mark_safe], whatever the sentence
    and its count.  When the cell is not in the sentence they leave it as
    it is and answer [False].  When it is, they answer [True] and the
    sentence becomes the one with that cell, and no other, taken out of
    its cells, the count one less after [mark_mine] and the same after
    [mark_safe].  A sentence that was true of a layout then stays true
    exactly when the mark is right: after [mark_mine] when the cell is a
    mine, after [mark_safe] when it is not. *)
Theorem marking_keeps_truth_when_right (M : gset cell) (s : Sentence.t) (c : cell) :
  (c ∉ Sentence.cells s →
   Sentence.mark_mine s c = (s, false) ∧ Sentence.mark_safe s c = (s, false)) ∧
  (c ∈ Sentence.cells s →
   Sentence.mark_mine s c
   = (Sentence.mk (Sentence.cells s ∖ {[c]}) (Sentence.count s - 1), true) ∧
   Sentence.mark_safe s c
   = (Sentence.mk (Sentence.cells s ∖ {[c]}) (Sentence.count s), true) ∧
   (∀ d, d ∈ Sentence.cells (Sentence.mark_mine s c).1 ↔ d ∈ Sentence.cells s ∧ d ≠ c) ∧
   (∀ d, d ∈ Sentence.cells (Sentence.mark_safe s c).1 ↔ d ∈ Sentence.cells s ∧ d ≠ c) ∧
   (holds M s →
    (holds M (Sentence.mark_mine s c).1 ↔ c ∈ M) ∧
    (holds M (Sentence.mark_safe s c).1 ↔ c ∉ M))).
Proof.
  split; intros Hc.
  - unfold Sentence.mark_mine, Sentence.mark_safe. by rewrite !bool_decide_false.
  - assert (Sentence.mark_mine s c
            = (Sentence.mk (Sentence.cells s ∖ {[c]}) (Sentence.count s - 1), true)) as Hm.
    { unfold Sentence.mark_mine. by rewrite bool_decide_true. }
    assert (Sentence.mark_safe s c
            = (Sentence.mk (Sentence.cells s ∖ {[c]}) (Sentence.count s), true)) as Hs.
    { unfold Sentence.mark_safe. by rewrite bool_decide_true. }
    split; [done|]. split; [done|]. split; [|split].
    + intros d. rewrite Hm. cbn [fst Sentence.cells]. set_solver.
    + intros d. rewrite Hs. cbn [fst Sentence.cells]. set_solver.
    + intros Hholds. split.
      * split; [by apply holds_mark_mine_inv|]. intros. by apply holds_mark_mine.
      * split; [by apply holds_mark_safe_inv|]. intros. by apply holds_mark_safe.
Qed.

Lemma marking_keeps_truth_when_right_witness :
  let M : gset cell := {[ (1, 1) ]} in
  let s := Sentence.mk {[ (1, 0); (1, 1) ]} 1 in
  (Sentence.mark_mine s (0, 0) = (s, false) ∧ Sentence.mark_safe s (0, 0) = (s, false)) ∧
  (Sentence.mark_mine s (1, 1) = (Sentence.mk {[ (1, 0) ]} 0, true) ∧
   Sentence.mark_safe s (1, 1) = (Sentence.mk {[ (1, 0) ]} 1, true)) ∧
  (holds M (Sentence.mark_mine s (1, 1)).1 ↔ (1, 1) ∈ M) ∧
  (holds M (Sentence.mark_safe s (1, 1)).1 ↔ (1, 1) ∉ M).
Proof.
  intros M s.
  assert (holds M s) as Hs by by vm_compute.
  assert ((1, 1) ∈ Sentence.cells s) as Hin by (unfold s; cbn; set_solver).
  assert ((0, 0) ∉ Sentence.cells s) as Hout by (unfold s; cbn; set_solver).
  split; [exact (proj1 (marking_keeps_truth_when_right M s (0, 0)) Hout)|].
  destruct (proj2 (marking_keeps_truth_when_right M s (1, 1)) Hin)
    as (Hm & Hsf & _ & _ & Htruth).
  split.
  - rewrite Hm, Hsf. split; f_equal; f_equal; apply (bool_decide_unpack _); by vm_compute.
  - exact (Htruth Hs).
Defined.

(** The subset rule, lines 260-272.  An inference is drawn exactly when
    the cells of one sentence are all cells of the other; its cells are
    those of the larger sentence that the smaller one lacks; and when both
    sentences are true of a layout of mines, so is the inference. *)
Theorem inference_is_sound (M : gset cell) (s o : Sentence.t) :
  match MinesweeperAI.inference s o with
  | Some inf =>
      (Sentence.cells s ⊆ Sentence.cells o ∨ Sentence.cells o ⊆ Sentence.cells s) ∧
      Sentence.cells inf
      = (Sentence.cells o ∖ Sentence.cells s) ∪ (Sentence.cells s ∖ Sentence.cells o) ∧
      (holds M s → holds M o → holds M inf)
  | None =>
      ¬ Sentence.cells s ⊆ Sentence.cells o ∧ ¬ Sentence.cells o ⊆ Sentence.cells s
  end.
Proof.
  unfold MinesweeperAI.inference.
  destruct (decide (Sentence.cells s ⊆ Sentence.cells o)) as [Hso|Hso].
  { rewrite bool_decide_true by done. split; [by left|]. split; [fields; set_solver|].
    intros Hs Ho. eapply holds_inference; [exact Hs|exact Ho|].
    unfold MinesweeperAI.inference. by rewrite bool_decide_true. }
  rewrite bool_decide_false by done.
  destruct (decide (Sentence.cells o ⊆ Sentence.cells s)) as [Hos|Hos].
  { rewrite bool_decide_true by done. split; [by right|]. split; [fields; set_solver|].
    intros Hs Ho. eapply holds_inference; [exact Hs|exact Ho|].
    unfold MinesweeperAI.inference. rewrite bool_decide_false by done.
    by rewrite bool_decide_true. }
  by rewrite bool_decide_false.
Qed.

(** The loop of lines 258-275 collects, without repetition, exactly the
    inferences drawn from the sentences compared that [knowledge] does
    not hold yet. *)
Theorem infer_collects_the_new_inferences (s : Sentence.t) (kn others : list Sentence.t) :
  NoDup (MinesweeperAI.infer s kn others []) ∧
  ∀ inf, inf ∈ MinesweeperAI.infer s kn others [] ↔
         inf ∉ kn ∧ ∃ o, o ∈ others ∧ MinesweeperAI.inference s o = Some inf.
Proof.
  destruct (infer_spec_acc s kn others [] (NoDup_nil_2)) as [Hnd Hiff].
  split; [done|]. intros inf. rewrite Hiff. split; [|by right].
  by intros [[]%elem_of_nil|?].
Qed.

(** When [conclude_infer_integrate] is given a sentence that is not held,
    has cells, and has the count 0, every cell of the sentence is in
    [safes] when the call returns; when its count is the number of its
    cells, every cell is in [mines]. *)
Theorem resolved_sentence_marks_its_cells `{SetOrder} (fuel : nat) (s : Sentence.t)
    (ai ai' : MinesweeperAI.t) :
  s ∉ MinesweeperAI.knowledge ai → Sentence.cells s ≠ ∅ →
  MinesweeperAI.conclude_infer_integrate fuel s ai = Some ai' →
  (Sentence.count s = 0 → Sentence.cells s ⊆ MinesweeperAI.safes ai') ∧
  (Sentence.count s = Sentence.len s → Sentence.cells s ⊆ MinesweeperAI.mines ai').
Proof.
  intros Hs Hne Hrun. destruct fuel as [|fuel]; [done|].
  assert (Sentence.is_empty s = false) as He by by apply is_empty_false.
  assert (Sentence.len s ≠ 0) as Hlen by by apply bool_decide_eq_false in He.
  split; intros Hc.
  - rewrite conclude_infer_integrate_safes in Hrun by done.
    apply for_each_mark_safe_all in Hrun as [Hsafes _].
    rewrite list_to_set_set_iter in Hsafes. set_solver.
  - rewrite conclude_infer_integrate_mines in Hrun by (done || lia).
    apply for_each_mark_mine_all in Hrun as [Hmines _].
    rewrite list_to_set_set_iter in Hmines. set_solver.
Qed.

Lemma resolved_sentence_marks_its_cells_witness :
  let s := Sentence.mk {[ (0, 0); (0, 1) ]} 2 in
  let ai' := MinesweeperAI.mk 1 3 ∅ {[ (0, 0); (0, 1) ]} ∅ [] in
  (Sentence.count s = 0 → Sentence.cells s ⊆ MinesweeperAI.safes ai') ∧
  (Sentence.count s = Sentence.len s → Sentence.cells s ⊆ MinesweeperAI.mines ai').
Proof.
  intros s ai'.
  apply (@resolved_sentence_marks_its_cells elements_order 3 s (MinesweeperAI.init 1 3) ai').
  - apply not_elem_of_nil.
  - apply (bool_decide_unpack _). by vm_compute.
  - by vm_compute.
Defined.

(** When [Minesweeper(height, width, mines)] returns, the board holds
    exactly [mines] mines, each on a cell of the board that the random
    numbers selected; no mine is flagged as found; and [won()] is true at
    once exactly when [mines] is 0. *)
Theorem init_places_the_mines (h w n : Z) (draws : list (Z * Z)) (g : Board.t) :
  Board.init h w n draws = Board.Returns g →
  Board.height g = h ∧ Board.width g = w ∧
  Z.of_nat (size (Board.mines g)) = n ∧
  (∀ c, c ∈ Board.mines g → on_board h w c ∧ c ∈ drawn h w draws) ∧
  Board.mines_found g = ∅ ∧
  Board.won g = bool_decide (n = 0).
Proof.
  intros (Hh & Hw & Hfound & Hst & Hsize & Hsub)%init_synced.
  split; [done|]. split; [done|]. split; [done|]. split; [|split; [done|]].
  - intros c Hc. split; [by apply (synced_on h w _ Hst)|].
    apply Hsub in Hc. by apply elem_of_list_to_set in Hc.
  - unfold Board.won. rewrite Hfound. apply bool_decide_ext. split.
    + intros Heq. rewrite <-Heq, size_empty in Hsize. lia.
    + intros ->. symmetry. apply leibniz_equiv, size_empty_iff. lia.
Qed.

Lemma init_places_the_mines_witness :
  ∃ g, Board.init 2 3 2 [(5, 4); (0, 0); (5, 7); (1, 2)] = Board.Returns g ∧
       Board.height g = 2 ∧ Board.width g = 3 ∧
       Z.of_nat (size (Board.mines g)) = 2 ∧
       (∀ c, c ∈ Board.mines g →
             on_board 2 3 c ∧ c ∈ drawn 2 3 [(5, 4); (0, 0); (5, 7); (1, 2)]) ∧
       Board.mines_found g = ∅ ∧
       Board.won g = bool_decide (2 = 0).
Proof.
  exists (Board.mk 2 3 {[ (1, 1); (0, 0) ]}
            [[true; false; false]; [false; true; false]] ∅).
  split; [by vm_compute|]. apply init_places_the_mines. by vm_compute.
Defined.

(** On a board with rows and columns, and for a number of mines that is
    not negative, the constructor returns exactly when the random numbers
    select at least that many different cells; until then its loop is
    still running. *)
Theorem init_returns_when_enough_cells_are_drawn (h w n : Z) (draws : list (Z * Z)) :
  0 < h → 0 < w → 0 ≤ n →
  if bool_decide (n ≤ Z.of_nat (size (list_to_set (drawn h w draws) : gset cell)))
  then ∃ g, Board.init h w n draws = Board.Returns g
  else Board.init h w n draws = Board.Running.
Proof.
  intros Hh Hw Hn.
  pose proof (place_ends h w n draws (∅, Board.empty_board h w) Hh Hw
                (synced_empty h w)) as Hends.
  cbn [fst] in Hends. rewrite size_empty in Hends. specialize (Hends Hn).
  replace (∅ ∪ list_to_set (drawn h w draws)) with
    (list_to_set (drawn h w draws) : gset cell) in Hends by set_solver.
  unfold Board.init. case_bool_decide.
  - destruct Hends as [st ->]. eauto.
  - by rewrite Hends.
Qed.

Lemma init_returns_when_enough_cells_are_drawn_witness :
  ∃ g, Board.init 2 3 2 [(5, 4); (0, 0); (5, 7); (1, 2)] = Board.Returns g.
Proof.
  exact (init_returns_when_enough_cells_are_drawn 2 3 2 [(5, 4); (0, 0); (5, 7); (1, 2)]
           ltac:(lia) ltac:(lia) ltac:(lia)).
Defined.

(** Asked for a negative number of mines, or for more mines than the
    board has cells, the constructor never returns, whatever the random
    numbers: on a board with rows and columns its loop runs for ever. *)
Theorem init_never_returns_with_too_many_mines (h w n : Z) (draws : list (Z * Z)) :
  n < 0 ∨ Z.max 0 h * Z.max 0 w < n →
  (∀ g, Board.init h w n draws ≠ Board.Returns g) ∧
  (0 < h → 0 < w → Board.init h w n draws = Board.Running).
Proof.
  intros Hn. split.
  - intros g (_ & _ & _ & Hst & Hsize & _)%init_synced.
    pose proof (size_on_board h w _ (synced_on h w _ Hst)) as Hle. simpl in Hle. lia.
  - intros Hh Hw. unfold Board.init. destruct Hn as [Hn|Hn].
    + rewrite place_beyond; [done..|apply synced_empty|].
      cbn [fst]. rewrite size_empty. lia.
    + pose proof (place_ends h w n draws (∅, Board.empty_board h w) Hh Hw
                    (synced_empty h w)) as Hends.
      cbn [fst] in Hends. rewrite size_empty in Hends.
      rewrite bool_decide_false in Hends; [rewrite Hends; [done|lia]|].
      assert (Z.of_nat (size (∅ ∪ list_to_set (drawn h w draws) : gset cell))
              ≤ Z.max 0 h * Z.max 0 w); [|lia].
      apply size_on_board. intros c Hc.
      assert (c ∈ drawn h w draws) as Hd by set_solver.
      unfold drawn in Hd. apply list_elem_of_fmap in Hd as (r & -> & _).
      split; simpl; by apply Z.mod_pos_bound.
Qed.

Lemma init_never_returns_with_too_many_mines_witness :
  (∀ g, Board.init 2 2 5 [(0, 0); (0, 1); (1, 0); (1, 1); (0, 0)] ≠ Board.Returns g) ∧
  (0 < 2 → 0 < 2 →
   Board.init 2 2 5 [(0, 0); (0, 1); (1, 0); (1, 1); (0, 0)] = Board.Running).
Proof. apply init_never_returns_with_too_many_mines. right. reflexivity. Defined.

(** Two edge cases of the constructor.  With [mines = 0] it returns at
    once, whatever the size asked for, with an empty set of mines.  With
    another number of mines and no rows or no columns, the first call of
    [randrange] raises [ValueError]. *)
Theorem init_edge_cases (h w n : Z) (r : Z * Z) (draws : list (Z * Z)) :
  Board.init h w 0 draws
  = Board.Returns (Board.mk h w ∅ (replicate (Z.to_nat h) (replicate (Z.to_nat w) false)) ∅) ∧
  (n ≠ 0 → h ≤ 0 ∨ w ≤ 0 → Board.init h w n (r :: draws) = Board.ValueError).
Proof.
  split.
  - unfold Board.init. destruct draws; cbn [Board.place fst];
      rewrite size_empty, bool_decide_true by done; simpl;
      by rewrite empty_board_replicate.
  - intros Hn Hsize. unfold Board.init. cbn [Board.place fst].
    rewrite size_empty, bool_decide_false by (simpl; lia).
    unfold Board.randrange. destruct (decide (0 < h)).
    + rewrite bool_decide_true by done. by rewrite bool_decide_false by lia.
    + by rewrite bool_decide_false.
Qed.

Lemma init_edge_cases_witness :
  Board.init 0 3 2 [(5, 4)] = Board.ValueError.
Proof.
  apply (proj2 (init_edge_cases 0 3 2 (5, 4) [])); [done|]. left. reflexivity.
Defined.

(** [is_mine((i, j))] on a board that the constructor built indexes the
    matrix as Python indexes lists: for [-height <= i < height] and
    [-width <= j < width] it tells whether the cell
    [(i mod height, j mod width)] holds a mine, so a negative index reads
    from the far end; for every other cell it raises [IndexError]. *)
Theorem is_mine_indexes_like_a_list (h w n : Z) (draws : list (Z * Z)) (g : Board.t)
    (i j : Z) :
  Board.init h w n draws = Board.Returns g →
  Board.is_mine g (i, j) =
  if bool_decide (- h ≤ i < h ∧ - w ≤ j < w)
  then Some (bool_decide ((i `mod` h, j `mod` w) ∈ Board.mines g))
  else None.
Proof.
  intros (_ & _ & _ & Hst & _)%init_synced.
  unfold Board.is_mine. by apply (synced_is_mine h w).
Qed.

Lemma is_mine_indexes_like_a_list_witness :
  Board.is_mine (Board.mk 2 3 {[ (1, 1); (0, 0) ]}
                   [[true; false; false]; [false; true; false]] ∅) (-1, -2) =
  if bool_decide (- 2 ≤ -1 < 2 ∧ - 3 ≤ -2 < 3)
  then Some (bool_decide (((-1) `mod` 2, (-2) `mod` 3) ∈
                          Board.mines (Board.mk 2 3 {[ (1, 1); (0, 0) ]}
                                         [[true; false; false]; [false; true; false]] ∅)))
  else None.
Proof.
  apply (is_mine_indexes_like_a_list 2 3 2 [(5, 4); (0, 0); (5, 7); (1, 2)]).
  by vm_compute.
Defined.

(** [nearby_mines(cell)] on a board that the constructor built raises
    nothing and returns the number of mines among the cells of the board
    around [cell], at most eight, the cell itself not counted; it is the
    count that the contract of [add_knowledge] asks for. *)
Theorem nearby_mines_counts_the_neighbours (h w n : Z) (draws : list (Z * Z))
    (g : Board.t) (c : cell) :
  Board.init h w n draws = Board.Returns g →
  let N := neighbours (MinesweeperAI.init h w) c in
  Board.nearby_mines g c = Some (Z.of_nat (size (N ∩ Board.mines g))) ∧
  Board.nearby_mines g c = Some (Minesweeper.nearby_mines (Board.layout g) c) ∧
  (∀ d, d ∈ N ↔ d ≠ c ∧ c.1 - 1 ≤ d.1 ≤ c.1 + 1 ∧ c.2 - 1 ≤ d.2 ≤ c.2 + 1 ∧
                on_board h w d) ∧
  (size (N ∩ Board.mines g) ≤ 8)%nat.
Proof.
  intros (Hh & Hw & _ & Hst & _)%init_synced N.
  pose proof (synced_nearby_mines h w g c Hh Hw Hst) as Hnear.
  destruct (nearby_mines_size (Board.layout g) c) as [Hsize Hle].
  change (Minesweeper.height (Board.layout g)) with (Board.height g) in Hsize, Hle.
  change (Minesweeper.width (Board.layout g)) with (Board.width g) in Hsize, Hle.
  change (Minesweeper.mines (Board.layout g)) with (Board.mines g) in Hsize.
  rewrite Hh, Hw in Hsize, Hle.
  split; [by rewrite Hnear, Hsize|]. split; [done|]. split.
  - intros d. unfold N. rewrite elem_of_neighbours. unfold neighbour, on_board. simpl.
    tauto.
  - etrans; [|exact Hle]. apply subseteq_size. set_solver.
Qed.

Lemma nearby_mines_counts_the_neighbours_witness :
  let g := Board.mk 2 3 {[ (1, 1); (0, 0) ]}
             [[true; false; false]; [false; true; false]] ∅ in
  let N := neighbours (MinesweeperAI.init 2 3) (0, 1) in
  Board.nearby_mines g (0, 1) = Some (Z.of_nat (size (N ∩ Board.mines g))) ∧
  Board.nearby_mines g (0, 1) = Some (Minesweeper.nearby_mines (Board.layout g) (0, 1)) ∧
  (∀ d, d ∈ N ↔ d ≠ (0, 1) ∧ (0, 1).1 - 1 ≤ d.1 ≤ (0, 1).1 + 1 ∧
                (0, 1).2 - 1 ≤ d.2 ≤ (0, 1).2 + 1 ∧ on_board 2 3 d) ∧
  (size (N ∩ Board.mines g) ≤ 8)%nat.
Proof.
  intros g.
  apply (nearby_mines_counts_the_neighbours 2 3 2 [(5, 4); (0, 0); (5, 7); (1, 2)]).
  by vm_compute.
Defined.

(** [print()] on a board that the constructor built writes
    [2 * height + 1] lines of [2 * width + 1] characters each: the lines
    at even positions are rules of dashes, and in the line after the rule
    of row [i] the character at position [2 * j + 1] is an [X] exactly
    when the cell [(i, j)] holds a mine, and a blank when it does not. *)
Theorem print_draws_the_mines (h w n : Z) (draws : list (Z * Z)) (g : Board.t) :
  Board.init h w n draws = Board.Returns g →
  ∃ lines, Board.print g = Some lines ∧
    length lines = (2 * Z.to_nat h + 1)%nat ∧
    (∀ line, line ∈ lines → String.length line = (2 * Z.to_nat w + 1)%nat) ∧
    (∀ k, (k ≤ Z.to_nat h)%nat → lines !! (2 * k)%nat = Some (Board.rule w)) ∧
    (∀ i j, on_board h w (i, j) →
       ∃ line, lines !! (2 * Z.to_nat i + 1)%nat = Some line ∧
               String.get (2 * Z.to_nat j + 1) line
               = Some (if bool_decide ((i, j) ∈ Board.mines g) then "X" else " ")%char).
Proof.
  intros (Hh & Hw & _ & Hst & _)%init_synced. by apply print_picture.
Qed.

Lemma print_draws_the_mines_witness :
  let g := Board.mk 2 3 {[ (1, 1); (0, 0) ]}
             [[true; false; false]; [false; true; false]] ∅ in
  ∃ lines, Board.print g = Some lines ∧
    length lines = (2 * Z.to_nat 2 + 1)%nat ∧
    (∀ line, line ∈ lines → String.length line = (2 * Z.to_nat 3 + 1)%nat) ∧
    (∀ k, (k ≤ Z.to_nat 2)%nat → lines !! (2 * k)%nat = Some (Board.rule 3)) ∧
    (∀ i j, on_board 2 3 (i, j) →
       ∃ line, lines !! (2 * Z.to_nat i + 1)%nat = Some line ∧
               String.get (2 * Z.to_nat j + 1) line
               = Some (if bool_decide ((i, j) ∈ Board.mines g) then "X" else " ")%char).
Proof.
  intros g.
  apply (print_draws_the_mines 2 3 2 [(5, 4); (0, 0); (5, 7); (1, 2)]).
  by vm_compute.
Defined.

(** The two classes fit together.  On a board that the constructor built,
    let cells of the board that [is_mine] denies be reported to the AI with
    the counts that [nearby_mines] returns.  Then [is_mine] confirms every
    cell in the AI's [mines], denies every cell in its [safes], and denies
    the cell that [make_safe_move] proposes. *)
Theorem ai_is_right_about_a_built_board `{SetOrder} (h w n : Z) (draws : list (Z * Z))
    (g : Board.t) (fuel : nat) (reports : list (cell * Z)) (ai : MinesweeperAI.t) :
  Board.init h w n draws = Board.Returns g →
  Forall (λ r, on_board h w r.1 ∧ Board.is_mine g r.1 = Some false ∧
               Board.nearby_mines g r.1 = Some r.2) reports →
  add_all fuel reports (MinesweeperAI.init h w) = Some ai →
  (∀ c, c ∈ MinesweeperAI.mines ai → Board.is_mine g c = Some true) ∧
  (∀ c, c ∈ MinesweeperAI.safes ai → Board.is_mine g c = Some false) ∧
  (∀ c, make_safe_move ai = Some c → Board.is_mine g c = Some false).
Proof.
  intros (Hh & Hw & _ & Hst & _)%init_synced Hreports Hrun.
  destruct (built_play h w g Hh Hw Hst fuel reports ai Hreports Hrun)
    as [[_ _ Hm Hs _] [_ _ _ Hsb Hmb _]].
  unfold Board.layout in Hm, Hs. simpl in Hm, Hs.
  assert (∀ c, c ∈ MinesweeperAI.safes ai → Board.is_mine g c = Some false) as Hsafe.
  { intros c Hc. rewrite (built_is_mine h w g Hst) by auto.
    rewrite bool_decide_false; [done|set_solver]. }
  split; [|split; [done|]].
  - intros c Hc. rewrite (built_is_mine h w g Hst) by auto.
    rewrite bool_decide_true; [done|set_solver].
  - intros c Hmove. apply Hsafe.
    pose proof (make_safe_move_spec ai) as Hspec. rewrite Hmove in Hspec. tauto.
Qed.

Lemma ai_is_right_about_a_built_board_witness :
  let g := Board.mk 2 3 {[ (1, 1); (0, 0) ]}
             [[true; false; false]; [false; true; false]] ∅ in
  let ai := MinesweeperAI.mk 2 3 {[ (0, 2) ]} ∅ {[ (0, 2) ]}
              [Sentence.mk {[ (0, 1); (1, 1); (1, 2) ]} 1] in
  (∀ c, c ∈ MinesweeperAI.mines ai → Board.is_mine g c = Some true) ∧
  (∀ c, c ∈ MinesweeperAI.safes ai → Board.is_mine g c = Some false) ∧
  (∀ c, @make_safe_move elements_order ai = Some c → Board.is_mine g c = Some false).
Proof.
  intros g ai.
  apply (@ai_is_right_about_a_built_board elements_order 2 3 2
           [(5, 4); (0, 0); (5, 7); (1, 2)] g 5 [((0, 2), 1)] ai).
  - by vm_compute.
  - repeat constructor; simpl; lia.
  - by vm_compute.
Defined.
